(** * Level generation of the rhythm game: [generateLevel] of [src/views/game.js]

    A shallow embedding of the audio-to-chart pipeline (envelope, onset
    curve, peak picking, tempo estimation, quantization, key assignment,
    deduplication, minimum separation) and the proofs of its properties.

    Numbers.  A JavaScript number is modelled as an exact rational ([Q]):
    sums, products, quotients and comparisons are the exact ones, so rounding
    error and overflow of IEEE doubles are outside the model.  Every division
    of the source has a divisor that is non-zero whenever the sample rate is
    (window size, averaging counts that are at least 1 or guarded by a length
    test, bin width guarded by [binWidth > 0], grid step guarded by
    [beatUnit === 0]), so no quotient of the model stands for a NaN or an
    infinity of the source.  [Math.sqrt] is the one operation with irrational
    results; it is the field of the class [Host], and the theorems hold for
    whatever function the host provides (under the hypotheses they state).

    Arrays and maps.  Arrays are lists; a read outside an array is written
    out where the source relies on it ([at_index], the histogram cells), and
    the reads [rms[i]] of the picker are shown to be inside the envelope
    ([detectOnsets_frames]).  The [Map] of the deduplication is an association
    list in insertion order.

    Loops.  [for] loops over an index range and [forEach] are structural
    recursions and folds.  The two [while] loops of the tempo stage have no
    bound in the source; they are run by [while], which takes fuel and
    returns [None] when it runs out, and [while_eval] is the relation "the
    loop started here stops there".  [generateLevel] therefore returns an
    [option]: [None] for every fuel means that the source does not return.

    The game.  The module [Play] embeds the play loop of [initGame] (the
    prepared notes, [keyHandler], [gameLoop], the pruning of effects and the
    visualizer of [draw], the score), and the module [Levels] the file names
    of the level list of [levelSelect.js].  The pages, the audio graph and
    the timers of the browser are outside the model. *)

From Stdlib Require Import Ascii String.
From Stdlib Require Import QArith Qround Qabs ZArith List Bool Lia Lqa.
From Stdlib Require Import Sorted Permutation.
Import ListNotations.
Open Scope Q_scope.

(** ** Host functions ([Math.*], array reads) *)

Class Host := { Math_sqrt : Q -> Q }.

Definition Qlt_bool (x y : Q) : bool := negb (Qle_bool y x).

Definition Math_max (a b : Q) : Q := if Qlt_bool a b then b else a.
Definition Math_min (a b : Q) : Q := if Qlt_bool b a then b else a.
Definition Math_abs (x : Q) : Q := Qabs x.
Definition Math_floor (x : Q) : Z := Qfloor x.
Definition Math_ceil (x : Q) : Z := Qceiling x.
(** [Math.round] rounds to the nearest integer, halves towards +infinity. *)
Definition Math_round (x : Q) : Z := Qfloor (x + 0.5).
(** No rational is a NaN. *)
Definition isNaN (x : Q) : bool := false.

(** [a[k]] for a possibly negative or too large index: [None] is [undefined]. *)
Definition at_index {A} (a : list A) (k : Z) : option A :=
  if (k <? 0)%Z then None else nth_error a (Z.to_nat k).

(** The integers [lo, lo+1, ..., hi]. *)
Definition Zrange (lo hi : Z) : list Z :=
  map (fun k => (lo + Z.of_nat k)%Z) (seq 0 (Z.to_nat (hi - lo + 1))).

Definition Qlen {A} (l : list A) : Q := inject_Z (Z.of_nat (length l)).

(** ** Data *)

Record AudioBuffer := { channelData0 : list Q; sampleRate : Q }.

Inductive Difficulty := easy | medium | hard.

Module Onset.
Record t := mk { time : Q; originalRms : Q; odfValue : Q }.
End Onset.

Module Note.
Record t := mk { time : Q; key : string }.
End Note.

(** ** Configuration *)

Definition winSize : nat := 1024.
Definition hop : nat := Nat.div winSize 2.

Definition minNoteSeparation (d : Difficulty) : Q :=
  match d with easy => 0.3 | medium => 0.15 | hard => 0.08 end.

Definition odfSensitivity (d : Difficulty) : Q :=
  match d with easy => 0.5 | medium => 0.8 | hard => 1.2 end.

Definition odfSmoothWindow : Q := 3.

Definition minBPM : Q := 60.
Definition maxBPM : Q := 200.
Definition ioiHistogramBins : nat := 50.

Definition quantizationGrid (d : Difficulty) : list Q :=
  match d with
  | easy => [1; 0.5]
  | medium => [1; 0.5; 0.25]
  | hard => [1; 0.5; 0.25; 0.125]
  end.

Definition strongNoteThreshold : Q := 0.6.

(** ** Step 1: RMS energy envelope *)

Section Pipeline.
Context {host : Host}.

(** The window [raw[i], ..., raw[i + winSize - 1]]; the loop only reads it
    when [i + winSize <= raw.length]. *)
Definition window (raw : list Q) (i : nat) : list Q := firstn winSize (skipn i raw).

Definition sumSquares (w : list Q) : Q := fold_left (fun sum x => sum + x ^ 2) w 0.

(** [for (i = 0; i + winSize <= raw.length; i += hop)]: [n] bounds the number
    of iterations left. *)
Fixpoint rmsLoop (n : nat) (raw : list Q) (i : nat) : list Q :=
  match n with
  | O => []
  | S n' =>
      if (i + winSize <=? length raw)%nat
      then Math_sqrt (sumSquares (window raw i) / inject_Z (Z.of_nat winSize))
             :: rmsLoop n' raw (i + hop)
      else []
  end.

Definition rmsEnvelope (raw : list Q) : list Q := rmsLoop (length raw) raw 0.

(** ** Step 2: onset detection function *)

(** [odf.push(Math.max(0, rms[i] - rms[i - 1]))] for [i = 1 ..]. *)
Fixpoint odfLoop (prev : Q) (rest : list Q) : list Q :=
  match rest with
  | [] => []
  | r :: rest' => Math_max 0 (r - prev) :: odfLoop r rest'
  end.

Definition onsetCurve (rms : list Q) : list Q :=
  0 :: match rms with [] => [] | r0 :: rest => odfLoop r0 rest end.

(** The offsets [j] of the smoothing loop:
    [-Math.floor(odfSmoothWindow / 2) <= j <= Math.ceil(odfSmoothWindow / 2)]. *)
Definition smoothOffsets : list Z :=
  Zrange (- Math_floor (odfSmoothWindow / 2)) (Math_ceil (odfSmoothWindow / 2)).

(** One pass of the inner loop: [sum] and [count] over the offsets whose
    index is inside the array. *)
Definition smoothStep (odf : list Q) (i : Z) (acc : Q * nat) (j : Z) : Q * nat :=
  match at_index odf (i + j) with
  | Some v => (fst acc + v, S (snd acc))
  | None => acc
  end.

Definition smoothAt (odf : list Q) (i : nat) : Q :=
  let '(sum, count) := fold_left (smoothStep odf (Z.of_nat i)) smoothOffsets (0, O) in
  sum / inject_Z (Z.of_nat count).

Definition smoothOdf (odf : list Q) : list Q :=
  map (smoothAt odf) (seq 0 (length odf)).

(** ** Step 3: dynamic peak picking *)

Definition odfValuesForThreshold (smoothedOdf : list Q) : list Q :=
  filter (fun v => Qlt_bool 0 v) smoothedOdf.

Definition meanOdf (smoothedOdf : list Q) : Q :=
  let vals := odfValuesForThreshold smoothedOdf in
  if (0 <? length vals)%nat then fold_left (fun a b => a + b) vals 0 / Qlen vals else 0.

Definition stdOdf (smoothedOdf : list Q) : Q :=
  let vals := odfValuesForThreshold smoothedOdf in
  let mean := meanOdf smoothedOdf in
  if (0 <? length vals)%nat
  then Math_sqrt (fold_left (fun a b => a + (b - mean) ^ 2) vals 0 / Qlen vals)
  else 0.

Definition dynamicThreshold (d : Difficulty) (smoothedOdf : list Q) : Q :=
  meanOdf smoothedOdf + stdOdf smoothedOdf * odfSensitivity d.

(** Frame index to seconds: [(i * hop) / sr]. *)
Definition frameTime (sr : Q) (i : nat) : Q :=
  inject_Z (Z.of_nat (i * hop)) / sr.

(** The record pushed for frame [i]. *)
Definition onsetAt (sr : Q) (rms smoothedOdf : list Q) (i : nat) : Onset.t :=
  Onset.mk (frameTime sr i) (nth i rms 0) (nth i smoothedOdf 0).

(** The test of the peak loop at index [i]. *)
Definition isPeak (threshold : Q) (smoothedOdf : list Q) (i : nat) : bool :=
  Qlt_bool threshold (nth i smoothedOdf 0)
  && Qlt_bool (nth (i - 1) smoothedOdf 0) (nth i smoothedOdf 0)
  && Qlt_bool (nth (i + 1) smoothedOdf 0) (nth i smoothedOdf 0).

(** [for (i = 1; i < smoothedOdf.length - 1; i++)], [n] iterations left. *)
Fixpoint peakLoop (n : nat) (sr threshold : Q) (rms smoothedOdf : list Q) (i : nat)
  : list Onset.t :=
  match n with
  | O => []
  | S n' =>
      if isPeak threshold smoothedOdf i
      then onsetAt sr rms smoothedOdf i :: peakLoop n' sr threshold rms smoothedOdf (S i)
      else peakLoop n' sr threshold rms smoothedOdf (S i)
  end.

Definition pickPeaks (d : Difficulty) (sr : Q) (rms smoothedOdf : list Q) : list Onset.t :=
  peakLoop (length smoothedOdf - 2) sr (dynamicThreshold d smoothedOdf) rms smoothedOdf 1.

(** [smoothedOdf.findIndex(p)]; [None] is the source's [-1]. *)
Fixpoint findIndexFrom (p : Q -> bool) (l : list Q) (i : nat) : option nat :=
  match l with
  | [] => None
  | v :: l' => if p v then Some i else findIndexFrom p l' (S i)
  end.

Definition firstStrongOdfIdx (smoothedOdf : list Q) : option nat :=
  findIndexFrom
    (fun v => Qlt_bool (meanOdf smoothedOdf + stdOdf smoothedOdf * 0.1) v)
    smoothedOdf 0.

(** The leading-onset rescue: [detectedOnsets.unshift(...)] under its guard. *)
Definition rescueLeading (sr : Q) (rms smoothedOdf : list Q) (detectedOnsets : list Onset.t)
  : list Onset.t :=
  match firstStrongOdfIdx smoothedOdf with
  | Some idx =>
      let late :=
        match detectedOnsets with
        | [] => true
        | first :: _ => Qlt_bool (frameTime sr idx + 0.1) (Onset.time first)
        end in
      if late then onsetAt sr rms smoothedOdf idx :: detectedOnsets else detectedOnsets
  | None => detectedOnsets
  end.

(** [Array.prototype.sort] with the comparator [a.time - b.time] (and
    [a - b] on numbers): a stable sort on the key [t]. *)
Fixpoint insertBy {A} (t : A -> Q) (x : A) (l : list A) : list A :=
  match l with
  | [] => [x]
  | y :: l' => if Qle_bool (t x) (t y) then x :: y :: l' else y :: insertBy t x l'
  end.

Definition sortBy {A} (t : A -> Q) (l : list A) : list A :=
  fold_right (insertBy t) [] l.

Definition detectOnsets (d : Difficulty) (sr : Q) (rms : list Q) : list Onset.t :=
  let smoothedOdf := smoothOdf (onsetCurve rms) in
  sortBy Onset.time (rescueLeading sr rms smoothedOdf (pickPeaks d sr rms smoothedOdf)).


(** ** Step 4: tempo estimation *)

(** [iois.push(detectedOnsets[i].time - detectedOnsets[i - 1].time)]. *)
Fixpoint ioiLoop (prev : Onset.t) (rest : list Onset.t) : list Q :=
  match rest with
  | [] => []
  | o :: rest' => (Onset.time o - Onset.time prev) :: ioiLoop o rest'
  end.

Definition interOnsetIntervals (detectedOnsets : list Onset.t) : list Q :=
  match detectedOnsets with [] => [] | o :: rest => ioiLoop o rest end.

(** A cell of [ioiHistogram]: [Some n] is the count [n]; [None] is a cell
    that holds no count ([NaN], or a hole of an array that grew).  Such a
    cell is never greater than [maxCount], and incrementing it gives [NaN]. *)
Definition Cell := option nat.

(** [h[k]++] for [k >= 0]: a write past the end makes the array longer. *)
Fixpoint increment (h : list Cell) (k : nat) : list Cell :=
  match h, k with
  | [], O => [None]
  | [], S k' => None :: increment [] k'
  | c :: h', O => option_map S c :: h'
  | c :: h', S k' => c :: increment h' k'
  end.

(** The body of [iois.forEach]; a negative [binIdx] would write a property
    that is no array element. *)
Definition histogramAdd (minIoi maxIoi binWidth : Q) (h : list Cell) (ioi : Q) : list Cell :=
  if Qle_bool minIoi ioi && Qle_bool ioi maxIoi && Qlt_bool 0 binWidth
  then
    let binIdx := Math_floor ((ioi - minIoi) / binWidth) in
    if (binIdx <? 0)%Z then h else increment h (Z.to_nat binIdx)
  else h.

(** The scan for the fullest bin, from index [i] on. *)
Fixpoint modalBinLoop (h : list Cell) (i : Z) (maxCount : nat) (maxBinIdx : Z) : Z :=
  match h with
  | [] => maxBinIdx
  | Some n :: h' =>
      if (maxCount <? n)%nat then modalBinLoop h' (i + 1) n i
      else modalBinLoop h' (i + 1) maxCount maxBinIdx
  | None :: h' => modalBinLoop h' (i + 1) maxCount maxBinIdx
  end.

(** [Math.min(...l)] and [Math.max(...l)] of a list with first element [x]. *)
Definition minOf (x : Q) (l : list Q) : Q := fold_left Math_min l x.
Definition maxOf (x : Q) (l : list Q) : Q := fold_left Math_max l x.

Definition dominantIoi (iois : list Q) : Q :=
  match iois with
  | [] => 0
  | x :: rest =>
      let minIoi := minOf x rest in
      let maxIoi := maxOf x rest in
      let binWidth := (maxIoi - minIoi) / inject_Z (Z.of_nat ioiHistogramBins) in
      let ioiHistogram :=
        fold_left (histogramAdd minIoi maxIoi binWidth) iois (repeat (Some O) ioiHistogramBins) in
      let maxBinIdx := modalBinLoop ioiHistogram 0 O (-1) in
      if (maxBinIdx =? -1)%Z then 0
      else minIoi + (inject_Z maxBinIdx + 0.5) * binWidth
  end.

(** [while (cond) body], with fuel: [None] when the fuel runs out. *)
Fixpoint while {St : Type} (fuel : nat) (cond : St -> bool) (body : St -> St) (s : St)
  : option St :=
  match fuel with
  | O => None
  | S fuel' => if cond s then while fuel' cond body (body s) else Some s
  end.

(** The loop started in the first state stops in the second. *)
Inductive while_eval {St : Type} (cond : St -> bool) (body : St -> St) : St -> St -> Prop :=
| while_done : forall s, cond s = false -> while_eval cond body s s
| while_step : forall s s', cond s = true -> while_eval cond body (body s) s' ->
    while_eval cond body s s'.

Definition tooSlow (e : Q) : bool := Qlt_bool (60 / minBPM) e && Qlt_bool 0.1 e.
Definition tooFast (e : Q) : bool := Qlt_bool e (60 / maxBPM) && Qlt_bool e 2.

(** The octave correction of [estimatedBeatDuration]. *)
Definition octaveCorrect (fuel : nat) (e : Q) : option Q :=
  if Qlt_bool (60 / minBPM) e then while fuel tooSlow (fun e => e / 2) e
  else if Qlt_bool e (60 / maxBPM) then while fuel tooFast (fun e => e * 2) e
  else Some e.

Definition fallback (e : Q) : Q :=
  if Qeq_bool e 0 || isNaN e || Qlt_bool e 0.1 || Qlt_bool 2 e then 0.5 else e.

Definition estimateBeatDuration (fuel : nat) (detectedOnsets : list Onset.t) : option Q :=
  option_map fallback (octaveCorrect fuel (dominantIoi (interOnsetIntervals detectedOnsets))).

(** ** Step 5: rhythmic quantization *)

(** [timeDiff < minTimeDiff], where [None] is [Infinity]. *)
Definition belowDiff (timeDiff : Q) (minTimeDiff : option Q) : bool :=
  match minTimeDiff with None => true | Some m => Qlt_bool timeDiff m end.

(** The body of [quantizationGrid.forEach] on the pair
    [(bestQuantizedTime, minTimeDiff)]. *)
Definition snapStep (estimatedBeatDuration startTime : Q) (onset : Onset.t)
    (acc : Q * option Q) (subdivision : Q) : Q * option Q :=
  let beatUnit := estimatedBeatDuration * subdivision in
  if Qeq_bool beatUnit 0 then acc
  else
    let numBeatUnits := (Onset.time onset - startTime) / beatUnit in
    let nearestGridPoint := inject_Z (Math_round numBeatUnits) * beatUnit + startTime in
    let timeDiff := Math_abs (Onset.time onset - nearestGridPoint) in
    if belowDiff timeDiff (snd acc) then (nearestGridPoint, Some timeDiff) else acc.

Definition bestQuantizedTime (grid : list Q) (estimatedBeatDuration startTime : Q)
    (onset : Onset.t) : Q :=
  fst (fold_left (snapStep estimatedBeatDuration startTime onset) grid (Onset.time onset, None)).

Definition quantizeOnset (grid : list Q) (estimatedBeatDuration startTime : Q)
    (onset : Onset.t) : Onset.t :=
  Onset.mk (Math_max 0 (bestQuantizedTime grid estimatedBeatDuration startTime onset))
           (Onset.originalRms onset) (Onset.odfValue onset).

Definition startTimeOf (detectedOnsets : list Onset.t) : Q :=
  match detectedOnsets with [] => 0 | first :: _ => Onset.time first end.

Definition quantize (grid : list Q) (estimatedBeatDuration : Q) (detectedOnsets : list Onset.t)
  : list Onset.t :=
  map (quantizeOnset grid estimatedBeatDuration (startTimeOf detectedOnsets)) detectedOnsets.

(** ** Step 6: key assignment *)

(** [allRmsValues[Math.floor(allRmsValues.length * strongNoteThreshold)] || 0]:
    a read past the end is [undefined], which [|| 0] turns into [0] (and a
    stored [0] stays [0]). *)
Definition strongRmsThreshold (quantizedNotes : list Onset.t) : Q :=
  let allRmsValues := sortBy (fun v => v) (map Onset.originalRms quantizedNotes) in
  nth (Z.to_nat (Math_floor (Qlen allRmsValues * strongNoteThreshold))) allRmsValues 0.

Definition isStrong (threshold : Q) (note : Onset.t) : bool :=
  Qle_bool threshold (Onset.originalRms note).

Definition nextStrongKey (lastStrongKey : string) : string :=
  if String.eqb lastStrongKey "ArrowUp" then "ArrowDown" else "ArrowUp".

Definition nextWeakKey (lastWeakKey : string) : string :=
  if String.eqb lastWeakKey "ArrowLeft" then "ArrowRight" else "ArrowLeft".

(** [quantizedNotes.forEach] with the two trackers as explicit state. *)
Fixpoint assignLoop (threshold : Q) (lastStrongKey lastWeakKey : string)
    (quantizedNotes : list Onset.t) : list Note.t :=
  match quantizedNotes with
  | [] => []
  | note :: rest =>
      if isStrong threshold note
      then let key := nextStrongKey lastStrongKey in
           Note.mk (Onset.time note) key :: assignLoop threshold key lastWeakKey rest
      else let key := nextWeakKey lastWeakKey in
           Note.mk (Onset.time note) key :: assignLoop threshold lastStrongKey key rest
  end.

Definition assignKeys (quantizedNotes : list Onset.t) : list Note.t :=
  assignLoop (strongRmsThreshold quantizedNotes) "ArrowUp" "ArrowLeft" quantizedNotes.

(** ** Step 7: deduplication and minimum separation *)

(** A [Map] from millisecond keys to notes, in insertion order. *)
Definition NoteMap := list (Z * Note.t).

Fixpoint mapGet (m : NoteMap) (k : Z) : option Note.t :=
  match m with
  | [] => None
  | (k', v) :: m' => if (k' =? k)%Z then Some v else mapGet m' k
  end.

(** [m.set(k, v)]: a present key keeps its place, a new one goes last. *)
Fixpoint mapSet (m : NoteMap) (k : Z) (v : Note.t) : NoteMap :=
  match m with
  | [] => [(k, v)]
  | (k', v') :: m' => if (k' =? k)%Z then (k', v) :: m' else (k', v') :: mapSet m' k v
  end.

Definition mapValues (m : NoteMap) : list Note.t := map snd m.

Definition timeKeyOf (t : Q) : Z := Math_round (t * 1000).

(** [quantizedNotes.find(qn => Math.round(qn.time * 1000) === timeKey
                                && qn.time === t)]. *)
Definition findOriginal (quantizedNotes : list Onset.t) (timeKey : Z) (t : Q) : option Onset.t :=
  find (fun qn => (timeKeyOf (Onset.time qn) =? timeKey)%Z && Qeq_bool (Onset.time qn) t)
       quantizedNotes.

(** The body of [finalNotes.forEach]. *)
Definition dedupStep (quantizedNotes : list Onset.t) (uniqueNotesMap : NoteMap) (note : Note.t)
  : NoteMap :=
  let timeKey := timeKeyOf (Note.time note) in
  match mapGet uniqueNotesMap timeKey with
  | None => mapSet uniqueNotesMap timeKey note
  | Some existingNote =>
      let originalNoteForExisting := findOriginal quantizedNotes timeKey (Note.time existingNote) in
      let originalNoteForCurrent := findOriginal quantizedNotes timeKey (Note.time note) in
      match originalNoteForCurrent, originalNoteForExisting with
      | Some cur, Some ex =>
          if Qlt_bool (Onset.odfValue ex) (Onset.odfValue cur)
          then mapSet uniqueNotesMap timeKey note
          else uniqueNotesMap
      | _, _ => uniqueNotesMap
      end
  end.

Definition dedup (quantizedNotes : list Onset.t) (finalNotes : list Note.t) : list Note.t :=
  sortBy Note.time (mapValues (fold_left (dedupStep quantizedNotes) finalNotes [])).

(** The loop over [filteredNotes[1..]]; [last] is
    [processedNotes[processedNotes.length - 1]]. *)
Fixpoint separationLoop (minSep : Q) (last : Note.t) (rest : list Note.t) : list Note.t :=
  match rest with
  | [] => []
  | n :: rest' =>
      if Qle_bool minSep (Note.time n - Note.time last)
      then n :: separationLoop minSep n rest'
      else separationLoop minSep last rest'
  end.

Definition enforceSeparation (minSep : Q) (filteredNotes : list Note.t) : list Note.t :=
  match filteredNotes with
  | [] => []
  | first :: rest => first :: separationLoop minSep first rest
  end.

(** ** The whole function *)

(** Steps 5 to 7, given the beat period. *)
Definition chartNotes (d : Difficulty) (estimatedBeatDuration : Q) (detectedOnsets : list Onset.t)
  : list Note.t :=
  let quantizedNotes := quantize (quantizationGrid d) estimatedBeatDuration detectedOnsets in
  let finalNotes := assignKeys quantizedNotes in
  enforceSeparation (minNoteSeparation d) (dedup quantizedNotes finalNotes).

(** Steps 4 to 7. *)
Definition notesFromOnsets (fuel : nat) (d : Difficulty) (detectedOnsets : list Onset.t)
  : option (list Note.t) :=
  match estimateBeatDuration fuel detectedOnsets with
  | Some estimatedBeatDuration => Some (chartNotes d estimatedBeatDuration detectedOnsets)
  | None => None
  end.

Definition generateLevel (fuel : nat) (audioBuffer : AudioBuffer) (d : Difficulty)
  : option (list Note.t) :=
  let raw := channelData0 audioBuffer in
  let sr := sampleRate audioBuffer in
  notesFromOnsets fuel d (detectOnsets d sr (rmsEnvelope raw)).

End Pipeline.

(** ** Vocabulary of the properties *)

(** The four lane symbols, by pair. *)
Definition strongLanes : list string := ["ArrowUp"; "ArrowDown"]%string.
Definition weakLanes : list string := ["ArrowLeft"; "ArrowRight"]%string.
Definition lanes : list string := (strongLanes ++ weakLanes)%list.

Definition isStrongLane (k : string) : bool :=
  (String.eqb k "ArrowUp" || String.eqb k "ArrowDown")%bool.
Definition isWeakLane (k : string) : bool :=
  (String.eqb k "ArrowLeft" || String.eqb k "ArrowRight")%bool.


(** The lanes of the notes that sit on a lane of the given kind, in order. *)
Definition lanesOf (kind : string -> bool) (notes : list Note.t) : list string :=
  filter kind (map Note.key notes).

(** The sum of a list, as mathematics writes it. *)
Definition total (l : list Q) : Q := fold_right Qplus 0 l.

(** What the pair [(bestQuantizedTime, minTimeDiff)] satisfies once the
    subdivisions [seen] have been tried for the onset time [t]. *)
Definition snapped (beat start t : Q) (seen : list Q) (acc : Q * option Q) : Prop :=
  match snd acc with
  | None => fst acc = t /\ forall s, In s seen -> beat * s == 0
  | Some m =>
      m == Qabs (t - fst acc) /\
      (exists s k, In s seen /\ ~ beat * s == 0 /\
                   fst acc == start + inject_Z k * (beat * s)) /\
      (forall s k, In s seen -> ~ beat * s == 0 ->
         Qabs (t - fst acc) <= Qabs (t - (start + inject_Z k * (beat * s))))
  end.

(** The values of [odf] at the indices [ks] that are inside the array. *)
Definition valuesAt (odf : list Q) (ks : list Z) : list Q :=
  flat_map (fun k => match at_index odf k with Some v => [v] | None => [] end) ks.

Definition meanOf (w : list Q) : Q := total w / Qlen w.

(** The smoothing as the specification words it: the mean over the indices
    [i - 1], [i], [i + 1] that are in range. *)
Definition centeredMean3 (odf : list Q) (i : nat) : Q :=
  meanOf (valuesAt odf [Z.of_nat i - 1; Z.of_nat i; Z.of_nat i + 1]%Z).

(** ** Sample data *)

(** A host for the examples: the square root rounded down to a multiple of
    [1 / (d * 2^20)] for an argument [n / d] in lowest terms; it is exact on
    the squares of rationals. *)
Definition sqrtLower (q : Q) : Q :=
  let r := Qred q in
  inject_Z (Z.sqrt (Qnum r * Zpos (Qden r) * 4 ^ 20))
  / inject_Z (Zpos (Qden r) * 2 ^ 20).

Definition sampleHost : Host := {| Math_sqrt := sqrtLower |}.

(** Half a window of samples: a burst of [ones] full-scale samples, then
    silence. *)
Definition halfWindow (ones : nat) : list Q := repeat 1 ones ++ repeat 0 (512 - ones).

(** Two bursts three half-windows apart: one strict peak of the smoothed
    onset curve. *)
Definition attack (ones : nat) : list nat := [ones; O; O; ones].
Definition silence (n : nat) : list nat := repeat O n.

(** At 44.1 kHz: four equal attacks, 22, 22 and 30 hops apart. *)
Definition sampleLayout : list nat :=
  silence 4 ++ attack 256 ++ silence 18 ++ attack 256 ++ silence 18 ++ attack 256
  ++ silence 26 ++ attack 256 ++ silence 6.

Definition sampleBuffer : AudioBuffer :=
  {| channelData0 := flat_map halfWindow sampleLayout; sampleRate := 44100 |}.

Definition sampleOnsets :=
  Eval vm_compute in
    @detectOnsets sampleHost easy (sampleRate sampleBuffer)
      (@rmsEnvelope sampleHost (channelData0 sampleBuffer)).

Definition sampleBeat :=
  Eval vm_compute in
    match estimateBeatDuration 10 sampleOnsets with Some beat => beat | None => 0 end.

Definition sampleNotes :=
  Eval vm_compute in chartNotes easy sampleBeat sampleOnsets.

(** At 44.1 kHz: a soft attack, a loud one 8 hops later, and two more soft
    attacks 36 and 44 hops after that. *)
Definition collisionLayout : list nat :=
  silence 4 ++ attack 64 ++ silence 4 ++ attack 256 ++ silence 32 ++ attack 64
  ++ silence 40 ++ attack 64 ++ silence 6.

Definition collisionBuffer : AudioBuffer :=
  {| channelData0 := flat_map halfWindow collisionLayout; sampleRate := 44100 |}.

Definition collisionOnsets :=
  Eval vm_compute in
    @detectOnsets sampleHost easy (sampleRate collisionBuffer)
      (@rmsEnvelope sampleHost (channelData0 collisionBuffer)).

Definition collisionBeat :=
  Eval vm_compute in
    match estimateBeatDuration 10 collisionOnsets with Some beat => beat | None => 0 end.

Definition collisionNotes :=
  Eval vm_compute in chartNotes easy collisionBeat collisionOnsets.

(** Quantized onsets of three strengths. *)
Definition sampleQuantized : list Onset.t :=
  [Onset.mk 0 0.2 1; Onset.mk 0.5 0.9 1; Onset.mk 1 0.3 1].

(** ** Orders on candidates and notes *)

Definition earlier (a b : Onset.t) : Prop := Onset.time a < Onset.time b.
Definition notLater (a b : Note.t) : Prop := Note.time a <= Note.time b.
Definition apart (minSep : Q) (a b : Note.t) : Prop := minSep <= Note.time b - Note.time a.

(** The frame the envelope loop pushes in its [k]-th pass. *)
Definition frameRms {host : Host} (raw : list Q) (k : nat) : Q :=
  Math_sqrt (sumSquares (window raw (k * hop)) / inject_Z (Z.of_nat winSize)).


(** Candidates at 0, 1 and 3 seconds and the beat period estimated from
    them. *)
(** An envelope with two attacks. *)
Definition attackEnvelope : list Q := [0; 0; 0; 0.5; 0.5; 0; 0.9; 0.9; 0; 0].

Definition threeOnsets : list Onset.t := [Onset.mk 0 1 1; Onset.mk 1 1 1; Onset.mk 3 1 1].

Definition threeOnsetsBeat :=
  Eval vm_compute in
    match estimateBeatDuration 10 threeOnsets with Some beat => beat | None => 0 end.

(** What the map satisfies at every point of the loop: its keys are
    distinct, and every entry sits under the millisecond of its note. *)
Definition keyed (m : NoteMap) : Prop :=
  NoDup (map fst m) /\ forall kv, In kv m -> fst kv = timeKeyOf (Note.time (snd kv)).

(** ** The play loop of [initGame]

    The notes on screen, the two counters, the visual effects and the sounds
    played are the state; [audioCtx.currentTime], [startTime] and the size of
    the canvas are read from the [Screen].  Removing a note's element from
    the page is the flag [el]; a sound played is an entry of [sounds]. *)

Module Play.

Definition speed : Q := 500.
Definition hitWindow : Q := 0.2.

Record PlayNote := mkNote {
  spawnTime : Q; key : string; hit : bool; missed : bool; el : bool }.

Record Effect := mkEffect { type : string; x : Q; y : Q; t0 : Q }.

Inductive Sound := HitSound | MissSound.

Record Screen := mkScreen { currentTime : Q; startTime : Q; width : Q; height : Q }.

Record Game := mkGame {
  notes : list PlayNote; hits : nat; misses : nat;
  effects : list Effect; sounds : list Sound }.

(** [raw.map(n => ({ spawnTime: n.time - (canvas.width * 0.9) / speed + 0.1,
                      key: n.key }))] of [_showGame]. *)
Definition prepare (canvasWidth : Q) (raw : list Note.t) : list (Q * string) :=
  map (fun n => (Note.time n - (canvasWidth * 0.9) / speed + 0.1, Note.key n)) raw.

(** [spawnAllNotes]: [{ ...n, hit: false, missed: false, el }]. *)
Definition spawnAllNotes (rawNotes : list (Q * string)) : list PlayNote :=
  map (fun n => mkNote (fst n) (snd n) false false true) rawNotes.

(** The state [_showGame] starts from. *)
Definition start (canvasWidth : Q) (raw : list Note.t) : Game :=
  mkGame (spawnAllNotes (prepare canvasWidth raw)) 0 0 [] [].

Definition pending (n : PlayNote) : bool := negb (hit n || missed n).

(** [n.hit = true; ... n.el.remove()] and [n.missed = true; ... n.el.remove()]. *)
Definition setHit (n : PlayNote) : PlayNote :=
  mkNote (spawnTime n) (key n) true (missed n) false.
Definition setMissed (n : PlayNote) : PlayNote :=
  mkNote (spawnTime n) (key n) (hit n) true false.

(** [hits++; playHitSound(); spawnEffect('hit', x, y)]. *)
Definition countHit (scr : Screen) (x y : Q) (g : Game) : Game :=
  mkGame (notes g) (S (hits g)) (misses g)
    (effects g ++ [mkEffect "hit"%string x y (currentTime scr)]) (sounds g ++ [HitSound]).

(** [misses++; playMissSound(); spawnEffect('miss', x, y)]. *)
Definition countMiss (scr : Screen) (x y : Q) (g : Game) : Game :=
  mkGame (notes g) (hits g) (S (misses g))
    (effects g ++ [mkEffect "miss"%string x y (currentTime scr)]) (sounds g ++ [MissSound]).

Definition withNotes (ns : list PlayNote) (g : Game) : Game :=
  mkGame ns (hits g) (misses g) (effects g) (sounds g).

Definition allowed : list string :=
  ["ArrowUp"; "ArrowRight"; "ArrowDown"; "ArrowLeft"]%string.

Definition includes (l : list string) (k : string) : bool := existsb (String.eqb k) l.

(** [Math.abs(x - xH) < hitWindow * speed] for [x = (t - n.spawnTime) * speed]. *)
Definition inWindow (t xH : Q) (n : PlayNote) : bool :=
  Qlt_bool (Math_abs ((t - spawnTime n) * speed - xH)) (hitWindow * speed).

(** How the [for (let n of notes)] loop of [keyHandler] ends. *)
Inductive Outcome := Hit | WrongKey (x : Q) | NoNote.

Fixpoint keyLoop (k : string) (t xH : Q) (ns : list PlayNote) : list PlayNote * Outcome :=
  match ns with
  | [] => ([], NoNote)
  | n :: rest =>
      if hit n || missed n
      then let (rest', o) := keyLoop k t xH rest in (n :: rest', o)
      else if inWindow t xH n
      then if String.eqb k (key n)
           then (setHit n :: rest, Hit)
           else (setMissed n :: rest, WrongKey ((t - spawnTime n) * speed))
      else let (rest', o) := keyLoop k t xH rest in (n :: rest', o)
  end.

Definition keyHandler (scr : Screen) (k : string) (g : Game) : Game :=
  let xH := width scr * 0.9 in
  if negb (includes allowed k) then countMiss scr xH (height scr / 2) g
  else
    let t := currentTime scr - startTime scr in
    match keyLoop k t xH (notes g) with
    | (ns, Hit) => countHit scr xH (height scr / 2) (withNotes ns g)
    | (ns, WrongKey x) => countMiss scr x (height scr / 2) (withNotes ns g)
    | (_, NoNote) => countMiss scr xH (height scr / 2) g
    end.

(** [x > xH + 30] for a note that is neither hit nor missed. *)
Definition passed (t xH : Q) (n : PlayNote) : bool :=
  pending n && Qlt_bool (xH + 30) ((t - spawnTime n) * speed).

(** The [notes.forEach] of [gameLoop], threading the counters.  [initGame]
    defines [gameLoop] and holds no call of it; the model lets a pass happen
    at any moment. *)
Fixpoint gameLoopWalk (scr : Screen) (t xH : Q) (ns : list PlayNote) (g : Game)
  : list PlayNote * Game :=
  match ns with
  | [] => ([], g)
  | n :: rest =>
      if passed t xH n
      then let (rest', g') := gameLoopWalk scr t xH rest (countMiss scr xH (height scr / 2) g) in
           (setMissed n :: rest', g')
      else let (rest', g') := gameLoopWalk scr t xH rest g in (n :: rest', g')
  end.

Definition gameLoop (scr : Screen) (g : Game) : Game :=
  let t := currentTime scr - startTime scr in
  let xH := width scr * 0.9 in
  let (ns, g') := gameLoopWalk scr t xH (notes g) g in
  withNotes ns g'.

(** [score: hits / ((hits + misses) || 1)] of the statistics passed to
    [onEnd]. *)
Definition score (g : Game) : Q :=
  inject_Z (Z.of_nat (hits g))
  / (if (hits g + misses g =? 0)%nat then 1 else inject_Z (Z.of_nat (hits g + misses g))).

(** What [draw] changes in the state of the game: effects older than 0.4 s
    are dropped, [effects = effects.filter(e => now - e.t0 < 0.4)]; the rest
    of [draw] paints. *)
Definition draw (scr : Screen) (g : Game) : Game :=
  mkGame (notes g) (hits g) (misses g)
    (filter (fun e => Qlt_bool (currentTime scr - t0 e) 0.4) (effects g)) (sounds g).

(** What can happen to a running game: a key press, a pass of [gameLoop],
    or a frame drawn. *)
Inductive Event :=
  KeyDown (scr : Screen) (k : string) | Frame (scr : Screen) | Redraw (scr : Screen).

Definition step (g : Game) (e : Event) : Game :=
  match e with
  | KeyDown scr k => keyHandler scr k g
  | Frame scr => gameLoop scr g
  | Redraw scr => draw scr g
  end.

Definition run (events : list Event) (g : Game) : Game := fold_left step events g.

(** The first note a key press can resolve. *)
Definition target (t xH : Q) (ns : list PlayNote) : option PlayNote :=
  find (fun n => pending n && inWindow t xH n) ns.

(** The note after a press of [k] resolved it. *)
Definition resolve (k : string) (n : PlayNote) : PlayNote :=
  if String.eqb k (key n) then setHit n else setMissed n.

Definition countOf (p : PlayNote -> bool) (ns : list PlayNote) : nat :=
  length (filter p ns).

(** The counters agree with the flags of the notes. *)
Definition consistent (g : Game) : Prop :=
  hits g = countOf hit (notes g) /\
  (countOf missed (notes g) <= misses g)%nat /\
  Forall (fun n => hit n && missed n = false /\ el n = pending n) (notes g) /\
  (length (effects g) <= hits g + misses g)%nat /\
  length (sounds g) = (hits g + misses g)%nat.

(** What a later state may have made of a note. *)
Definition settles (n n' : PlayNote) : Prop :=
  spawnTime n' = spawnTime n /\ key n' = key n /\
  (pending n = false -> n' = n) /\ (pending n' = true -> n' = n).

Definition isKeyDown (e : Event) : bool :=
  match e with KeyDown _ _ => true | _ => false end.

Definition isFrame (e : Event) : bool :=
  match e with Frame _ => true | _ => false end.

(** The player presses the lane of [n] at the moment [n] is on the hit line;
    the canvas keeps the size it had when the notes were prepared. *)
Definition onTime (scr : Screen) (n : Note.t) : Event :=
  KeyDown (mkScreen (startTime scr + (Note.time n + 0.1)) (startTime scr)
             (width scr) (height scr))
          (Note.key n).

Definition perfectPlay (scr : Screen) (raw : list Note.t) : list Event :=
  map (onTime scr) raw.






Definition sampleScreen : Screen := mkScreen 5 2 800 600.
Definition sampleChart : list Note.t :=
  [Note.mk 1.001 "ArrowUp"%string; Note.mk 1 "ArrowLeft"%string].

End Play.

(** ** The level list of [levelSelect.js]

    A JavaScript string is the list of its code units.  [loadLevels] takes
    the [href] of every link of the directory listing, keeps its last path
    segment, keeps the segments that end in [.mp3], and shows each under the
    name [decodeURIComponent(mp3.replace('.mp3', ''))]; the decoding is the
    browser's and is not modelled. *)

Module Levels.

Definition JsString := list Ascii.ascii.

Definition slash : Ascii.ascii := "/"%char.
Definition mp3 : JsString := list_ascii_of_string ".mp3".

(** [s.split(sep)] for a separator of one code unit. *)
Fixpoint split (sep : Ascii.ascii) (s : JsString) : list JsString :=
  match s with
  | [] => [[]]
  | c :: rest =>
      if Ascii.eqb c sep then [] :: split sep rest
      else match split sep rest with
           | h :: t => (c :: h) :: t
           | [] => [[c]]
           end
  end.

(** [l.pop()]; [split] never gives an empty array. *)
Definition pop (l : list JsString) : JsString := last l [].

Fixpoint startsWith (pat s : JsString) : bool :=
  match pat, s with
  | [], _ => true
  | p :: pat', c :: s' => Ascii.eqb p c && startsWith pat' s'
  | _ :: _, [] => false
  end.

(** [s.endsWith(suffix)]: the code units of [s] from
    [s.length - suffix.length] on are those of [suffix]. *)
Definition endsWith (s suffix : JsString) : bool :=
  if (length s <? length suffix)%nat then false
  else if list_eq_dec Ascii.ascii_dec (skipn (length s - length suffix) s) suffix
       then true else false.

(** [s.replace(pat, by)] for a string pattern: the first occurrence only. *)
Fixpoint replace (pat by_ s : JsString) : JsString :=
  match s with
  | [] => if startsWith pat [] then by_ else []
  | c :: rest =>
      if startsWith pat s then by_ ++ skipn (length pat) s
      else c :: replace pat by_ rest
  end.

(** [a.href.split('/').pop()]. *)
Definition fileOf (href : JsString) : JsString := pop (split slash href).

(** [.map(a => a.href.split('/').pop()).filter(f => f.endsWith('.mp3'))]. *)
Definition levelFiles (hrefs : list JsString) : list JsString :=
  filter (fun f => endsWith f mp3) (map fileOf hrefs).

(** [mp3.replace('.mp3', '')], the name before decoding. *)
Definition stem (file : JsString) : JsString := replace mp3 [] file.

Definition sampleHrefs : list JsString :=
  map list_ascii_of_string
    ["http://localhost:8080/levels/"%string;
     "http://localhost:8080/levels/My%20Song.mp3"%string;
     "http://localhost:8080/levels/notes.txt"%string].

End Levels.
(** ** Proofs *)

(** *** Comparisons *)

Lemma Qlt_bool_iff (x y : Q) : Qlt_bool x y = true <-> x < y.
Proof.
  unfold Qlt_bool. rewrite negb_true_iff. split; intro H.
  - apply Qnot_le_lt. intro L. apply Qle_bool_iff in L. congruence.
  - destruct (Qle_bool y x) eqn:E; [|reflexivity].
    apply Qle_bool_iff in E. exfalso. apply (Qlt_not_le _ _ H E).
Qed.

Lemma Qlt_bool_false (x y : Q) : Qlt_bool x y = false <-> y <= x.
Proof.
  unfold Qlt_bool. rewrite negb_false_iff. apply Qle_bool_iff.
Qed.

(** *** [while] loops *)

Lemma while_more_fuel {St : Type} (cond : St -> bool) (body : St -> St) (fuel : nat) :
  forall (s r : St) (extra : nat),
    while fuel cond body s = Some r -> while (fuel + extra) cond body s = Some r.
Proof.
  induction fuel as [|fuel IH]; intros s r extra H; [discriminate|].
  cbn [while Nat.add] in *. destruct (cond s); [now apply IH | exact H].
Qed.

Lemma while_sound {St : Type} (cond : St -> bool) (body : St -> St) (fuel : nat) :
  forall s r : St, while fuel cond body s = Some r -> while_eval cond body s r.
Proof.
  induction fuel as [|fuel IH]; intros s r H; [discriminate|].
  cbn [while] in H. destruct (cond s) eqn:E.
  - apply while_step; [exact E | now apply IH].
  - injection H as <-. now apply while_done.
Qed.

Lemma while_complete {St : Type} (cond : St -> bool) (body : St -> St) (s r : St) :
  while_eval cond body s r -> exists fuel, while fuel cond body s = Some r.
Proof.
  induction 1 as [s E | s s' E _ [fuel IH]].
  - exists 1%nat. cbn. now rewrite E.
  - exists (S fuel). cbn. now rewrite E.
Qed.

(** A loop whose test stays true on a set of states closed under the body
    never stops from a state of the set. *)
Lemma while_stuck {St : Type} (cond : St -> bool) (body : St -> St) (inv : St -> Prop) :
  (forall s, inv s -> cond s = true /\ inv (body s)) ->
  forall (fuel : nat) (s : St), inv s -> while fuel cond body s = None.
Proof.
  intros Hinv. induction fuel as [|fuel IH]; intros s Hs; [reflexivity|].
  cbn [while]. destruct (Hinv s Hs) as [-> Hb]. now apply IH.
Qed.

(** *** Tempo estimation *)

(** The doubling loop keeps a beat period that is zero or negative. *)
Lemma doubling_stuck (fuel : nat) (e : Q) :
  e <= 0 -> while fuel tooFast (fun e => e * 2) e = None.
Proof.
  apply (while_stuck tooFast (fun e => e * 2) (fun e => e <= 0)).
  intros s Hs. split; [|lra].
  unfold tooFast. apply andb_true_iff. split; apply Qlt_bool_iff.
  - unfold maxBPM. apply Qle_lt_trans with (1 := Hs). reflexivity.
  - lra.
Qed.

Lemma octaveCorrect_stuck (fuel : nat) (e : Q) : e <= 0 -> octaveCorrect fuel e = None.
Proof.
  intro He. unfold octaveCorrect.
  assert (E1 : Qlt_bool (60 / minBPM) e = false).
  { apply Qlt_bool_false. apply Qle_trans with (1 := He). discriminate. }
  assert (E2 : Qlt_bool e (60 / maxBPM) = true).
  { apply Qlt_bool_iff. apply Qle_lt_trans with (1 := He). reflexivity. }
  rewrite E1, E2. now apply doubling_stuck.
Qed.

(** Without a positive dominant interval the stage returns nothing. *)
Lemma estimateBeatDuration_stuck (fuel : nat) (detectedOnsets : list Onset.t) :
  dominantIoi (interOnsetIntervals detectedOnsets) <= 0 ->
  estimateBeatDuration fuel detectedOnsets = None.
Proof.
  intro H. unfold estimateBeatDuration. now rewrite octaveCorrect_stuck.
Qed.

(** A single interval (two onsets) leaves the histogram empty: the bin width
    is 0 and the dominant interval stays 0. *)
Lemma dominantIoi_single (x : Q) : dominantIoi [x] = 0.
Proof.
  unfold dominantIoi, minOf, maxOf. cbn [fold_left].
  unfold histogramAdd.
  replace (Qlt_bool 0 ((x - x) / inject_Z (Z.of_nat ioiHistogramBins))) with false.
  - rewrite andb_false_r. reflexivity.
  - symmetry. apply Qlt_bool_false.
    setoid_replace ((x - x) / inject_Z (Z.of_nat ioiHistogramBins)) with 0;
      [apply Qle_refl|].
    unfold Qdiv. ring.
Qed.

(** So the stage returns nothing for two onsets either. *)
Lemma estimateBeatDuration_two_onsets (fuel : nat) (a b : Onset.t) :
  estimateBeatDuration fuel [a; b] = None.
Proof.
  apply estimateBeatDuration_stuck. cbn [interOnsetIntervals ioiLoop].
  rewrite dominantIoi_single. apply Qle_refl.
Qed.

(** [2 ^ n] as a rational. *)
Lemma pow2_succ (n : nat) :
  inject_Z (2 ^ Z.of_nat (S n)) == 2 * inject_Z (2 ^ Z.of_nat n).
Proof.
  rewrite Nat2Z.inj_succ, Z.pow_succ_r by lia. now rewrite inject_Z_mult.
Qed.

(** The halving loop stops from every beat period. *)
Lemma halving_stops (n : nat) :
  forall e, e <= inject_Z (2 ^ Z.of_nat n) ->
    exists fuel r, while fuel tooSlow (fun e => e / 2) e = Some r.
Proof.
  induction n as [|n IH]; intros e He.
  - exists 1%nat, e. cbn [while]. replace (tooSlow e) with false; [reflexivity|].
    symmetry. unfold tooSlow. apply andb_false_iff. left. apply Qlt_bool_false.
    cbn in He. unfold minBPM. apply Qle_trans with (1 := He). discriminate.
  - destruct (tooSlow e) eqn:E.
    + destruct (IH (e / 2)) as (fuel & r & Hr).
      { rewrite pow2_succ in He. apply Qle_shift_div_r; lra. }
      exists (S fuel), r. cbn [while]. now rewrite E.
    + exists 1%nat, e. cbn [while]. now rewrite E.
Qed.

(** The doubling loop stops from every positive beat period. *)
Lemma doubling_stops (n : nat) :
  forall e, 1 <= e * inject_Z (2 ^ Z.of_nat n) ->
    exists fuel r, while fuel tooFast (fun e => e * 2) e = Some r.
Proof.
  induction n as [|n IH]; intros e He.
  - exists 1%nat, e. cbn [while]. replace (tooFast e) with false; [reflexivity|].
    symmetry. unfold tooFast. apply andb_false_iff. left. apply Qlt_bool_false.
    cbn in He. rewrite Qmult_1_r in He. unfold maxBPM.
    apply Qle_trans with (2 := He). discriminate.
  - destruct (tooFast e) eqn:E.
    + destruct (IH (e * 2)) as (fuel & r & Hr).
      { rewrite pow2_succ in He. lra. }
      exists (S fuel), r. cbn [while]. now rewrite E.
    + exists 1%nat, e. cbn [while]. now rewrite E.
Qed.

Lemma below_power_of_two (e : Q) : exists n, e <= inject_Z (2 ^ Z.of_nat n).
Proof.
  exists (Z.to_nat (Qceiling e)).
  apply Qle_trans with (inject_Z (Qceiling e)); [apply Qle_ceiling|].
  rewrite <- Zle_Qle.
  destruct (Z.le_gt_cases (Qceiling e) 0) as [H | H].
  - apply Z.le_trans with 0%Z; [exact H | apply Z.pow_nonneg; lia].
  - rewrite Z2Nat.id by lia. apply Z.lt_le_incl, Z.pow_gt_lin_r; lia.
Qed.

Lemma above_inverse_power_of_two (e : Q) :
  0 < e -> exists n, 1 <= e * inject_Z (2 ^ Z.of_nat n).
Proof.
  intro He. destruct e as [p q]. exists (Pos.to_nat q).
  assert (Hp : (0 < p)%Z).
  { unfold Qlt in He. cbn in He. lia. }
  unfold Qle, Qmult, inject_Z. cbn [Qnum Qden].
  rewrite positive_nat_Z, Pos.mul_1_r, Z.mul_1_r, Z.mul_1_l.
  assert (Hq : (Z.pos q < 2 ^ Z.pos q)%Z) by (apply Z.pow_gt_lin_r; lia).
  nia.
Qed.

(** With a positive dominant interval the octave correction returns. *)
Lemma octaveCorrect_returns (e : Q) :
  0 < e -> exists fuel r, octaveCorrect fuel e = Some r.
Proof.
  intro He. unfold octaveCorrect.
  destruct (Qlt_bool (60 / minBPM) e).
  - destruct (below_power_of_two e) as [n Hn]. now apply halving_stops with n.
  - destruct (Qlt_bool e (60 / maxBPM)).
    + destruct (above_inverse_power_of_two e He) as [n Hn]. now apply doubling_stops with n.
    + now exists O, e.
Qed.

(** The tempo stage returns exactly when the dominant interval is positive. *)
Lemma estimateBeatDuration_returns_iff (detectedOnsets : list Onset.t) :
  (exists fuel beat, estimateBeatDuration fuel detectedOnsets = Some beat)
  <-> 0 < dominantIoi (interOnsetIntervals detectedOnsets).
Proof.
  split.
  - intros (fuel & beat & H).
    destruct (Qlt_le_dec 0 (dominantIoi (interOnsetIntervals detectedOnsets))) as [Hp | Hn];
      [exact Hp|].
    rewrite estimateBeatDuration_stuck in H by exact Hn. discriminate.
  - intro Hp. destruct (octaveCorrect_returns _ Hp) as (fuel & r & Hr).
    exists fuel, (fallback r). unfold estimateBeatDuration. now rewrite Hr.
Qed.

(** A returned beat period lies between 0.1 s and 2 s. *)
Lemma fallback_in_range (e : Q) : 0.1 <= fallback e <= 2.
Proof.
  unfold fallback, isNaN. rewrite orb_false_r.
  destruct (Qeq_bool e 0); cbn [orb]; [split; discriminate|].
  destruct (Qlt_bool e 0.1) eqn:E1; cbn [orb]; [split; discriminate|].
  destruct (Qlt_bool 2 e) eqn:E2; [split; discriminate|].
  apply Qlt_bool_false in E1, E2. now split.
Qed.

Lemma estimateBeatDuration_in_range (fuel : nat) (detectedOnsets : list Onset.t) (beat : Q) :
  estimateBeatDuration fuel detectedOnsets = Some beat -> 0.1 <= beat <= 2.
Proof.
  unfold estimateBeatDuration. destruct (octaveCorrect fuel _); [|discriminate].
  intros [= <-]. apply fallback_in_range.
Qed.

(** C1: with no onset or a single onset there is no inter-onset interval,
    the dominant interval stays 0, and the doubling loop of the octave
    correction never leaves 0: the stage returns no beat period, whatever the
    fuel, although the fallback applied to 0 is the default 0.5. *)
Theorem estimateBeatDuration_never_returns_below_two_onsets :
  forall (fuel : nat) (o : Onset.t),
    dominantIoi (interOnsetIntervals []) = 0 /\
    dominantIoi (interOnsetIntervals [o]) = 0 /\
    estimateBeatDuration fuel [] = None /\
    estimateBeatDuration fuel [o] = None /\
    (forall r, ~ while_eval tooFast (fun e => e * 2) 0 r) /\
    fallback 0 = 0.5.
Proof.
  intros fuel o.
  assert (H0 : forall f, octaveCorrect f 0 = None).
  { intro f. apply octaveCorrect_stuck. apply Qle_refl. }
  repeat split; try reflexivity.
  - unfold estimateBeatDuration. cbn [interOnsetIntervals dominantIoi]. now rewrite H0.
  - unfold estimateBeatDuration. cbn [interOnsetIntervals ioiLoop dominantIoi]. now rewrite H0.
  - intros r Hr. apply while_complete in Hr as [f Hf].
    rewrite doubling_stuck in Hf; [discriminate | apply Qle_refl].
Qed.

(** *** Smoothing *)

Lemma smoothOffsets_eq : smoothOffsets = [-1; 0; 1; 2]%Z.
Proof. reflexivity. Qed.

Lemma smoothOdf_length (odf : list Q) : length (smoothOdf odf) = length odf.
Proof. unfold smoothOdf. now rewrite length_map, length_seq. Qed.

Lemma smooth_fold (odf : list Q) (i : Z) (offsets : list Z) :
  forall acc : Q * nat,
    let r := fold_left (smoothStep odf i) offsets acc in
    let w := valuesAt odf (map (Z.add i) offsets) in
    fst r == fst acc + total w /\ snd r = (snd acc + length w)%nat.
Proof.
  induction offsets as [|j offsets IH]; intro acc; cbv zeta.
  - cbn. split; [ring | lia].
  - cbn [fold_left map valuesAt flat_map]. fold (valuesAt odf (map (Z.add i) offsets)).
    destruct (IH (smoothStep odf i acc j)) as [Hs Hc]. rewrite Hs, Hc.
    unfold smoothStep. destruct (at_index odf (i + j)) as [v|]; cbn [fst snd app length].
    + unfold total at 2. cbn [fold_right]. fold (total (valuesAt odf (map (Z.add i) offsets))).
      split; [ring | lia].
    + split; [reflexivity | lia].
Qed.

(** What the code computes at index [i]: the mean over the indices
    [i - 1], [i], [i + 1], [i + 2] that are in range. *)
Lemma smoothAt_mean_of_four (odf : list Q) (i : nat) :
  smoothAt odf i
  == meanOf (valuesAt odf [Z.of_nat i - 1; Z.of_nat i; Z.of_nat i + 1; Z.of_nat i + 2]%Z).
Proof.
  unfold smoothAt, meanOf, Qlen.
  pose proof (smooth_fold odf (Z.of_nat i) smoothOffsets (0, O)) as H. cbv zeta in H.
  destruct (fold_left _ smoothOffsets (0, O)) as [sum count].
  cbn [fst snd] in H. destruct H as [Hs ->]. rewrite Hs, Qplus_0_l.
  rewrite smoothOffsets_eq. cbn [map Nat.add].
  replace (Z.of_nat i + -1)%Z with (Z.of_nat i - 1)%Z by lia.
  replace (Z.of_nat i + 0)%Z with (Z.of_nat i) by lia.
  reflexivity.
Qed.

Lemma nth_smoothOdf (odf : list Q) (i : nat) :
  (i < length odf)%nat -> nth i (smoothOdf odf) 0 = smoothAt odf i.
Proof.
  intro Hi. unfold smoothOdf.
  rewrite (nth_indep _ 0 (smoothAt odf 0)) by now rewrite length_map, length_seq.
  rewrite map_nth, seq_nth by exact Hi. reflexivity.
Qed.

(** C5: the smoothed curve has the length of the raw curve, but the value at
    index [i] is the mean over the in-range indices among [i - 1], [i],
    [i + 1] and [i + 2], four offsets and not three: on the onset curve
    [0; 0; 0.6] the code's value at index 0 is 0.2, while the centred mean of
    width 3 is 0. *)
Theorem smoothOdf_window_reaches_two_ahead :
  (forall odf, length (smoothOdf odf) = length odf) /\
  (forall odf i, (i < length odf)%nat ->
     nth i (smoothOdf odf) 0
     == meanOf (valuesAt odf [Z.of_nat i - 1; Z.of_nat i; Z.of_nat i + 1; Z.of_nat i + 2]%Z)) /\
  onsetCurve [0; 0; 0.6] = [0; 0; 0.6] /\
  nth 0 (smoothOdf [0; 0; 0.6]) 0 == 0.2 /\
  centeredMean3 [0; 0; 0.6] 0 == 0.
Proof.
  split; [apply smoothOdf_length|]. split.
  - intros odf i Hi. rewrite nth_smoothOdf by exact Hi. apply smoothAt_mean_of_four.
  - repeat split; reflexivity.
Qed.

(** *** Quantization *)

(** [Math.round] returns an integer nearest to its argument. *)
Lemma Math_round_nearest (x : Q) (m : Z) :
  Qabs (x - inject_Z (Math_round x)) <= Qabs (x - inject_Z m).
Proof.
  unfold Math_round. set (r := Qfloor (x + 0.5)).
  assert (Hlo : inject_Z r <= x + 0.5) by apply Qfloor_le.
  assert (Hhi : x + 0.5 < inject_Z (r + 1)) by apply Qlt_floor.
  rewrite inject_Z_plus in Hhi. change (inject_Z 1) with 1 in Hhi.
  assert (Hr : Qabs (x - inject_Z r) <= 0.5).
  { apply Qabs_Qle_condition. split; lra. }
  destruct (Z.lt_trichotomy m r) as [Hm | [-> | Hm]].
  - assert (Hq : inject_Z m + 1 <= inject_Z r).
    { assert (Hz : (m + 1 <= r)%Z) by lia. rewrite Zle_Qle in Hz.
      rewrite inject_Z_plus in Hz. change (inject_Z 1) with 1 in Hz. exact Hz. }
    apply Qle_trans with (1 := Hr). apply Qle_trans with (x - inject_Z m); [lra|].
    apply Qle_Qabs.
  - apply Qle_refl.
  - assert (Hq : inject_Z r + 1 <= inject_Z m).
    { assert (Hz : (r + 1 <= m)%Z) by lia. rewrite Zle_Qle in Hz.
      rewrite inject_Z_plus in Hz. change (inject_Z 1) with 1 in Hz. exact Hz. }
    apply Qle_trans with (1 := Hr). apply Qle_trans with (- (x - inject_Z m)); [lra|].
    rewrite <- Qabs_opp. apply Qle_Qabs.
Qed.

(** The distance from [t] to a grid point, in grid steps. *)
Lemma grid_distance (t start u : Q) (k : Z) :
  ~ u == 0 ->
  Qabs (t - (inject_Z k * u + start)) == Qabs u * Qabs ((t - start) / u - inject_Z k).
Proof.
  intro Hu. rewrite <- Qabs_Qmult. apply Qabs_wd. field. exact Hu.
Qed.

(** In one subdivision, the rounded grid point is a nearest one. *)
Lemma nearestGridPoint_nearest (t start u : Q) (k : Z) :
  ~ u == 0 ->
  Qabs (t - (inject_Z (Math_round ((t - start) / u)) * u + start))
  <= Qabs (t - (inject_Z k * u + start)).
Proof.
  intro Hu. rewrite !grid_distance by exact Hu.
  rewrite !(Qmult_comm (Qabs u)).
  apply Qmult_le_compat_r; [apply Math_round_nearest | apply Qabs_nonneg].
Qed.

Lemma snapStep_snapped (beat start : Q) (onset : Onset.t) (seen : list Q)
    (acc : Q * option Q) (s : Q) :
  snapped beat start (Onset.time onset) seen acc ->
  snapped beat start (Onset.time onset) (seen ++ [s]) (snapStep beat start onset acc s).
Proof.
  intro H. unfold snapStep. set (t := Onset.time onset) in *.
  destruct (Qeq_bool (beat * s) 0) eqn:Ez.
  - apply Qeq_bool_iff in Ez. unfold snapped in *. destruct (snd acc) as [m|].
    + destruct H as (Hm & (s0 & k0 & Hin & Hnz & Hg) & Hmin). split; [exact Hm|]. split.
      * exists s0, k0. split; [apply in_or_app; now left | now split].
      * intros s' k Hs' Hnz'. apply in_app_or in Hs' as [Hs' | [<- | []]];
          [now apply Hmin | contradiction].
    + destruct H as (Hf & Hall). split; [exact Hf|].
      intros s' Hs'. apply in_app_or in Hs' as [Hs' | [<- | []]]; [now apply Hall | exact Ez].
  - assert (Hnz : ~ beat * s == 0).
    { intro E. apply Qeq_bool_iff in E. congruence. }
    set (g := inject_Z (Math_round ((t - start) / (beat * s))) * (beat * s) + start).
    assert (Hnear : forall k, Qabs (t - g) <= Qabs (t - (start + inject_Z k * (beat * s)))).
    { intro k. unfold g.
      setoid_replace (start + inject_Z k * (beat * s))
        with (inject_Z k * (beat * s) + start) by ring.
      now apply nearestGridPoint_nearest. }
    assert (Hgrid : g == start + inject_Z (Math_round ((t - start) / (beat * s))) * (beat * s)).
    { unfold g. ring. }
    unfold Math_abs, snapped in *. destruct (snd acc) as [m|] eqn:Em; cbn [belowDiff].
    + destruct H as (Hm & (s0 & k0 & Hin & Hnz0 & Hg) & Hmin).
      destruct (Qlt_bool (Qabs (t - g)) m) eqn:Elt; cbn [fst snd]; rewrite ?Em.
      * apply Qlt_bool_iff in Elt. split; [reflexivity|]. split.
        -- exists s, (Math_round ((t - start) / (beat * s))).
           split; [apply in_or_app; right; now left | now split].
        -- intros s' k Hs' Hnz'. apply in_app_or in Hs' as [Hs' | [<- | []]].
           ++ apply Qle_trans with (Qabs (t - fst acc)); [lra | now apply Hmin].
           ++ apply Hnear.
      * apply Qlt_bool_false in Elt. split; [exact Hm|]. split.
        -- exists s0, k0. split; [apply in_or_app; now left | now split].
        -- intros s' k Hs' Hnz'. apply in_app_or in Hs' as [Hs' | [<- | []]].
           ++ now apply Hmin.
           ++ apply Qle_trans with (Qabs (t - g)); [lra | apply Hnear].
    + cbn [fst snd]. split; [reflexivity|]. split.
      * exists s, (Math_round ((t - start) / (beat * s))).
        split; [apply in_or_app; right; now left | now split].
      * destruct H as (_ & Hall).
        intros s' k Hs' Hnz'. apply in_app_or in Hs' as [Hs' | [<- | []]].
        -- exfalso. apply Hnz'. now apply Hall.
        -- apply Hnear.
Qed.

Lemma snap_fold_snapped (beat start : Q) (onset : Onset.t) (grid : list Q) :
  forall (seen : list Q) (acc : Q * option Q),
    snapped beat start (Onset.time onset) seen acc ->
    snapped beat start (Onset.time onset) (seen ++ grid)
      (fold_left (snapStep beat start onset) grid acc).
Proof.
  induction grid as [|s grid IH]; intros seen acc H; cbn [fold_left].
  - now rewrite app_nil_r.
  - replace (seen ++ s :: grid) with ((seen ++ [s]) ++ grid)
      by (rewrite <- app_assoc; reflexivity).
    apply IH. now apply snapStep_snapped.
Qed.

(** C7: for every candidate of a non-empty candidate list, the quantized
    onset keeps strength and salience, and its time is [g] clamped at 0,
    where [g] is a grid point of a subdivision with non-zero step, counted
    from the first candidate's time, and no grid point of any subdivision of
    the grid with non-zero step is nearer to the candidate's time; when every
    step is zero, [g] is the candidate's own time. *)
Theorem quantize_nearest_grid_point (grid : list Q) (beat : Q)
    (detectedOnsets : list Onset.t) (first c : Onset.t) (i : nat) :
  nth_error detectedOnsets 0 = Some first ->
  nth_error detectedOnsets i = Some c ->
  exists (q : Onset.t) (g : Q),
    nth_error (quantize grid beat detectedOnsets) i = Some q /\
    Onset.originalRms q = Onset.originalRms c /\
    Onset.odfValue q = Onset.odfValue c /\
    (0 < g -> Onset.time q = g) /\
    (g <= 0 -> Onset.time q = 0) /\
    ((forall s, In s grid -> beat * s == 0) -> g = Onset.time c) /\
    ((exists s, In s grid /\ ~ beat * s == 0) ->
     (exists s k, In s grid /\ ~ beat * s == 0 /\
                  g == Onset.time first + inject_Z k * (beat * s)) /\
     (forall s k, In s grid -> ~ beat * s == 0 ->
        Qabs (Onset.time c - g)
        <= Qabs (Onset.time c - (Onset.time first + inject_Z k * (beat * s))))).
Proof.
  intros Hfirst Hc.
  assert (Hstart : startTimeOf detectedOnsets = Onset.time first).
  { destruct detectedOnsets; [discriminate|]. cbn in Hfirst. now injection Hfirst as ->. }
  exists (quantizeOnset grid beat (startTimeOf detectedOnsets) c),
         (bestQuantizedTime grid beat (startTimeOf detectedOnsets) c).
  split. { unfold quantize. now rewrite nth_error_map, Hc. }
  split; [reflexivity|]. split; [reflexivity|].
  rewrite Hstart. cbn [quantizeOnset Onset.time]. unfold Math_max.
  split. { intro Hg. apply Qlt_bool_iff in Hg. now rewrite Hg. }
  split. { intro Hg. apply Qlt_bool_false in Hg. now rewrite Hg. }
  pose proof (snap_fold_snapped beat (Onset.time first) c grid [] (Onset.time c, None)) as H.
  cbn [app] in H. unfold bestQuantizedTime.
  set (acc := fold_left _ grid _) in *.
  assert (H0 : snapped beat (Onset.time first) (Onset.time c) [] (Onset.time c, None)).
  { split; [reflexivity | intros s []]. }
  specialize (H H0). unfold snapped in H. destruct (snd acc) as [m|].
  - destruct H as (_ & (s0 & k0 & Hin & Hnz & Hg) & Hmin). split.
    + intro Hall. exfalso. apply Hnz. now apply Hall.
    + intros _. split; [now exists s0, k0 | exact Hmin].
  - destruct H as (Hf & Hall). split.
    + intros _. exact Hf.
    + intros (s & Hs & Hnz). exfalso. apply Hnz. now apply Hall.
Qed.

(** For a beat period the tempo stage can return, no subdivision of a
    difficulty's grid is skipped. *)
Lemma quantizationGrid_steps_nonzero (d : Difficulty) (beat s : Q) :
  0.1 <= beat -> In s (quantizationGrid d) -> ~ beat * s == 0.
Proof.
  intros Hb Hs He.
  assert (Hpos : 0 < s).
  { destruct d; cbn in Hs; intuition (subst; reflexivity). }
  assert (0 < beat * s) by (apply Qmult_lt_0_compat; lra).
  lra.
Qed.

(** *** Key assignment *)

Lemma nextStrongKey_strong (k : string) : isStrongLane (nextStrongKey k) = true.
Proof. unfold nextStrongKey. now destruct (String.eqb k "ArrowUp"). Qed.

Lemma nextWeakKey_weak (k : string) : isWeakLane (nextWeakKey k) = true.
Proof. unfold nextWeakKey. now destruct (String.eqb k "ArrowLeft"). Qed.

Lemma nextStrongKey_not_weak (k : string) : isWeakLane (nextStrongKey k) = false.
Proof. unfold nextStrongKey. now destruct (String.eqb k "ArrowUp"). Qed.

Lemma nextWeakKey_not_strong (k : string) : isStrongLane (nextWeakKey k) = false.
Proof. unfold nextWeakKey. now destruct (String.eqb k "ArrowLeft"). Qed.



Lemma isStrongLane_in (k : string) : isStrongLane k = true <-> In k strongLanes.
Proof.
  unfold isStrongLane, strongLanes. rewrite orb_true_iff, !String.eqb_eq. cbn.
  intuition congruence.
Qed.

Lemma isWeakLane_in (k : string) : isWeakLane k = true <-> In k weakLanes.
Proof.
  unfold isWeakLane, weakLanes. rewrite orb_true_iff, !String.eqb_eq. cbn.
  intuition congruence.
Qed.

Lemma assignLoop_length (threshold : Q) (quantizedNotes : list Onset.t) :
  forall lastStrongKey lastWeakKey,
    length (assignLoop threshold lastStrongKey lastWeakKey quantizedNotes)
    = length quantizedNotes.
Proof.
  induction quantizedNotes as [|q qs IH]; intros ls lw; [reflexivity|].
  cbn [assignLoop]. destruct (isStrong threshold q); cbn [length]; now rewrite IH.
Qed.

(** The note at each position has the time of the onset at that position
    and a lane of the pair of the onset's class. *)
Lemma assignLoop_nth (threshold : Q) (quantizedNotes : list Onset.t) :
  forall lastStrongKey lastWeakKey (i : nat) (q : Onset.t),
    nth_error quantizedNotes i = Some q ->
    exists n,
      nth_error (assignLoop threshold lastStrongKey lastWeakKey quantizedNotes) i = Some n /\
      Note.time n = Onset.time q /\
      (if isStrong threshold q then isStrongLane (Note.key n) else isWeakLane (Note.key n))
      = true.
Proof.
  induction quantizedNotes as [|q0 qs IH]; intros ls lw i q Hq.
  - destruct i; discriminate.
  - cbn [assignLoop]. destruct i as [|i].
    + cbn in Hq. injection Hq as <-.
      destruct (isStrong threshold q0) eqn:E; eexists; cbn; rewrite ?E;
        (split; [reflexivity | split; [reflexivity|]]).
      * apply nextStrongKey_strong.
      * apply nextWeakKey_weak.
    + cbn in Hq. destruct (isStrong threshold q0); cbn [nth_error]; now apply IH.
Qed.




(** The first onset of a class gets the flip of that class's tracker. *)
Lemma assignLoop_first_of_class (threshold : Q) (quantizedNotes : list Onset.t) :
  forall lastStrongKey lastWeakKey (i : nat) (q : Onset.t),
    nth_error quantizedNotes i = Some q ->
    (forall j qj, (j < i)%nat -> nth_error quantizedNotes j = Some qj ->
       isStrong threshold qj = negb (isStrong threshold q)) ->
    nth_error (assignLoop threshold lastStrongKey lastWeakKey quantizedNotes) i
    = Some (Note.mk (Onset.time q)
              (if isStrong threshold q then nextStrongKey lastStrongKey
               else nextWeakKey lastWeakKey)).
Proof.
  induction quantizedNotes as [|q0 qs IH]; intros ls lw i q Hq Hfirst.
  - destruct i; discriminate.
  - cbn [assignLoop]. destruct i as [|i].
    + cbn in Hq. injection Hq as <-. now destruct (isStrong threshold q0).
    + cbn in Hq.
      assert (H0 : isStrong threshold q0 = negb (isStrong threshold q)).
      { apply (Hfirst 0%nat); [lia | reflexivity]. }
      assert (Hrest : forall j qj, (j < i)%nat -> nth_error qs j = Some qj ->
                isStrong threshold qj = negb (isStrong threshold q)).
      { intros j qj Hj Hqj. apply (Hfirst (S j)); [lia | exact Hqj]. }
      destruct (isStrong threshold q0) eqn:E0; cbn [nth_error];
        rewrite (IH _ _ i q Hq Hrest);
        destruct (isStrong threshold q); (discriminate || reflexivity).
Qed.

(** C10: in the output of the lane assignment, the first onset classified
    strong carries 'ArrowDown' and the first onset classified weak carries
    'ArrowRight'. *)
Theorem first_strong_ArrowDown_first_weak_ArrowRight
    (quantizedNotes : list Onset.t) (i : nat) (q : Onset.t) :
  nth_error quantizedNotes i = Some q ->
  (forall j qj, (j < i)%nat -> nth_error quantizedNotes j = Some qj ->
     isStrong (strongRmsThreshold quantizedNotes) qj
     = negb (isStrong (strongRmsThreshold quantizedNotes) q)) ->
  nth_error (assignKeys quantizedNotes) i
  = Some (Note.mk (Onset.time q)
            (if isStrong (strongRmsThreshold quantizedNotes) q
             then "ArrowDown" else "ArrowRight")).
Proof.
  intros Hq Hfirst. unfold assignKeys.
  rewrite (assignLoop_first_of_class _ _ _ _ i q Hq Hfirst).
  reflexivity.
Qed.

(** *** Sorting, the note map and the filters keep notes of their input *)

Lemma insertBy_In {A} (t : A -> Q) (x a : A) (l : list A) :
  In x (insertBy t a l) <-> x = a \/ In x l.
Proof.
  induction l as [|y l IH]; cbn [insertBy].
  - cbn. intuition congruence.
  - destruct (Qle_bool (t a) (t y)); cbn [In] in *; rewrite ?IH; intuition congruence.
Qed.

Lemma sortBy_In {A} (t : A -> Q) (x : A) (l : list A) : In x (sortBy t l) <-> In x l.
Proof.
  unfold sortBy. induction l as [|a l IH]; cbn [fold_right]; [reflexivity|].
  rewrite insertBy_In, IH. cbn. intuition congruence.
Qed.

Lemma mapSet_In (m : NoteMap) (k : Z) (v : Note.t) (kv : Z * Note.t) :
  In kv (mapSet m k v) -> In kv m \/ kv = (k, v).
Proof.
  induction m as [|[k' v'] m IH]; cbn [mapSet].
  - cbn. intuition.
  - destruct (Z.eqb_spec k' k) as [->|_]; cbn [In]; intuition.
Qed.

Lemma dedupStep_In (quantizedNotes : list Onset.t) (m : NoteMap) (note : Note.t)
    (kv : Z * Note.t) :
  In kv (dedupStep quantizedNotes m note) -> In kv m \/ snd kv = note.
Proof.
  unfold dedupStep.
  destruct (mapGet m _);
    repeat match goal with
      | |- context [match ?x with _ => _ end] => destruct x
      end;
    intro H; try (now left);
    apply mapSet_In in H as [H | ->]; auto.
Qed.

Lemma dedup_fold_In (quantizedNotes : list Onset.t) (finalNotes : list Note.t) :
  forall (m : NoteMap) (kv : Z * Note.t),
    In kv (fold_left (dedupStep quantizedNotes) finalNotes m) ->
    In kv m \/ In (snd kv) finalNotes.
Proof.
  induction finalNotes as [|n ns IH]; intros m kv H; [now left|].
  cbn [fold_left] in H. apply IH in H as [H | H]; [|right; now right].
  apply dedupStep_In in H as [H | H]; [now left | right; now left].
Qed.

Lemma dedup_In (quantizedNotes : list Onset.t) (finalNotes : list Note.t) (n : Note.t) :
  In n (dedup quantizedNotes finalNotes) -> In n finalNotes.
Proof.
  unfold dedup, mapValues. rewrite sortBy_In, in_map_iff.
  intros [kv [<- H]]. apply dedup_fold_In in H as [[] | H]. exact H.
Qed.

Lemma separationLoop_In (minSep : Q) (rest : list Note.t) :
  forall (last n : Note.t), In n (separationLoop minSep last rest) -> In n rest.
Proof.
  induction rest as [|x rest IH]; intros last n H; [exact H|].
  cbn [separationLoop] in H. destruct (Qle_bool _ _).
  - destruct H as [-> | H]; [now left | right; now apply IH with x].
  - right. now apply IH with last.
Qed.

Lemma enforceSeparation_In (minSep : Q) (filteredNotes : list Note.t) (n : Note.t) :
  In n (enforceSeparation minSep filteredNotes) -> In n filteredNotes.
Proof.
  destruct filteredNotes as [|first rest]; [easy|].
  cbn [enforceSeparation]. intros [-> | H]; [now left | right].
  now apply separationLoop_In with minSep first.
Qed.

Lemma chartNotes_In (d : Difficulty) (beat : Q) (detectedOnsets : list Onset.t) (n : Note.t) :
  In n (chartNotes d beat detectedOnsets) ->
  In n (assignKeys (quantize (quantizationGrid d) beat detectedOnsets)).
Proof.
  unfold chartNotes. intro H.
  apply enforceSeparation_In in H. now apply dedup_In in H.
Qed.

Lemma assignKeys_lane (quantizedNotes : list Onset.t) (n : Note.t) :
  In n (assignKeys quantizedNotes) -> In (Note.key n) lanes.
Proof.
  intro H. apply In_nth_error in H as [i Hi].
  assert (Hlt : (i < length quantizedNotes)%nat).
  { unfold assignKeys in Hi. rewrite <- (assignLoop_length (strongRmsThreshold quantizedNotes)
      quantizedNotes "ArrowUp" "ArrowLeft"). apply nth_error_Some. congruence. }
  destruct (nth_error quantizedNotes i) as [q|] eqn:Hq;
    [|apply nth_error_None in Hq; lia].
  destruct (assignLoop_nth (strongRmsThreshold quantizedNotes) quantizedNotes
              "ArrowUp" "ArrowLeft" i q Hq) as (n' & Hn' & _ & Hlane).
  unfold assignKeys in Hi. rewrite Hi in Hn'. injection Hn' as <-.
  unfold lanes. apply in_or_app.
  destruct (isStrong _ q); [left; now apply isStrongLane_in | right; now apply isWeakLane_in].
Qed.

(** *** The separation filter *)




Section Level.
Context {host : Host}.

Lemma generateLevel_chart (fuel : nat) (audioBuffer : AudioBuffer) (d : Difficulty)
    (notes : list Note.t) :
  generateLevel fuel audioBuffer d = Some notes ->
  exists beat,
    estimateBeatDuration fuel
      (detectOnsets d (sampleRate audioBuffer) (rmsEnvelope (channelData0 audioBuffer)))
      = Some beat /\
    notes = chartNotes d beat
      (detectOnsets d (sampleRate audioBuffer) (rmsEnvelope (channelData0 audioBuffer))).
Proof.
  unfold generateLevel, notesFromOnsets.
  destruct (estimateBeatDuration _ _) as [beat|]; [|discriminate].
  intros [= <-]. now exists beat.
Qed.



(** *** Peak picking *)

Lemma fold_left_total (f : Q -> Q) (l : list Q) :
  forall x, fold_left (fun a b => a + f b) l x == x + total (map f l).
Proof.
  induction l as [|v l IH]; intro x; cbn [fold_left map total fold_right].
  - ring.
  - rewrite IH. unfold total. ring.
Qed.

Lemma peakLoop_filter (sr threshold : Q) (rms smoothedOdf : list Q) (n : nat) :
  forall i,
    peakLoop n sr threshold rms smoothedOdf i
    = map (onsetAt sr rms smoothedOdf) (filter (isPeak threshold smoothedOdf) (seq i n)).
Proof.
  induction n as [|n IH]; intro i; [reflexivity|].
  cbn [peakLoop seq filter]. destruct (isPeak threshold smoothedOdf i); cbn [map];
    now rewrite IH.
Qed.

Lemma isPeak_iff (threshold : Q) (smoothedOdf : list Q) (i : nat) :
  isPeak threshold smoothedOdf i = true <->
  threshold < nth i smoothedOdf 0 /\
  nth (i - 1) smoothedOdf 0 < nth i smoothedOdf 0 /\
  nth (i + 1) smoothedOdf 0 < nth i smoothedOdf 0.
Proof.
  unfold isPeak. rewrite !andb_true_iff, !Qlt_bool_iff. tauto.
Qed.



(** *** Curves on which nothing stands out *)

Lemma findIndexFrom_none (p : Q -> bool) (l : list Q) :
  (forall v, In v l -> p v = false) -> forall i, findIndexFrom p l i = None.
Proof.
  induction l as [|v l IH]; intros H i; [reflexivity|].
  cbn [findIndexFrom]. rewrite (H v) by now left.
  apply IH. intros w Hw. apply H. now right.
Qed.

Lemma filter_positive_all (l : list Q) :
  (forall v, In v l -> 0 < v) -> filter (fun v => Qlt_bool 0 v) l = l.
Proof.
  induction l as [|v l IH]; intro H; [reflexivity|].
  cbn [filter]. replace (Qlt_bool 0 v) with true.
  - f_equal. apply IH. intros w Hw. apply H. now right.
  - symmetry. apply Qlt_bool_iff. apply H. now left.
Qed.

Lemma filter_positive_none (l : list Q) :
  (forall v, In v l -> v <= 0) -> filter (fun v => Qlt_bool 0 v) l = [].
Proof.
  induction l as [|v l IH]; intro H; [reflexivity|].
  cbn [filter]. replace (Qlt_bool 0 v) with false.
  - apply IH. intros w Hw. apply H. now right.
  - symmetry. apply Qlt_bool_false. apply H. now left.
Qed.

Lemma total_constant (l : list Q) (h : Q) :
  (forall v, In v l -> v == h) -> total l == Qlen l * h.
Proof.
  unfold Qlen. induction l as [|v l IH]; intro H.
  - cbn. ring.
  - unfold total. cbn [fold_right length]. fold (total l).
    rewrite IH by (intros w Hw; apply H; now right).
    rewrite (H v) by now left.
    rewrite Nat2Z.inj_succ. unfold Z.succ. rewrite inject_Z_plus. ring.
Qed.

Lemma Qlen_pos {A} (l : list A) : l <> [] -> 0 < Qlen l.
Proof.
  intro H. unfold Qlen. destruct l as [|a l]; [congruence|].
  change 0 with (inject_Z 0). rewrite <- Zlt_Qlt. cbn [length]. lia.
Qed.

(** With no positive value, mean and deviation are the literal 0. *)
Lemma statistics_without_positive (smoothedOdf : list Q) :
  (forall v, In v smoothedOdf -> v <= 0) ->
  meanOdf smoothedOdf = 0 /\ stdOdf smoothedOdf = 0.
Proof.
  intro H. unfold stdOdf, meanOdf, odfValuesForThreshold.
  rewrite (filter_positive_none _ H). now cbn.
Qed.

Lemma stdOdf_nonneg (smoothedOdf : list Q) :
  (forall x, 0 <= Math_sqrt x) -> 0 <= stdOdf smoothedOdf.
Proof.
  intro Hsqrt. unfold stdOdf. destruct (0 <? _)%nat; [apply Hsqrt | apply Qle_refl].
Qed.

(** On a curve whose values are all equal, no value exceeds the loose
    threshold of the rescue. *)
Lemma constant_curve_not_above_mean (smoothedOdf : list Q) (h : Q) :
  (forall x, 0 <= Math_sqrt x) ->
  (forall v, In v smoothedOdf -> v == h) ->
  forall v, In v smoothedOdf -> v <= meanOdf smoothedOdf + stdOdf smoothedOdf * 0.1.
Proof.
  intros Hsqrt Hconst v Hv.
  pose proof (stdOdf_nonneg smoothedOdf Hsqrt) as Hstd.
  destruct (Qlt_le_dec 0 h) as [Hpos | Hneg].
  - assert (Hall : forall w, In w smoothedOdf -> 0 < w).
    { intros w Hw. rewrite (Hconst w Hw). exact Hpos. }
    assert (Hne : smoothedOdf <> []) by (intros ->; destruct Hv).
    assert (Hmean : meanOdf smoothedOdf == h).
    { unfold meanOdf, odfValuesForThreshold. rewrite (filter_positive_all _ Hall).
      replace (0 <? length smoothedOdf)%nat with true by now destruct smoothedOdf.
      rewrite (fold_left_total (fun b => b)), map_id, Qplus_0_l.
      rewrite (total_constant _ h Hconst).
      pose proof (Qlen_pos smoothedOdf Hne). field. lra. }
    rewrite (Hconst v Hv), Hmean. lra.
  - assert (Hall : forall w, In w smoothedOdf -> w <= 0).
    { intros w Hw. rewrite (Hconst w Hw). exact Hneg. }
    destruct (statistics_without_positive _ Hall) as [-> _].
    specialize (Hall v Hv). lra.
Qed.

Lemma no_rescue_without_strong (sr : Q) (rms smoothedOdf : list Q)
    (detectedOnsets : list Onset.t) :
  (forall v, In v smoothedOdf -> v <= meanOdf smoothedOdf + stdOdf smoothedOdf * 0.1) ->
  rescueLeading sr rms smoothedOdf detectedOnsets = detectedOnsets.
Proof.
  intro H. unfold rescueLeading, firstStrongOdfIdx.
  rewrite findIndexFrom_none; [reflexivity|].
  intros v Hv. apply Qlt_bool_false. now apply H.
Qed.

(** A curve of one or two samples is smoothed into equal values. *)
Lemma short_curve_smoothed_constant (rms : list Q) :
  (length (onsetCurve rms) < 3)%nat ->
  exists h, forall v, In v (smoothOdf (onsetCurve rms)) -> v == h.
Proof.
  destruct rms as [|a [|b [|c rest]]]; cbn [onsetCurve odfLoop length]; intro Hlen;
    try lia.
  - exists (smoothAt [0] 0). intros v [<- | []]. reflexivity.
  - exists (smoothAt [0] 0). intros v [<- | []]. reflexivity.
  - set (m := Math_max 0 (b - a)). exists (meanOf [0; m]).
    unfold smoothOdf. cbn [length seq map].
    intros v [<- | [<- | []]]; rewrite smoothAt_mean_of_four; reflexivity.
Qed.

(** C9: when the onset curve of an envelope has fewer than 3 samples, the
    onset picker, rescue and sort included, returns no candidate (for a
    square root that is never negative). *)
Theorem detectOnsets_short_curve_empty (d : Difficulty) (sr : Q) (rms : list Q) :
  (forall x, 0 <= Math_sqrt x) ->
  (length (onsetCurve rms) < 3)%nat ->
  detectOnsets d sr rms = [].
Proof.
  intros Hsqrt Hlen. unfold detectOnsets.
  destruct (short_curve_smoothed_constant rms Hlen) as [h Hconst].
  assert (Hpeaks : pickPeaks d sr rms (smoothOdf (onsetCurve rms)) = []).
  { unfold pickPeaks. rewrite smoothOdf_length.
    replace (length (onsetCurve rms) - 2)%nat with O by lia. reflexivity. }
  rewrite Hpeaks, no_rescue_without_strong; [reflexivity|].
  now apply constant_curve_not_above_mean with h.
Qed.

(** *** Silence *)

Lemma skipn_repeat {A} (a : A) (n i : nat) : skipn i (repeat a n) = repeat a (n - i).
Proof.
  revert n. induction i as [|i IH]; intro n.
  - now rewrite Nat.sub_0_r.
  - destruct n as [|n]; [reflexivity | apply IH].
Qed.

Lemma firstn_repeat {A} (a : A) (n k : nat) :
  (k <= n)%nat -> firstn k (repeat a n) = repeat a k.
Proof.
  revert n. induction k as [|k IH]; intros n H; [reflexivity|].
  destruct n as [|n]; [lia|]. cbn [repeat firstn]. f_equal. apply IH. lia.
Qed.

Lemma window_of_silence (n i : nat) :
  (i + winSize <= n)%nat -> window (repeat 0 n) i = repeat 0 winSize.
Proof.
  intro H. unfold window. rewrite skipn_repeat. apply firstn_repeat. lia.
Qed.

(** The envelope of silence repeats one value. *)
Lemma rmsLoop_of_silence (n : nat) (budget : nat) :
  forall i, exists k,
    rmsLoop budget (repeat 0 n) i
    = repeat (Math_sqrt (sumSquares (repeat 0 winSize) / inject_Z (Z.of_nat winSize))) k.
Proof.
  induction budget as [|budget IH]; intro i; [now exists O|].
  cbn [rmsLoop]. rewrite repeat_length.
  destruct (Nat.leb_spec (i + winSize) n) as [H | H]; [|now exists O].
  destruct (IH (i + hop)%nat) as [k ->]. exists (S k).
  now rewrite window_of_silence.
Qed.

Lemma odfLoop_constant (c : Q) (k : nat) : odfLoop c (repeat c k) = repeat 0 k.
Proof.
  induction k as [|k IH]; [reflexivity|].
  cbn [repeat odfLoop]. rewrite IH. f_equal.
  unfold Math_max. replace (Qlt_bool 0 (c - c)) with false; [reflexivity|].
  symmetry. apply Qlt_bool_false. lra.
Qed.

Lemma onsetCurve_constant (c : Q) (k : nat) :
  exists m, onsetCurve (repeat c k) = repeat 0 m.
Proof.
  destruct k as [|k]; [now exists 1%nat|].
  exists (S k). unfold onsetCurve. cbn [repeat]. now rewrite odfLoop_constant.
Qed.

Lemma valuesAt_In (odf : list Q) (ks : list Z) (v : Q) :
  In v (valuesAt odf ks) -> In v odf.
Proof.
  unfold valuesAt. rewrite in_flat_map. intros (k & _ & H).
  unfold at_index in H. destruct (k <? 0)%Z; [destruct H|].
  destruct (nth_error odf (Z.to_nat k)) eqn:E; [|destruct H].
  destruct H as [<- | []]. now apply nth_error_In in E.
Qed.

Lemma smoothOdf_of_zeros (m : nat) (v : Q) : In v (smoothOdf (repeat 0 m)) -> v == 0.
Proof.
  unfold smoothOdf. rewrite in_map_iff. intros (i & <- & _).
  rewrite smoothAt_mean_of_four. unfold meanOf.
  rewrite (total_constant _ 0).
  - unfold Qdiv. ring.
  - intros w Hw. apply valuesAt_In in Hw. apply repeat_spec in Hw. now rewrite Hw.
Qed.

Lemma nth_not_positive (l : list Q) (i : nat) :
  (forall v, In v l -> v <= 0) -> nth i l 0 <= 0.
Proof.
  intro H. destruct (nth_in_or_default i l 0) as [Hin | ->]; [now apply H | apply Qle_refl].
Qed.

Lemma peakLoop_none (sr threshold : Q) (rms smoothedOdf : list Q) (n : nat) :
  (forall i, isPeak threshold smoothedOdf i = false) ->
  forall i, peakLoop n sr threshold rms smoothedOdf i = [].
Proof.
  intro H. induction n as [|n IH]; intro i; [reflexivity|].
  cbn [peakLoop]. now rewrite H.
Qed.

(** A curve with no positive value yields no candidate at all. *)
Lemma no_candidates_without_positive (d : Difficulty) (sr : Q) (rms smoothedOdf : list Q) :
  (forall v, In v smoothedOdf -> v <= 0) ->
  rescueLeading sr rms smoothedOdf (pickPeaks d sr rms smoothedOdf) = [].
Proof.
  intro H. destruct (statistics_without_positive _ H) as [Hmean Hstd].
  assert (Hpeaks : pickPeaks d sr rms smoothedOdf = []).
  { unfold pickPeaks. apply peakLoop_none. intro i.
    unfold isPeak, dynamicThreshold. rewrite Hmean, Hstd.
    replace (Qlt_bool (0 + 0 * odfSensitivity d) (nth i smoothedOdf 0)) with false;
      [reflexivity|].
    symmetry. apply Qlt_bool_false.
    pose proof (nth_not_positive smoothedOdf i H). lra. }
  rewrite Hpeaks. apply no_rescue_without_strong.
  intros v Hv. rewrite Hmean, Hstd. specialize (H v Hv). lra.
Qed.

Lemma onsetCurve_length (rms : list Q) :
  length (onsetCurve rms) = Nat.max 1 (length rms).
Proof.
  destruct rms as [|r0 rest]; [reflexivity|].
  cbn [onsetCurve length]. f_equal.
  revert r0. induction rest as [|r rest IH]; intro r0; [reflexivity|].
  cbn [odfLoop length]. now rewrite IH.
Qed.

Lemma findIndexFrom_bound (p : Q -> bool) (l : list Q) :
  forall i k, findIndexFrom p l i = Some k -> (i <= k < i + length l)%nat.
Proof.
  induction l as [|v l IH]; intros i k H; [discriminate|].
  cbn [findIndexFrom length] in *. destruct (p v).
  - injection H as <-. lia.
  - apply IH in H. lia.
Qed.

(** Every candidate is the record of a frame of the envelope: the reads
    [rms[i]] and [smoothedOdf[i]] of the picker are inside their arrays. *)
Lemma detectOnsets_frames (d : Difficulty) (sr : Q) (rms : list Q) (o : Onset.t) :
  In o (detectOnsets d sr rms) ->
  exists i, (i < length rms)%nat /\
            (i < length (smoothOdf (onsetCurve rms)))%nat /\
            o = onsetAt sr rms (smoothOdf (onsetCurve rms)) i.
Proof.
  unfold detectOnsets. rewrite sortBy_In.
  set (s := smoothOdf (onsetCurve rms)).
  assert (Hlen : length s = Nat.max 1 (length rms)).
  { unfold s. now rewrite smoothOdf_length, onsetCurve_length. }
  assert (Hpeak : In o (pickPeaks d sr rms s) ->
            exists i, (i < length rms)%nat /\ (i < length s)%nat /\ o = onsetAt sr rms s i).
  { unfold pickPeaks. rewrite peakLoop_filter, in_map_iff.
    intros (i & <- & Hi). apply filter_In in Hi as [Hi _]. apply in_seq in Hi.
    exists i. repeat split; lia. }
  unfold rescueLeading. destruct (firstStrongOdfIdx s) as [idx|] eqn:E; [|exact Hpeak].
  assert (Hidx : (idx < length rms)%nat /\ (idx < length s)%nat).
  { pose proof (findIndexFrom_bound _ _ _ _ E) as Hb.
    destruct rms as [|r0 rest]; [|cbn [length] in *; lia].
    exfalso. unfold firstStrongOdfIdx in E. rewrite findIndexFrom_none in E; [discriminate|].
    intros v Hv. apply Qlt_bool_false.
    assert (Hz : forall w, In w s -> w <= 0).
    { intros w Hw. apply (smoothOdf_of_zeros 1) in Hw. lra. }
    destruct (statistics_without_positive _ Hz) as [-> ->].
    specialize (Hz v Hv). lra. }
  match goal with |- In o (if ?c then _ else _) -> _ => destruct c end; [|exact Hpeak].
  intros [<- | H]; [|now apply Hpeak].
  exists idx. tauto.
Qed.

(** C3: on a buffer of zeros the onset picker finds no candidate, and then
    [generateLevel] returns nothing, whatever the fuel: with no candidate the
    doubling loop of the tempo stage never stops. *)
Theorem silence_no_candidates_and_no_return (n : nat) (sr : Q) (d : Difficulty)
    (fuel : nat) :
  detectOnsets d sr (rmsEnvelope (repeat 0 n)) = [] /\
  generateLevel fuel {| channelData0 := repeat 0 n; sampleRate := sr |} d = None.
Proof.
  assert (Hdetect : detectOnsets d sr (rmsEnvelope (repeat 0 n)) = []).
  { unfold detectOnsets, rmsEnvelope.
    destruct (rmsLoop_of_silence n (length (repeat 0 n)) 0) as [k ->].
    destruct (onsetCurve_constant
                (Math_sqrt (sumSquares (repeat 0 winSize) / inject_Z (Z.of_nat winSize))) k)
      as [m ->].
    rewrite no_candidates_without_positive; [reflexivity|].
    intros v Hv. apply smoothOdf_of_zeros in Hv. lra. }
  split; [exact Hdetect|].
  unfold generateLevel, notesFromOnsets. cbn [channelData0 sampleRate].
  rewrite Hdetect, estimateBeatDuration_stuck; [reflexivity | apply Qle_refl].
Qed.

End Level.

(** *** The sample host and the sample buffer *)

Lemma sqrtLower_nonneg (x : Q) : 0 <= sqrtLower x.
Proof.
  unfold sqrtLower, Qdiv. apply Qmult_le_0_compat.
  - change 0 with (inject_Z 0). rewrite <- Zle_Qle. apply Z.sqrt_nonneg.
  - apply Qinv_le_0_compat. change 0 with (inject_Z 0). rewrite <- Zle_Qle. lia.
Qed.

Lemma sampleOnsets_detected :
  @detectOnsets sampleHost easy (sampleRate sampleBuffer)
    (@rmsEnvelope sampleHost (channelData0 sampleBuffer)) = sampleOnsets.
Proof. vm_compute. reflexivity. Qed.

Lemma sampleBeat_estimated : estimateBeatDuration 10 sampleOnsets = Some sampleBeat.
Proof. vm_compute. reflexivity. Qed.

Lemma sampleNotes_returned :
  @generateLevel sampleHost 10 sampleBuffer easy = Some sampleNotes.
Proof.
  unfold generateLevel, notesFromOnsets.
  rewrite sampleOnsets_detected, sampleBeat_estimated. vm_compute. reflexivity.
Qed.


Lemma collisionOnsets_detected :
  @detectOnsets sampleHost easy (sampleRate collisionBuffer)
    (@rmsEnvelope sampleHost (channelData0 collisionBuffer)) = collisionOnsets.
Proof. vm_compute. reflexivity. Qed.

Lemma collisionBeat_estimated : estimateBeatDuration 10 collisionOnsets = Some collisionBeat.
Proof. vm_compute. reflexivity. Qed.

Lemma collisionNotes_returned :
  @generateLevel sampleHost 10 collisionBuffer easy = Some collisionNotes.
Proof.
  unfold generateLevel, notesFromOnsets.
  rewrite collisionOnsets_detected, collisionBeat_estimated. vm_compute. reflexivity.
Qed.


(** The second of two candidates 0.3 s apart on the easy grid at 120 BPM. *)
Lemma quantize_nearest_grid_point_sample :
  exists (q : Onset.t) (g : Q),
    nth_error (quantize (quantizationGrid easy) 0.5 [Onset.mk 0.1 1 1; Onset.mk 0.4 2 3]) 1
    = Some q /\
    Onset.originalRms q = 2 /\
    Onset.odfValue q = 3 /\
    (0 < g -> Onset.time q = g) /\
    (g <= 0 -> Onset.time q = 0) /\
    ((forall s, In s (quantizationGrid easy) -> 0.5 * s == 0) -> g = 0.4) /\
    ((exists s, In s (quantizationGrid easy) /\ ~ 0.5 * s == 0) ->
     (exists s k, In s (quantizationGrid easy) /\ ~ 0.5 * s == 0 /\
                  g == 0.1 + inject_Z k * (0.5 * s)) /\
     (forall s k, In s (quantizationGrid easy) -> ~ 0.5 * s == 0 ->
        Qabs (0.4 - g) <= Qabs (0.4 - (0.1 + inject_Z k * (0.5 * s))))).
Proof.
  exact (quantize_nearest_grid_point (quantizationGrid easy) 0.5
           [Onset.mk 0.1 1 1; Onset.mk 0.4 2 3] (Onset.mk 0.1 1 1) (Onset.mk 0.4 2 3) 1
           eq_refl eq_refl).
Defined.



(** An envelope of two frames under the sample host. *)
Lemma detectOnsets_short_curve_sample :
  @detectOnsets sampleHost medium 44100 [0.2; 0.7] = [].
Proof.
  apply (@detectOnsets_short_curve_empty sampleHost medium 44100 [0.2; 0.7]).
  - exact sqrtLower_nonneg.
  - cbn. lia.
Defined.

(** In [sampleQuantized] the threshold is 0.3: the first strong onset is the
    second one. *)
Lemma first_strong_ArrowDown_sample :
  nth_error (assignKeys sampleQuantized) 1 = Some (Note.mk 0.5 "ArrowDown").
Proof.
  apply (first_strong_ArrowDown_first_weak_ArrowRight sampleQuantized 1
           (Onset.mk 0.5 0.9 1) eq_refl).
  intros j qj Hj. destruct j as [|j]; [|lia].
  cbn [nth_error sampleQuantized]. intros [= <-]. reflexivity.
Defined.

(** *** Deduplication *)

(** Two quantized onsets with the same time: both lookups of the "original"
    onset return the first of them, so the second never replaces the first. *)
Lemma dedup_same_time (t r1 r2 s1 s2 : Q) (k1 k2 : string) :
  dedup [Onset.mk t r1 s1; Onset.mk t r2 s2] [Note.mk t k1; Note.mk t k2]
  = [Note.mk t k1].
Proof.
  unfold dedup. cbn [fold_left]. unfold dedupStep at 2. cbn [mapGet mapSet Note.time].
  unfold dedupStep. cbn [mapGet Note.time]. rewrite Z.eqb_refl.
  unfold findOriginal. cbn [find Onset.time Note.time].
  rewrite Z.eqb_refl, Qeq_bool_refl. cbn [andb Onset.odfValue].
  replace (Qlt_bool s1 s1) with false
    by (symmetry; apply Qlt_bool_false; apply Qle_refl).
  reflexivity.
Qed.

(** C4: of two quantized onsets with the same time the deduplication keeps
    the note inserted first, whatever the saliences.  On the collision buffer
    the first two onsets (saliences 1/8 and 1/4) are quantized to the same
    time; they get 'ArrowDown' and 'ArrowUp'; the returned chart has the
    'ArrowDown' note of the onset with the lower salience at that
    millisecond. *)
Theorem dedup_keeps_first_inserted_whatever_salience :
  (forall (t r1 r2 s1 s2 : Q) (k1 k2 : string),
     dedup [Onset.mk t r1 s1; Onset.mk t r2 s2] [Note.mk t k1; Note.mk t k2]
     = [Note.mk t k1]) /\
  (let quantizedNotes := quantize (quantizationGrid easy) collisionBeat collisionOnsets in
   let finalNotes := assignKeys quantizedNotes in
   @detectOnsets sampleHost easy (sampleRate collisionBuffer)
     (@rmsEnvelope sampleHost (channelData0 collisionBuffer)) = collisionOnsets /\
   estimateBeatDuration 10 collisionOnsets = Some collisionBeat /\
   map (fun o => Qred (Onset.time o)) collisionOnsets
   = [512 # 11025; 512 # 3675; 2048 # 3675; 11776 # 11025] /\
   map (fun q => Qred (Onset.time q)) quantizedNotes
   = [512 # 11025; 512 # 11025; 173312 # 275625; 18688 # 18375] /\
   map (fun q => Qred (Onset.odfValue q)) quantizedNotes = [1 # 8; 1 # 4; 1 # 8; 1 # 8] /\
   map (fun q => timeKeyOf (Onset.time q)) quantizedNotes = [46; 46; 629; 1017]%Z /\
   map Note.key finalNotes = ["ArrowDown"; "ArrowUp"; "ArrowDown"; "ArrowUp"]%string /\
   map (fun n => (timeKeyOf (Note.time n), Note.key n)) (dedup quantizedNotes finalNotes)
   = [(46, "ArrowDown"); (629, "ArrowDown"); (1017, "ArrowUp")]%Z%string /\
   @generateLevel sampleHost 10 collisionBuffer easy = Some collisionNotes /\
   map (fun n => (timeKeyOf (Note.time n), Note.key n)) collisionNotes
   = [(46, "ArrowDown"); (629, "ArrowDown"); (1017, "ArrowUp")]%Z%string).
Proof.
  split; [exact dedup_same_time|]. cbv zeta.
  split; [exact collisionOnsets_detected|].
  split; [exact collisionBeat_estimated|].
  do 6 (split; [vm_compute; reflexivity|]).
  split; [exact collisionNotes_returned | vm_compute; reflexivity].
Qed.

(** ** Further properties of the pipeline *)

(** *** The sort *)

Lemma insertBy_Permutation {A} (t : A -> Q) (x : A) (l : list A) :
  Permutation (insertBy t x l) (x :: l).
Proof.
  induction l as [|y l IH]; cbn [insertBy]; [reflexivity|].
  destruct (Qle_bool (t x) (t y)); [reflexivity|].
  rewrite IH. apply perm_swap.
Qed.

Lemma sortBy_Permutation {A} (t : A -> Q) (l : list A) : Permutation (sortBy t l) l.
Proof.
  unfold sortBy. induction l as [|a l IH]; cbn [fold_right]; [reflexivity|].
  rewrite insertBy_Permutation. now apply perm_skip.
Qed.

Lemma insertBy_sorted {A} (t : A -> Q) (x : A) (l : list A) :
  StronglySorted (fun a b => t a <= t b) l ->
  StronglySorted (fun a b => t a <= t b) (insertBy t x l).
Proof.
  induction l as [|y l IH]; intro H; cbn [insertBy].
  - constructor; constructor.
  - inversion H as [|? ? Hl Hy]; subst.
    destruct (Qle_bool (t x) (t y)) eqn:E.
    + apply Qle_bool_iff in E. constructor; [exact H|].
      constructor; [exact E|].
      apply Forall_forall. intros z Hz.
      apply Qle_trans with (t y); [exact E|].
      revert z Hz. now apply Forall_forall.
    + assert (Hyx : t y <= t x).
      { apply Qlt_le_weak. apply Qnot_le_lt. intro Hle.
        apply Qle_bool_iff in Hle. congruence. }
      constructor; [now apply IH|].
      apply Forall_forall. intros z Hz. apply insertBy_In in Hz as [-> | Hz]; [exact Hyx|].
      revert z Hz. now apply Forall_forall.
Qed.

(** The sort returns its input in ascending order of the key. *)
Lemma sortBy_sorted {A} (t : A -> Q) (l : list A) :
  StronglySorted (fun a b => t a <= t b) (sortBy t l).
Proof.
  unfold sortBy. induction l as [|a l IH]; cbn [fold_right]; [constructor|].
  now apply insertBy_sorted.
Qed.

(** A list that is already in order is left as it is. *)
Lemma sortBy_of_sorted {A} (t : A -> Q) (l : list A) :
  StronglySorted (fun a b => t a <= t b) l -> sortBy t l = l.
Proof.
  unfold sortBy. induction 1 as [|a l Hl IH Ha]; cbn [fold_right]; [reflexivity|].
  rewrite IH. destruct l as [|y l]; [reflexivity|].
  cbn [insertBy]. inversion Ha as [|? ? Hy _]; subst.
  apply Qle_bool_iff in Hy. now rewrite Hy.
Qed.

Lemma sortBy_length {A} (t : A -> Q) (l : list A) : length (sortBy t l) = length l.
Proof. apply Permutation_length, sortBy_Permutation. Qed.

Lemma StronglySorted_seq (a n : nat) : StronglySorted lt (seq a n).
Proof.
  revert a. induction n as [|n IH]; intro a; cbn [seq]; constructor; [apply IH|].
  apply Forall_forall. intros x Hx. apply in_seq in Hx. lia.
Qed.

Lemma StronglySorted_filter_keeps {A} (R : A -> A -> Prop) (p : A -> bool) (l : list A) :
  StronglySorted R l -> StronglySorted R (filter p l).
Proof.
  induction 1 as [|a l Hl IH Ha]; cbn [filter]; [constructor|].
  destruct (p a); [|exact IH]. constructor; [exact IH|].
  apply Forall_forall. intros x Hx. apply filter_In in Hx as [Hx _].
  revert x Hx. now apply Forall_forall.
Qed.

Lemma StronglySorted_map_mono {A B} (R : A -> A -> Prop) (R' : B -> B -> Prop)
    (f : A -> B) (l : list A) :
  (forall a b, R a b -> R' (f a) (f b)) ->
  StronglySorted R l -> StronglySorted R' (map f l).
Proof.
  intro Hf. induction 1 as [|a l Hl IH Ha]; cbn [map]; constructor; [exact IH|].
  apply Forall_forall. intros y Hy. apply in_map_iff in Hy as (x & <- & Hx).
  apply Hf. revert x Hx. now apply Forall_forall.
Qed.

Lemma StronglySorted_weaken {A} (R R' : A -> A -> Prop) (l : list A) :
  (forall a b, R a b -> R' a b) -> StronglySorted R l -> StronglySorted R' l.
Proof.
  intros HR H. rewrite <- (map_id l). now apply StronglySorted_map_mono with R.
Qed.

(** *** Candidates in time order *)

Lemma hop_pos : (0 < hop)%nat.
Proof. unfold hop, winSize. apply Nat.div_str_pos. lia. Qed.

Lemma frameTime_increasing (sr : Q) (i j : nat) :
  0 < sr -> (i < j)%nat -> frameTime sr i < frameTime sr j.
Proof.
  intros Hsr Hij. unfold frameTime, Qdiv.
  apply Qmult_lt_compat_r; [now apply Qinv_lt_0_compat|].
  rewrite <- Zlt_Qlt. pose proof hop_pos. nia.
Qed.

Section Candidates.
Context {host : Host}.

Lemma pickPeaks_ascending (d : Difficulty) (sr : Q) (rms smoothedOdf : list Q) :
  0 < sr -> StronglySorted earlier (pickPeaks d sr rms smoothedOdf).
Proof.
  intro Hsr. unfold pickPeaks. rewrite peakLoop_filter.
  apply StronglySorted_map_mono with lt.
  - intros i j Hij. unfold earlier, onsetAt. cbn [Onset.time].
    now apply frameTime_increasing.
  - apply StronglySorted_filter_keeps, StronglySorted_seq.
Qed.

Lemma rescueLeading_ascending (sr : Q) (rms smoothedOdf : list Q)
    (detectedOnsets : list Onset.t) :
  StronglySorted earlier detectedOnsets ->
  StronglySorted earlier (rescueLeading sr rms smoothedOdf detectedOnsets).
Proof.
  intro H. unfold rescueLeading.
  destruct (firstStrongOdfIdx smoothedOdf) as [idx|]; [|exact H].
  destruct detectedOnsets as [|first rest]; [constructor; constructor|].
  destruct (Qlt_bool (frameTime sr idx + 0.1) (Onset.time first)) eqn:E; [|exact H].
  apply Qlt_bool_iff in E.
  assert (Hfirst : earlier (onsetAt sr rms smoothedOdf idx) first).
  { unfold earlier, onsetAt. cbn [Onset.time]. lra. }
  constructor; [exact H|]. constructor; [exact Hfirst|].
  inversion H as [|? ? _ Hrest]; subst.
  apply Forall_forall. intros z Hz. unfold earlier in *.
  apply Qlt_trans with (Onset.time first); [exact Hfirst|].
  revert z Hz. now apply Forall_forall.
Qed.

(** X4: for a positive sample rate the candidates leave the picker with
    strictly increasing times, and the final sort changes nothing: the
    rescued onset, when there is one, is earlier than every peak. *)
Theorem detectOnsets_strictly_ascending (d : Difficulty) (sr : Q) (rms : list Q) :
  0 < sr ->
  StronglySorted earlier (detectOnsets d sr rms) /\
  detectOnsets d sr rms
  = rescueLeading sr rms (smoothOdf (onsetCurve rms))
      (pickPeaks d sr rms (smoothOdf (onsetCurve rms))).
Proof.
  intro Hsr.
  assert (H : StronglySorted earlier
                (rescueLeading sr rms (smoothOdf (onsetCurve rms))
                   (pickPeaks d sr rms (smoothOdf (onsetCurve rms))))).
  { apply rescueLeading_ascending. now apply pickPeaks_ascending. }
  assert (E : detectOnsets d sr rms
              = rescueLeading sr rms (smoothOdf (onsetCurve rms))
                  (pickPeaks d sr rms (smoothOdf (onsetCurve rms)))).
  { unfold detectOnsets. apply sortBy_of_sorted.
    apply StronglySorted_weaken with earlier; [|exact H].
    intros a b Hab. now apply Qlt_le_weak. }
  rewrite E. now split.
Qed.

End Candidates.

(** An envelope with one attack at 44.1 kHz. *)
Lemma detectOnsets_strictly_ascending_sample :
  StronglySorted earlier
    (@detectOnsets sampleHost easy 44100 [0; 0; 0; 0.5; 0.5; 0; 0.5; 0.5; 0; 0; 0]) /\
  @detectOnsets sampleHost easy 44100 [0; 0; 0; 0.5; 0.5; 0; 0.5; 0.5; 0; 0; 0]
  = @rescueLeading sampleHost 44100 [0; 0; 0; 0.5; 0.5; 0; 0.5; 0.5; 0; 0; 0]
      (smoothOdf (onsetCurve [0; 0; 0; 0.5; 0.5; 0; 0.5; 0.5; 0; 0; 0]))
      (@pickPeaks sampleHost easy 44100 [0; 0; 0; 0.5; 0.5; 0; 0.5; 0.5; 0; 0; 0]
         (smoothOdf (onsetCurve [0; 0; 0; 0.5; 0.5; 0; 0.5; 0.5; 0; 0; 0]))).
Proof.
  exact (@detectOnsets_strictly_ascending sampleHost easy 44100
           [0; 0; 0; 0.5; 0.5; 0; 0.5; 0.5; 0; 0; 0] eq_refl).
Defined.

(** *** The envelope *)

Lemma winSize_pos : (0 < winSize)%nat.
Proof. unfold winSize. lia. Qed.

Lemma window_length (raw : list Q) (i : nat) :
  (i + winSize <= length raw)%nat -> length (window raw i) = winSize.
Proof.
  intro H. unfold window. rewrite length_firstn, length_skipn. lia.
Qed.

Section Envelope.
Context {host : Host}.

Lemma rmsLoop_nth (raw : list Q) (n : nat) :
  forall i k, (k < n)%nat -> (i + k * hop + winSize <= length raw)%nat ->
    nth_error (rmsLoop n raw i) k
    = Some (Math_sqrt (sumSquares (window raw (i + k * hop))
                       / inject_Z (Z.of_nat winSize))).
Proof.
  induction n as [|n IH]; intros i k Hk Hfit; [lia|].
  cbn [rmsLoop].
  replace (i + winSize <=? length raw)%nat with true by (symmetry; apply Nat.leb_le; lia).
  destruct k as [|k]; cbn [nth_error].
  - now rewrite Nat.mul_0_l, Nat.add_0_r.
  - rewrite Nat.mul_succ_l in Hfit. rewrite IH by lia.
    rewrite Nat.mul_succ_l.
    now replace (i + hop + k * hop)%nat with (i + (k * hop + hop))%nat by lia.
Qed.

Lemma rmsLoop_length (raw : list Q) (n : nat) :
  forall i,
    ((if (i + winSize <=? length raw)%nat
      then (length raw - winSize - i) / hop + 1 else 0) <= n)%nat ->
    length (rmsLoop n raw i)
    = if (i + winSize <=? length raw)%nat
      then ((length raw - winSize - i) / hop + 1)%nat else O.
Proof.
  pose proof hop_pos as Hh.
  induction n as [|n IH]; intros i Hn.
  - cbn [rmsLoop length]. destruct (i + winSize <=? length raw)%nat; [lia | reflexivity].
  - cbn [rmsLoop]. destruct (Nat.leb_spec (i + winSize) (length raw)) as [Hfit | Hno];
      [|reflexivity].
    cbn [length].
    destruct (Nat.leb_spec (i + hop + winSize) (length raw)) as [Hnext | Hlast].
    + assert (E : ((length raw - winSize - i) / hop
                   = (length raw - winSize - (i + hop)) / hop + 1)%nat).
      { replace (length raw - winSize - i)%nat
          with (length raw - winSize - (i + hop) + 1 * hop)%nat by lia.
        apply Nat.div_add. lia. }
      rewrite IH.
      * replace (i + hop + winSize <=? length raw)%nat with true
          by (symmetry; apply Nat.leb_le; lia).
        lia.
      * replace (i + hop + winSize <=? length raw)%nat with true
          by (symmetry; apply Nat.leb_le; lia).
        lia.
    + rewrite IH.
      * replace (i + hop + winSize <=? length raw)%nat with false
          by (symmetry; apply Nat.leb_gt; lia).
        rewrite Nat.div_small by lia. reflexivity.
      * replace (i + hop + winSize <=? length raw)%nat with false
          by (symmetry; apply Nat.leb_gt; lia).
        lia.
Qed.

Lemma rmsEnvelope_length (raw : list Q) :
  length (rmsEnvelope raw)
  = if (winSize <=? length raw)%nat then ((length raw - winSize) / hop + 1)%nat else O.
Proof.
  pose proof hop_pos as Hh. pose proof winSize_pos as Hw.
  unfold rmsEnvelope. rewrite rmsLoop_length; cbn [Nat.add]; rewrite ?Nat.sub_0_r;
    [reflexivity|].
  destruct (Nat.leb_spec winSize (length raw)) as [Hfit | Hno]; [|lia].
  assert ((length raw - winSize) / hop <= length raw - winSize)%nat.
  { apply Nat.Div0.div_le_upper_bound. nia. }
  lia.
Qed.

(** X1: the envelope is empty when the buffer is shorter than a window, and
    otherwise has [(length - winSize) / hop + 1] frames (integer division);
    frame [k] is the square root of the mean square of the [winSize] samples
    from index [k * hop] on. *)
Theorem rmsEnvelope_frames (raw : list Q) :
  length (rmsEnvelope raw)
  = (if (winSize <=? length raw)%nat then ((length raw - winSize) / hop + 1)%nat else O) /\
  forall k, (k < length (rmsEnvelope raw))%nat ->
    nth_error (rmsEnvelope raw) k = Some (frameRms raw k) /\
    window raw (k * hop) = firstn winSize (skipn (k * hop) raw) /\
    length (window raw (k * hop)) = winSize.
Proof.
  pose proof hop_pos as Hh.
  split; [apply rmsEnvelope_length|].
  intros k Hk. rewrite rmsEnvelope_length in Hk.
  destruct (Nat.leb_spec winSize (length raw)) as [Hfit | Hno]; [|lia].
  assert (Hin : (k * hop + winSize <= length raw)%nat).
  { assert (Hq : (k <= (length raw - winSize) / hop)%nat) by lia.
    assert (Hm : (hop * ((length raw - winSize) / hop) <= length raw - winSize)%nat)
      by (apply Nat.Div0.mul_div_le).
    nia. }
  split; [|split; [reflexivity | now apply window_length]].
  unfold rmsEnvelope, frameRms.
  assert (Hlt : (k < length raw)%nat).
  { pose proof winSize_pos. nia. }
  now rewrite rmsLoop_nth by (cbn [Nat.add]; lia).
Qed.

(** X2: a buffer shorter than one window (the empty buffer included) has an
    empty envelope and no candidate, and [generateLevel] returns nothing for
    it, whatever the fuel. *)
Theorem short_buffer_never_returns (raw : list Q) (sr : Q) (d : Difficulty) (fuel : nat) :
  (length raw < winSize)%nat ->
  rmsEnvelope raw = [] /\
  detectOnsets d sr (rmsEnvelope raw) = [] /\
  generateLevel fuel {| channelData0 := raw; sampleRate := sr |} d = None.
Proof.
  intro Hshort.
  assert (Henv : rmsEnvelope raw = []).
  { apply length_zero_iff_nil. rewrite rmsEnvelope_length.
    now replace (winSize <=? length raw)%nat with false
      by (symmetry; apply Nat.leb_gt; lia). }
  assert (Hdet : detectOnsets d sr (rmsEnvelope raw) = []).
  { rewrite Henv. unfold detectOnsets.
    rewrite no_candidates_without_positive; [reflexivity|].
    intros v Hv. apply (smoothOdf_of_zeros 1) in Hv. lra. }
  split; [exact Henv|]. split; [exact Hdet|].
  unfold generateLevel, notesFromOnsets. cbn [channelData0 sampleRate].
  rewrite Hdet, estimateBeatDuration_stuck; [reflexivity | apply Qle_refl].
Qed.

End Envelope.

(** Three samples at 44.1 kHz. *)
Lemma short_buffer_never_returns_sample :
  @rmsEnvelope sampleHost [0.5; -0.25; 1] = [] /\
  @detectOnsets sampleHost medium 44100 (@rmsEnvelope sampleHost [0.5; -0.25; 1]) = [] /\
  @generateLevel sampleHost 100
    {| channelData0 := [0.5; -0.25; 1]; sampleRate := 44100 |} medium = None.
Proof.
  apply (@short_buffer_never_returns sampleHost [0.5; -0.25; 1] 44100 medium 100).
  unfold winSize. cbn [length]. lia.
Defined.

(** *** The onset curve and its smoothing *)

Lemma odfLoop_nonneg (rest : list Q) :
  forall prev v, In v (odfLoop prev rest) -> 0 <= v.
Proof.
  induction rest as [|r rest IH]; intros prev v H; [destruct H|].
  cbn [odfLoop] in H. destruct H as [<- | H]; [|now apply IH with r].
  unfold Math_max. destruct (Qlt_bool 0 (r - prev)) eqn:E; [|apply Qle_refl].
  apply Qlt_bool_iff in E. lra.
Qed.

Lemma onsetCurve_nonneg (rms : list Q) (v : Q) : In v (onsetCurve rms) -> 0 <= v.
Proof.
  unfold onsetCurve. intros [<- | H]; [apply Qle_refl|].
  destruct rms as [|r0 rest]; [destruct H|]. now apply odfLoop_nonneg with rest r0.
Qed.

Lemma total_bounds (w : list Q) (lo hi : Q) :
  (forall v, In v w -> lo <= v <= hi) ->
  Qlen w * lo <= total w <= Qlen w * hi.
Proof.
  unfold Qlen. induction w as [|v w IH]; intro H.
  - unfold total. cbn [fold_right length]. change (inject_Z (Z.of_nat 0)) with 0.
    split; lra.
  - unfold total. cbn [fold_right length]. fold (total w).
    destruct IH as [IHlo IHhi]; [intros u Hu; apply H; now right|].
    destruct (H v) as [Hlo Hhi]; [now left|].
    rewrite Nat2Z.inj_succ. unfold Z.succ. rewrite inject_Z_plus.
    change (inject_Z 1) with 1. split; lra.
Qed.

Lemma valuesAt_own_index (odf : list Q) (i : nat) (before : Z) (after : list Z) :
  (i < length odf)%nat ->
  valuesAt odf (before :: Z.of_nat i :: after) <> [].
Proof.
  intro Hi. unfold valuesAt. cbn [flat_map].
  assert (E : exists v, at_index odf (Z.of_nat i) = Some v).
  { unfold at_index. replace (Z.of_nat i <? 0)%Z with false by (symmetry; apply Z.ltb_ge; lia).
    rewrite Nat2Z.id. destruct (nth_error odf i) eqn:En; [now eexists|].
    apply nth_error_None in En. lia. }
  destruct E as [v ->]. destruct (at_index odf before); cbn; discriminate.
Qed.

(** X3: the onset curve has one value per envelope frame (one value for an
    empty envelope) and no negative value; the smoothed curve has the same
    length, and each of its values lies between 0 and any bound of the raw
    curve. *)
Theorem onset_curves_bounded (rms : list Q) :
  length (onsetCurve rms) = Nat.max 1 (length rms) /\
  length (smoothOdf (onsetCurve rms)) = length (onsetCurve rms) /\
  (forall v, In v (onsetCurve rms) -> 0 <= v) /\
  (forall M, (forall v, In v (onsetCurve rms) -> v <= M) ->
     forall v, In v (smoothOdf (onsetCurve rms)) -> 0 <= v <= M).
Proof.
  split; [apply onsetCurve_length|]. split; [apply smoothOdf_length|].
  split; [apply onsetCurve_nonneg|].
  intros M HM v Hv. unfold smoothOdf in Hv. apply in_map_iff in Hv as (i & <- & Hi).
  apply in_seq in Hi. rewrite smoothAt_mean_of_four. unfold meanOf.
  set (w := valuesAt (onsetCurve rms) _).
  assert (Hw : forall u, In u w -> 0 <= u <= M).
  { intros u Hu. apply valuesAt_In in Hu. split; [now apply onsetCurve_nonneg with rms|].
    now apply HM. }
  assert (Hlen : 0 < Qlen w).
  { apply Qlen_pos. apply valuesAt_own_index. lia. }
  destruct (total_bounds w 0 M Hw) as [Hlo Hhi].
  split.
  - apply Qle_shift_div_l; [exact Hlen | lra].
  - apply Qle_shift_div_r; [exact Hlen | lra].
Qed.

(** *** The tempo stage *)

Lemma while_invariant {St : Type} (cond : St -> bool) (body : St -> St) (inv : St -> Prop) :
  (forall s, inv s -> cond s = true -> inv (body s)) ->
  forall (fuel : nat) (s r : St),
    inv s -> while fuel cond body s = Some r -> inv r /\ cond r = false.
Proof.
  intros Hstep. induction fuel as [|fuel IH]; intros s r Hs H; [discriminate|].
  cbn [while] in H. destruct (cond s) eqn:E.
  - apply (IH (body s)); [now apply Hstep | exact H].
  - injection H as <-. now split.
Qed.

(** A returned octave correction lies in the tempo band and is the
    dominant interval times or divided by a power of two. *)
Lemma octaveCorrect_in_band (fuel : nat) (e r : Q) :
  octaveCorrect fuel e = Some r ->
  60 / maxBPM <= r <= 60 / minBPM /\
  exists n : nat, r * inject_Z (2 ^ Z.of_nat n) == e \/ r == e * inject_Z (2 ^ Z.of_nat n).
Proof.
  unfold octaveCorrect.
  assert (Hmin : 60 / minBPM == 1) by reflexivity.
  assert (Hmax : 60 / maxBPM == 0.3) by reflexivity.
  destruct (Qlt_bool (60 / minBPM) e) eqn:E1.
  - apply Qlt_bool_iff in E1. intro H.
    apply (while_invariant tooSlow (fun e => e / 2)
             (fun x => 0.5 < x /\ exists n : nat, x * inject_Z (2 ^ Z.of_nat n) == e))
      in H.
    + destruct H as [[Hr Hn] Hc]. split; [|destruct Hn as [n Hn]; exists n; now left].
      unfold tooSlow in Hc. apply andb_false_iff in Hc.
      destruct Hc as [Hc | Hc]; apply Qlt_bool_false in Hc; lra.
    + intros x [Hx [n Hn]] Hc. unfold tooSlow in Hc. apply andb_true_iff in Hc as [Hc _].
      apply Qlt_bool_iff in Hc. split.
      * apply Qlt_shift_div_l; lra.
      * exists (S n). rewrite pow2_succ, <- Hn. field.
    + split; [lra|]. exists O. cbn. ring.
  - apply Qlt_bool_false in E1. destruct (Qlt_bool e (60 / maxBPM)) eqn:E2.
    + apply Qlt_bool_iff in E2. intro H.
      apply (while_invariant tooFast (fun e => e * 2)
               (fun x => x < 0.6 /\ exists n : nat, x == e * inject_Z (2 ^ Z.of_nat n)))
        in H.
      * destruct H as [[Hr Hn] Hc]. split; [|destruct Hn as [n Hn]; exists n; now right].
        unfold tooFast in Hc. apply andb_false_iff in Hc.
        destruct Hc as [Hc | Hc]; apply Qlt_bool_false in Hc; lra.
      * intros x [Hx [n Hn]] Hc. unfold tooFast in Hc. apply andb_true_iff in Hc as [Hc _].
        apply Qlt_bool_iff in Hc. split; [lra|].
        exists (S n). rewrite pow2_succ, Hn. ring.
      * split; [lra|]. exists O. cbn. ring.
    + apply Qlt_bool_false in E2. intros [= <-]. split; [lra|].
      exists O. left. cbn. ring.
Qed.

Lemma fallback_keeps_band (r : Q) : 60 / maxBPM <= r <= 60 / minBPM -> fallback r = r.
Proof.
  assert (Hmin : 60 / minBPM == 1) by reflexivity.
  assert (Hmax : 60 / maxBPM == 0.3) by reflexivity.
  intros [Hlo Hhi]. unfold fallback, isNaN.
  replace (Qeq_bool r 0) with false.
  - replace (Qlt_bool r 0.1) with false by (symmetry; apply Qlt_bool_false; lra).
    replace (Qlt_bool 2 r) with false by (symmetry; apply Qlt_bool_false; lra).
    reflexivity.
  - symmetry. apply not_true_is_false. intro E. apply Qeq_bool_iff in E. lra.
Qed.

(** X5: every beat period the tempo stage returns lies in the band of 60 to
    200 BPM (between [60 / maxBPM] = 0.3 s and [60 / minBPM] = 1 s), it is
    the dominant interval multiplied or divided by a power of two, and the
    fallback test leaves it as it is: no returned period is the fallback's
    default. *)
Theorem returned_beat_in_tempo_band (fuel : nat) (detectedOnsets : list Onset.t) (beat : Q) :
  estimateBeatDuration fuel detectedOnsets = Some beat ->
  60 / maxBPM <= beat <= 60 / minBPM /\
  octaveCorrect fuel (dominantIoi (interOnsetIntervals detectedOnsets)) = Some beat /\
  exists n : nat,
    beat * inject_Z (2 ^ Z.of_nat n) == dominantIoi (interOnsetIntervals detectedOnsets) \/
    beat == dominantIoi (interOnsetIntervals detectedOnsets) * inject_Z (2 ^ Z.of_nat n).
Proof.
  unfold estimateBeatDuration.
  destruct (octaveCorrect fuel _) as [r|] eqn:E; [|discriminate].
  cbn [option_map]. intros [= <-].
  destruct (octaveCorrect_in_band _ _ _ E) as [Hband Hpow].
  rewrite (fallback_keeps_band r Hband). now repeat split.
Qed.

(** Onsets at 0, 1 and 3 seconds. *)
Lemma returned_beat_in_tempo_band_sample :
  60 / maxBPM <= threeOnsetsBeat <= 60 / minBPM /\
  octaveCorrect 10 (dominantIoi (interOnsetIntervals threeOnsets)) = Some threeOnsetsBeat /\
  exists n : nat,
    threeOnsetsBeat * inject_Z (2 ^ Z.of_nat n)
    == dominantIoi (interOnsetIntervals threeOnsets) \/
    threeOnsetsBeat
    == dominantIoi (interOnsetIntervals threeOnsets) * inject_Z (2 ^ Z.of_nat n).
Proof.
  apply (returned_beat_in_tempo_band 10 threeOnsets threeOnsetsBeat).
  vm_compute. reflexivity.
Defined.

Section Returns.
Context {host : Host}.

(** X6: [generateLevel] returns (for enough fuel) exactly when the dominant
    inter-onset interval of the detected candidates is positive; otherwise it
    returns for no fuel at all. *)
Theorem generateLevel_returns_iff (audioBuffer : AudioBuffer) (d : Difficulty) :
  ((exists fuel notes, generateLevel fuel audioBuffer d = Some notes) <->
   0 < dominantIoi (interOnsetIntervals
         (detectOnsets d (sampleRate audioBuffer) (rmsEnvelope (channelData0 audioBuffer))))) /\
  (dominantIoi (interOnsetIntervals
      (detectOnsets d (sampleRate audioBuffer) (rmsEnvelope (channelData0 audioBuffer)))) <= 0 ->
   forall fuel, generateLevel fuel audioBuffer d = None).
Proof.
  split; [split|].
  - intros (fuel & notes & H). apply generateLevel_chart in H as (beat & Hb & _).
    apply estimateBeatDuration_returns_iff. now exists fuel, beat.
  - intro Hp. apply estimateBeatDuration_returns_iff in Hp as (fuel & beat & Hb).
    exists fuel. unfold generateLevel, notesFromOnsets. rewrite Hb. now eexists.
  - intros Hn fuel. unfold generateLevel, notesFromOnsets.
    now rewrite estimateBeatDuration_stuck.
Qed.

End Returns.

Lemma fold_Math_min_constant (g : Q) (l : list Q) :
  (forall v, In v l -> v == g) -> forall acc, acc == g -> fold_left Math_min l acc == g.
Proof.
  induction l as [|v l IH]; intros H acc Hacc; [exact Hacc|].
  cbn [fold_left]. apply IH; [intros u Hu; apply H; now right|].
  unfold Math_min. destruct (Qlt_bool v acc); [apply H; now left | exact Hacc].
Qed.

Lemma fold_Math_max_constant (g : Q) (l : list Q) :
  (forall v, In v l -> v == g) -> forall acc, acc == g -> fold_left Math_max l acc == g.
Proof.
  induction l as [|v l IH]; intros H acc Hacc; [exact Hacc|].
  cbn [fold_left]. apply IH; [intros u Hu; apply H; now right|].
  unfold Math_max. destruct (Qlt_bool acc v); [apply H; now left | exact Hacc].
Qed.

(** With a bin width that is not positive no interval is counted. *)
Lemma histogram_untouched (minIoi maxIoi binWidth : Q) (iois : list Q) :
  binWidth <= 0 ->
  forall h, fold_left (histogramAdd minIoi maxIoi binWidth) iois h = h.
Proof.
  intro Hw. induction iois as [|v iois IH]; intro h; [reflexivity|].
  cbn [fold_left]. unfold histogramAdd at 2.
  replace (Qlt_bool 0 binWidth) with false by (symmetry; now apply Qlt_bool_false).
  rewrite andb_false_r. apply IH.
Qed.

Lemma dominantIoi_even (gap : Q) (iois : list Q) :
  (forall v, In v iois -> v == gap) -> dominantIoi iois = 0.
Proof.
  intro H. destruct iois as [|x rest]; [reflexivity|].
  unfold dominantIoi.
  assert (Hx : x == gap) by (apply H; now left).
  assert (Hrest : forall v, In v rest -> v == gap) by (intros v Hv; apply H; now right).
  assert (Hmin : minOf x rest == gap) by now apply fold_Math_min_constant.
  assert (Hmax : maxOf x rest == gap) by now apply fold_Math_max_constant.
  rewrite histogram_untouched; [reflexivity|].
  rewrite Hmin, Hmax. unfold Qdiv. setoid_replace ((gap - gap) * / inject_Z (Z.of_nat ioiHistogramBins)) with 0 by ring.
  apply Qle_refl.
Qed.

(** X7: for candidates that are evenly spaced (all inter-onset intervals
    equal; two candidates are the smallest case) the histogram has bin width
    0, no dominant interval is found, and neither the tempo stage nor the
    rest of the pipeline returns. *)
Theorem evenly_spaced_onsets_never_return (gap : Q) (detectedOnsets : list Onset.t)
    (d : Difficulty) (fuel : nat) :
  (forall v, In v (interOnsetIntervals detectedOnsets) -> v == gap) ->
  dominantIoi (interOnsetIntervals detectedOnsets) = 0 /\
  estimateBeatDuration fuel detectedOnsets = None /\
  notesFromOnsets fuel d detectedOnsets = None.
Proof.
  intro H.
  assert (Hd : dominantIoi (interOnsetIntervals detectedOnsets) = 0)
    by now apply dominantIoi_even with gap.
  assert (He : estimateBeatDuration fuel detectedOnsets = None).
  { apply estimateBeatDuration_stuck. rewrite Hd. apply Qle_refl. }
  split; [exact Hd|]. split; [exact He|].
  unfold notesFromOnsets. now rewrite He.
Qed.

(** Four candidates half a second apart. *)
Lemma evenly_spaced_onsets_never_return_sample :
  dominantIoi (interOnsetIntervals
    [Onset.mk 0 1 1; Onset.mk 0.5 1 1; Onset.mk 1 1 1; Onset.mk 1.5 1 1]) = 0 /\
  estimateBeatDuration 1000
    [Onset.mk 0 1 1; Onset.mk 0.5 1 1; Onset.mk 1 1 1; Onset.mk 1.5 1 1] = None /\
  notesFromOnsets 1000 medium
    [Onset.mk 0 1 1; Onset.mk 0.5 1 1; Onset.mk 1 1 1; Onset.mk 1.5 1 1] = None.
Proof.
  apply (evenly_spaced_onsets_never_return 0.5
           [Onset.mk 0 1 1; Onset.mk 0.5 1 1; Onset.mk 1 1 1; Onset.mk 1.5 1 1] medium 1000).
  cbn [interOnsetIntervals ioiLoop Onset.time In].
  intros v [<- | [<- | [<- | []]]]; reflexivity.
Defined.

(** *** The histogram *)










(** *** How far quantization moves a candidate *)

Lemma Math_round_within_half (x : Q) : Qabs (x - inject_Z (Math_round x)) <= 0.5.
Proof.
  unfold Math_round. set (r := Qfloor (x + 0.5)).
  assert (Hlo : inject_Z r <= x + 0.5) by apply Qfloor_le.
  assert (Hhi : x + 0.5 < inject_Z (r + 1)) by apply Qlt_floor.
  rewrite inject_Z_plus in Hhi. change (inject_Z 1) with 1 in Hhi.
  apply Qabs_Qle_condition. split; lra.
Qed.

(** The best time is at least as near as every grid point of every
    subdivision that is not skipped. *)
Lemma bestQuantizedTime_nearest (grid : list Q) (beat start : Q) (onset : Onset.t)
    (s : Q) (k : Z) :
  In s grid -> ~ beat * s == 0 ->
  Qabs (Onset.time onset - bestQuantizedTime grid beat start onset)
  <= Qabs (Onset.time onset - (start + inject_Z k * (beat * s))).
Proof.
  intros Hs Hnz.
  pose proof (snap_fold_snapped beat start onset grid [] (Onset.time onset, None)) as H.
  cbn [app] in H. unfold bestQuantizedTime.
  set (acc := fold_left _ grid _) in *.
  assert (H0 : snapped beat start (Onset.time onset) [] (Onset.time onset, None)).
  { split; [reflexivity | intros u []]. }
  specialize (H H0). unfold snapped in H. destruct (snd acc) as [m|].
  - destruct H as (_ & _ & Hmin). now apply Hmin.
  - destruct H as (_ & Hall). exfalso. apply Hnz. now apply Hall.
Qed.

Lemma bestQuantizedTime_unsnapped (grid : list Q) (beat start : Q) (onset : Onset.t) :
  (forall s, In s grid -> beat * s == 0) ->
  bestQuantizedTime grid beat start onset = Onset.time onset.
Proof.
  intro Hall.
  pose proof (snap_fold_snapped beat start onset grid [] (Onset.time onset, None)) as H.
  cbn [app] in H. unfold bestQuantizedTime.
  set (acc := fold_left _ grid _) in *.
  assert (H0 : snapped beat start (Onset.time onset) [] (Onset.time onset, None)).
  { split; [reflexivity | intros u []]. }
  specialize (H H0). unfold snapped in H. destruct (snd acc) as [m|].
  - destruct H as (_ & (s & k & Hs & Hnz & _) & _). exfalso. apply Hnz. now apply Hall.
  - now destruct H as (Hf & _).
Qed.

Lemma grid_steps_decided (grid : list Q) (beat : Q) :
  (forall s, In s grid -> beat * s == 0) \/ (exists s, In s grid /\ ~ beat * s == 0).
Proof.
  induction grid as [|s grid IH]; [left; intros s []|].
  destruct (Qeq_dec (beat * s) 0) as [E | E].
  - destruct IH as [Hall | (u & Hu & Hnz)].
    + left. intros u [<- | Hu]; [exact E | now apply Hall].
    + right. exists u. split; [now right | exact Hnz].
  - right. exists s. split; [now left | exact E].
Qed.

Lemma Qabs_nonzero_pos (u : Q) : ~ u == 0 -> 0 < Qabs u.
Proof.
  intro Hu. apply Qabs_case; intro H.
  - destruct (Qlt_le_dec 0 u) as [Hp | Hn]; [exact Hp|].
    exfalso. apply Hu. lra.
  - destruct (Qlt_le_dec u 0) as [Hp | Hn]; [lra|].
    exfalso. apply Hu. lra.
Qed.

(** Clamping at 0 brings the time no farther from a time that is not
    negative. *)
Lemma clamp_not_farther (t g : Q) :
  0 <= t -> Qabs (t - Math_max 0 g) <= Qabs (t - g).
Proof.
  intro Ht. unfold Math_max. destruct (Qlt_bool 0 g) eqn:E; [apply Qle_refl|].
  apply Qlt_bool_false in E.
  apply Qabs_Qle_condition. split.
  - apply Qle_trans with 0; [|lra].
    assert (0 <= Qabs (t - g)) by apply Qabs_nonneg. lra.
  - apply Qle_trans with (t - g); [lra | apply Qle_Qabs].
Qed.

(** X9: quantization moves a candidate whose time is not negative by at
    most half a grid step of every subdivision of the grid that is not
    skipped, hence by at most half of the finest step. *)
Theorem quantize_moves_at_most_half_step (grid : list Q) (beat : Q)
    (detectedOnsets : list Onset.t) (c : Onset.t) (i : nat) (s : Q) :
  nth_error detectedOnsets i = Some c ->
  0 <= Onset.time c ->
  In s grid -> ~ beat * s == 0 ->
  exists q,
    nth_error (quantize grid beat detectedOnsets) i = Some q /\
    Qabs (Onset.time c - Onset.time q) <= Qabs (beat * s) / 2.
Proof.
  intros Hc Ht Hs Hnz.
  exists (quantizeOnset grid beat (startTimeOf detectedOnsets) c).
  split. { unfold quantize. now rewrite nth_error_map, Hc. }
  cbn [quantizeOnset Onset.time].
  set (start := startTimeOf detectedOnsets).
  apply Qle_trans with (1 := clamp_not_farther _ _ Ht).
  set (k := Math_round ((Onset.time c - start) / (beat * s))).
  apply Qle_trans with (1 := bestQuantizedTime_nearest grid beat start c s k Hs Hnz).
  setoid_replace (start + inject_Z k * (beat * s)) with (inject_Z k * (beat * s) + start)
    by ring.
  rewrite grid_distance by exact Hnz.
  assert (Hu : 0 < Qabs (beat * s)) by now apply Qabs_nonzero_pos.
  apply Qle_trans with (Qabs (beat * s) * 0.5).
  - apply Qmult_le_l; [exact Hu | apply Math_round_within_half].
  - setoid_replace (Qabs (beat * s) / 2) with (Qabs (beat * s) * 0.5) by field.
    apply Qle_refl.
Qed.

(** The second of two candidates on the easy grid at 120 BPM: it moves by at
    most an eighth of a second. *)
Lemma quantize_moves_at_most_half_step_sample :
  exists q,
    nth_error (quantize (quantizationGrid easy) 0.5 [Onset.mk 0.1 1 1; Onset.mk 0.4 2 3]) 1
    = Some q /\
    Qabs (0.4 - Onset.time q) <= Qabs (0.5 * 0.5) / 2.
Proof.
  apply (quantize_moves_at_most_half_step (quantizationGrid easy) 0.5
           [Onset.mk 0.1 1 1; Onset.mk 0.4 2 3] (Onset.mk 0.4 2 3) 1 0.5 eq_refl).
  - discriminate.
  - right. left. reflexivity.
  - discriminate.
Defined.

(** X10: a candidate whose time is not negative and lies on a grid line of
    a subdivision that is not skipped keeps its time; so does the first
    candidate, the origin of the grid, whatever the grid. *)
Theorem quantize_keeps_grid_points (grid : list Q) (beat : Q)
    (detectedOnsets : list Onset.t) (first c : Onset.t) (i : nat) :
  nth_error detectedOnsets 0 = Some first ->
  nth_error detectedOnsets i = Some c ->
  0 <= Onset.time c ->
  (i = O \/
   exists s k, In s grid /\ ~ beat * s == 0 /\
               Onset.time c == Onset.time first + inject_Z k * (beat * s)) ->
  exists q,
    nth_error (quantize grid beat detectedOnsets) i = Some q /\
    Onset.time q == Onset.time c.
Proof.
  intros Hfirst Hc Ht Hgrid.
  assert (Hstart : startTimeOf detectedOnsets = Onset.time first).
  { destruct detectedOnsets; [discriminate|]. cbn in Hfirst. now injection Hfirst as ->. }
  exists (quantizeOnset grid beat (startTimeOf detectedOnsets) c).
  split. { unfold quantize. now rewrite nth_error_map, Hc. }
  cbn [quantizeOnset Onset.time]. rewrite Hstart.
  assert (Hbest : bestQuantizedTime grid beat (Onset.time first) c == Onset.time c).
  { assert (Hon : (forall s, In s grid -> beat * s == 0) \/
                  exists s k, In s grid /\ ~ beat * s == 0 /\
                    Onset.time c == Onset.time first + inject_Z k * (beat * s)).
    { destruct Hgrid as [-> | Hon]; [|now right].
      rewrite Hfirst in Hc. injection Hc as <-.
      destruct (grid_steps_decided grid beat) as [Hall | (s & Hs & Hnz)]; [now left|].
      right. exists s, 0%Z. repeat split; try assumption.
      change (inject_Z 0) with 0. ring. }
    destruct Hon as [Hall | (s & k & Hs & Hnz & Hk)].
    - now rewrite bestQuantizedTime_unsnapped.
    - pose proof (bestQuantizedTime_nearest grid beat (Onset.time first) c s k Hs Hnz) as H.
      rewrite <- Hk in H.
      setoid_replace (Onset.time c - Onset.time c) with 0 in H by ring.
      change (Qabs 0) with 0 in H.
      apply Qabs_Qle_condition in H. lra. }
  unfold Math_max. destruct (Qlt_bool 0 _) eqn:E; [exact Hbest|].
  apply Qlt_bool_false in E. lra.
Qed.

(** The first of two candidates. *)
Lemma quantize_keeps_grid_points_sample :
  exists q,
    nth_error (quantize (quantizationGrid hard) 0.5 [Onset.mk 0.1 1 1; Onset.mk 0.4 2 3]) 0
    = Some q /\
    Onset.time q == 0.1.
Proof.
  apply (quantize_keeps_grid_points (quantizationGrid hard) 0.5
           [Onset.mk 0.1 1 1; Onset.mk 0.4 2 3] (Onset.mk 0.1 1 1) (Onset.mk 0.1 1 1) 0
           eq_refl eq_refl).
  - discriminate.
  - now left.
Defined.

(** *** How many notes are weak *)

Lemma Permutation_filter_length {A} (p : A -> bool) (l l' : list A) :
  Permutation l l' -> length (filter p l) = length (filter p l').
Proof.
  induction 1 as [|x l l' _ IH|x y l|l l' l'' _ IH1 _ IH2]; cbn [filter].
  - reflexivity.
  - destruct (p x); cbn [length]; now rewrite IH.
  - destruct (p x), (p y); reflexivity.
  - now rewrite IH1.
Qed.

Lemma filter_length_split {A} (p : A -> bool) (l : list A) :
  (length (filter p l) + length (filter (fun a => negb (p a)) l) = length l)%nat.
Proof.
  induction l as [|a l IH]; [reflexivity|].
  cbn [filter]. destruct (p a); cbn [negb length]; lia.
Qed.

Lemma filter_length_le {A} (p : A -> bool) (l : list A) :
  (length (filter p l) <= length l)%nat.
Proof. pose proof (filter_length_split p l). lia. Qed.

(** In a sorted list, everything from position [k] on is at least the
    value at position [k]. *)
Lemma sorted_tail_above (l : list Q) :
  StronglySorted Qle l ->
  forall k v, In v (skipn k l) -> nth k l 0 <= v.
Proof.
  induction 1 as [|a l Hl IH Ha]; intros k v Hv.
  - destruct k; destruct Hv.
  - destruct k as [|k]; cbn [skipn nth] in *.
    + destruct Hv as [<- | Hv]; [apply Qle_refl|].
      revert v Hv. now apply Forall_forall.
    + now apply IH.
Qed.

Lemma assignLoop_lane_counts (threshold : Q) (quantizedNotes : list Onset.t) :
  forall lastStrongKey lastWeakKey,
    length (lanesOf isStrongLane
              (assignLoop threshold lastStrongKey lastWeakKey quantizedNotes))
    = length (filter (isStrong threshold) quantizedNotes) /\
    length (lanesOf isWeakLane
              (assignLoop threshold lastStrongKey lastWeakKey quantizedNotes))
    = length (filter (fun q => negb (isStrong threshold q)) quantizedNotes).
Proof.
  unfold lanesOf.
  induction quantizedNotes as [|q qs IH]; intros ls lw; [now split|].
  cbn [assignLoop filter]. destruct (isStrong threshold q); cbn [negb map filter Note.key].
  - rewrite nextStrongKey_strong, nextStrongKey_not_weak. cbn [length].
    destruct (IH (nextStrongKey ls) lw) as [-> ->]. now split.
  - rewrite nextWeakKey_weak, nextWeakKey_not_strong. cbn [length].
    destruct (IH ls (nextWeakKey lw)) as [-> ->]. now split.
Qed.

Lemma filter_nothing {A} (p : A -> bool) (l : list A) :
  (forall v, In v l -> p v = false) -> filter p l = [].
Proof.
  induction l as [|a l IH]; intro H; [reflexivity|].
  cbn [filter]. rewrite (H a) by now left. apply IH. intros v Hv. apply H. now right.
Qed.

Lemma weak_by_strength (threshold : Q) (quantizedNotes : list Onset.t) :
  length (filter (fun q => negb (isStrong threshold q)) quantizedNotes)
  = length (filter (fun v => negb (Qle_bool threshold v))
              (map Onset.originalRms quantizedNotes)).
Proof.
  induction quantizedNotes as [|q qs IH]; [reflexivity|].
  cbn [filter map]. unfold isStrong at 1.
  destruct (Qle_bool threshold (Onset.originalRms q)); cbn [negb length]; now rewrite IH.
Qed.

(** The index of the threshold among the sorted strengths. *)
Lemma threshold_index (n : nat) :
  let k := Z.to_nat (Math_floor (inject_Z (Z.of_nat n) * strongNoteThreshold)) in
  (5 * k <= 3 * n)%nat /\ (0 < n -> k < n)%nat.
Proof.
  cbv zeta. unfold Math_floor, strongNoteThreshold.
  set (x := inject_Z (Z.of_nat n) * 0.6).
  pose proof (Qfloor_le x) as Hfl.
  assert (Hx : x == inject_Z (Z.of_nat n) * 0.6) by reflexivity.
  clearbody x.
  assert (Hn : 0 <= inject_Z (Z.of_nat n)).
  { change 0 with (inject_Z 0). rewrite <- Zle_Qle. lia. }
  assert (H5 : (5 * Qfloor x <= 3 * Z.of_nat n)%Z).
  { rewrite Zle_Qle, !inject_Z_mult.
    change (inject_Z 5) with 5. change (inject_Z 3) with 3. lra. }
  split; [lia|]. intro Hpos. lia.
Qed.

(** X11: the strength threshold is the sorted strength at index
    [floor (0.6 * n)], so at most three fifths of the notes get a weak lane;
    every note is on a strong or on a weak lane; a non-empty list has a
    strong note, and a note that is at least as loud as every other is
    strong. *)
Theorem weak_notes_at_most_three_fifths (quantizedNotes : list Onset.t) :
  let finalNotes := assignKeys quantizedNotes in
  let weak := length (lanesOf isWeakLane finalNotes) in
  let strong := length (lanesOf isStrongLane finalNotes) in
  (strong + weak = length quantizedNotes)%nat /\
  (5 * weak <= 3 * length quantizedNotes)%nat /\
  (quantizedNotes <> [] -> 0 < strong)%nat /\
  (forall q, In q quantizedNotes ->
     (forall q', In q' quantizedNotes -> Onset.originalRms q' <= Onset.originalRms q) ->
     isStrong (strongRmsThreshold quantizedNotes) q = true).
Proof.
  cbv zeta. unfold assignKeys.
  set (thr := strongRmsThreshold quantizedNotes).
  destruct (assignLoop_lane_counts thr quantizedNotes "ArrowUp" "ArrowLeft") as [-> ->].
  pose proof (filter_length_split (isStrong thr) quantizedNotes) as Hsplit.
  set (vals := map Onset.originalRms quantizedNotes).
  set (sorted := sortBy (fun v => v) vals).
  assert (Hperm : Permutation sorted vals) by apply sortBy_Permutation.
  assert (Hsorted : StronglySorted Qle sorted) by apply (sortBy_sorted (fun v => v)).
  assert (Hlen : length sorted = length quantizedNotes).
  { unfold sorted, vals. now rewrite sortBy_length, length_map. }
  pose proof (threshold_index (length quantizedNotes)) as Hk. cbv zeta in Hk.
  set (k := Z.to_nat (Math_floor (inject_Z (Z.of_nat (length quantizedNotes))
                                  * strongNoteThreshold))) in *.
  assert (Hthr : thr = nth k sorted 0).
  { unfold thr, strongRmsThreshold. fold vals. fold sorted. unfold Qlen.
    now rewrite Hlen. }
  assert (Hweak : (length (filter (fun q => negb (isStrong thr q)) quantizedNotes) <= k)%nat).
  { assert (E : length (filter (fun q => negb (isStrong thr q)) quantizedNotes)
                = length (filter (fun v => negb (Qle_bool thr v)) sorted)).
    { rewrite (Permutation_filter_length _ _ _ Hperm). apply weak_by_strength. }
    rewrite E, <- (firstn_skipn k sorted), filter_app, length_app.
    replace (filter (fun v => negb (Qle_bool thr v)) (skipn k sorted)) with (@nil Q).
    - cbn [length]. rewrite Nat.add_0_r.
      apply Nat.le_trans with (length (firstn k sorted)); [apply filter_length_le|].
      rewrite length_firstn. lia.
    - symmetry. apply filter_nothing.
      intros v Hv. apply negb_false_iff, Qle_bool_iff.
      rewrite Hthr. now apply sorted_tail_above. }
  assert (Hin : quantizedNotes <> [] ->
                exists q0, In q0 quantizedNotes /\ Onset.originalRms q0 = thr).
  { intro Hne.
    assert (Hpos : (0 < length quantizedNotes)%nat)
      by (destruct quantizedNotes; [congruence | cbn; lia]).
    assert (Hmem : In thr sorted) by (rewrite Hthr; apply nth_In; lia).
    apply (Permutation_in _ Hperm) in Hmem. unfold vals in Hmem.
    apply in_map_iff in Hmem as (q0 & Hq0 & Hin0). now exists q0. }
  split; [lia|]. split; [lia|]. split.
  - intro Hne. destruct (Hin Hne) as (q0 & Hq0 & Hr).
    assert (Hs : In q0 (filter (isStrong thr) quantizedNotes)).
    { apply filter_In. split; [exact Hq0|]. unfold isStrong. rewrite Hr.
      apply Qle_bool_iff, Qle_refl. }
    destruct (filter (isStrong thr) quantizedNotes); [destruct Hs | cbn; lia].
  - intros q Hq Hloud. destruct Hin as (q0 & Hq0 & Hr); [intros ->; destruct Hq|].
    unfold isStrong. apply Qle_bool_iff. rewrite <- Hr. now apply Hloud.
Qed.

(** *** The note map of the deduplication *)

Lemma mapGet_None (m : NoteMap) (k : Z) : mapGet m k = None <-> ~ In k (map fst m).
Proof.
  induction m as [|[k' v] m IH]; cbn [mapGet map fst In]; [tauto|].
  destruct (Z.eqb_spec k' k) as [-> | Hne].
  - split; [discriminate | intro H; exfalso; apply H; now left].
  - rewrite IH. tauto.
Qed.

Lemma mapSet_keys_present (m : NoteMap) (k : Z) (v : Note.t) :
  In k (map fst m) -> map fst (mapSet m k v) = map fst m.
Proof.
  induction m as [|[k' v'] m IH]; cbn [mapSet map fst In]; [tauto|].
  intro H. destruct (Z.eqb_spec k' k) as [-> | Hne]; [reflexivity|].
  cbn [map fst]. f_equal. apply IH. destruct H; [contradiction | assumption].
Qed.

Lemma mapSet_keys_absent (m : NoteMap) (k : Z) (v : Note.t) :
  ~ In k (map fst m) -> map fst (mapSet m k v) = map fst m ++ [k].
Proof.
  induction m as [|[k' v'] m IH]; cbn [mapSet map fst In app]; [reflexivity|].
  intro H. destruct (Z.eqb_spec k' k) as [-> | Hne]; [exfalso; apply H; now left|].
  cbn [map fst]. f_equal. apply IH. tauto.
Qed.

Lemma mapSet_keyed (m : NoteMap) (v : Note.t) :
  keyed m -> keyed (mapSet m (timeKeyOf (Note.time v)) v).
Proof.
  intros [Hnd Hk]. set (k := timeKeyOf (Note.time v)). split.
  - destruct (in_dec Z.eq_dec k (map fst m)) as [Hin | Hout].
    + now rewrite mapSet_keys_present.
    + rewrite mapSet_keys_absent by exact Hout.
      apply NoDup_app; [exact Hnd | repeat constructor; intros [] |].
      intros x Hx [<- | []]. contradiction.
  - intros kv Hkv. apply mapSet_In in Hkv as [Hkv | ->]; [now apply Hk | reflexivity].
Qed.

Lemma dedupStep_keyed (quantizedNotes : list Onset.t) (m : NoteMap) (note : Note.t) :
  keyed m -> keyed (dedupStep quantizedNotes m note).
Proof.
  intro H. unfold dedupStep.
  destruct (mapGet m _);
    repeat match goal with
      | |- context [match ?x with _ => _ end] => destruct x
      end;
    try exact H; now apply mapSet_keyed.
Qed.

Lemma dedupStep_keys (quantizedNotes : list Onset.t) (m : NoteMap) (note : Note.t) :
  (forall k, In k (map fst m) -> In k (map fst (dedupStep quantizedNotes m note))) /\
  In (timeKeyOf (Note.time note)) (map fst (dedupStep quantizedNotes m note)) /\
  (length (dedupStep quantizedNotes m note) <= S (length m))%nat /\
  (length m <= length (dedupStep quantizedNotes m note))%nat.
Proof.
  unfold dedupStep. set (k := timeKeyOf (Note.time note)).
  assert (Hset : forall v,
            (forall k', In k' (map fst m) -> In k' (map fst (mapSet m k v))) /\
            In k (map fst (mapSet m k v)) /\
            (length (mapSet m k v) <= S (length m))%nat /\
            (length m <= length (mapSet m k v))%nat).
  { intro v. rewrite <- !(length_map fst (mapSet m k v)), <- !(length_map fst m).
    destruct (in_dec Z.eq_dec k (map fst m)) as [Hin | Hout].
    - rewrite mapSet_keys_present by exact Hin. repeat split; auto.
    - rewrite mapSet_keys_absent by exact Hout. rewrite length_app. cbn [length].
      repeat split; try lia.
      + intros k' Hk'. apply in_or_app. now left.
      + apply in_or_app. right. now left. }
  destruct (mapGet m k) as [existing|] eqn:E; [|apply Hset].
  assert (Hin : In k (map fst m)).
  { destruct (in_dec Z.eq_dec k (map fst m)) as [Hin | Hout]; [exact Hin|].
    apply mapGet_None in Hout. congruence. }
  repeat match goal with
    | |- context [match ?x with _ => _ end] => destruct x
    end;
    try apply Hset; repeat split; auto.
Qed.

Lemma dedup_fold_keyed (quantizedNotes : list Onset.t) (finalNotes : list Note.t) :
  forall m, keyed m ->
    keyed (fold_left (dedupStep quantizedNotes) finalNotes m) /\
    (forall k, In k (map fst m) ->
       In k (map fst (fold_left (dedupStep quantizedNotes) finalNotes m))) /\
    (forall n, In n finalNotes ->
       In (timeKeyOf (Note.time n))
          (map fst (fold_left (dedupStep quantizedNotes) finalNotes m))) /\
    (length m <= length (fold_left (dedupStep quantizedNotes) finalNotes m)
     <= length m + length finalNotes)%nat.
Proof.
  induction finalNotes as [|n ns IH]; intros m Hm; cbn [fold_left].
  - repeat split; try apply Hm; auto; try lia. intros n [].
  - destruct (dedupStep_keys quantizedNotes m n) as (Hkeep & Hnew & Hle & Hge).
    destruct (IH _ (dedupStep_keyed quantizedNotes m n Hm)) as (Hk & Hkeys & Hcover & Hlen).
    split; [exact Hk|]. split; [|split].
    + intros k Hin. now apply Hkeys, Hkeep.
    + intros x [<- | Hx]; [now apply Hkeys | now apply Hcover].
    + cbn [length]. lia.
Qed.

Lemma dedup_length (quantizedNotes : list Onset.t) (finalNotes : list Note.t) :
  (length (dedup quantizedNotes finalNotes) <= length finalNotes)%nat /\
  (finalNotes <> [] -> dedup quantizedNotes finalNotes <> []).
Proof.
  unfold dedup, mapValues.
  set (m := fold_left (dedupStep quantizedNotes) finalNotes []).
  assert (H0 : keyed []) by (split; [constructor | intros kv []]).
  destruct (dedup_fold_keyed quantizedNotes finalNotes [] H0)
    as (_ & _ & Hcover & Hlen).
  fold m in Hcover, Hlen. cbn [length Nat.add] in Hlen. split.
  - rewrite sortBy_length, length_map. lia.
  - intros Hne Hout. apply (f_equal (@length _)) in Hout.
    rewrite sortBy_length, length_map in Hout. cbn [length] in Hout.
    destruct finalNotes as [|n ns]; [congruence|].
    specialize (Hcover n (or_introl eq_refl)).
    destruct m; [destruct Hcover | discriminate].
Qed.

(** X12: after deduplication no two notes round to the same millisecond,
    every millisecond of the input is still represented, every note of the
    output is a note of the input, the output is in time order, and it is
    not longer than the input (and not empty unless the input is). *)
Theorem dedup_one_note_per_millisecond (quantizedNotes : list Onset.t)
    (finalNotes : list Note.t) :
  let out := dedup quantizedNotes finalNotes in
  NoDup (map (fun n => timeKeyOf (Note.time n)) out) /\
  (forall n, In n finalNotes ->
     exists n', In n' out /\ timeKeyOf (Note.time n') = timeKeyOf (Note.time n)) /\
  (forall n, In n out -> In n finalNotes) /\
  StronglySorted notLater out /\
  (length out <= length finalNotes)%nat /\
  (finalNotes <> [] -> out <> []).
Proof.
  cbv zeta. unfold dedup, mapValues.
  set (m := fold_left (dedupStep quantizedNotes) finalNotes []).
  assert (H0 : keyed []) by (split; [constructor | intros kv []]).
  destruct (dedup_fold_keyed quantizedNotes finalNotes [] H0)
    as ((Hnd & Hkey) & _ & Hcover & Hlen).
  fold m in Hnd, Hkey, Hcover, Hlen. cbn [length Nat.add] in Hlen.
  assert (Hkeys : map (fun n => timeKeyOf (Note.time n)) (map snd m) = map fst m).
  { rewrite map_map. apply map_ext_in. intros kv Hkv. symmetry. now apply Hkey. }
  assert (Hperm : Permutation (sortBy Note.time (map snd m)) (map snd m))
    by apply sortBy_Permutation.
  split; [|split; [|split; [|split; [|split]]]].
  - apply (Permutation_NoDup (l := map fst m)); [|exact Hnd].
    rewrite <- Hkeys. apply Permutation_map. now symmetry.
  - intros n Hn. specialize (Hcover n Hn). rewrite <- Hkeys in Hcover.
    apply in_map_iff in Hcover as (n' & Hk & Hin'). exists n'. split; [|exact Hk].
    now apply sortBy_In.
  - intros n Hn. now apply (dedup_In quantizedNotes).
  - apply (sortBy_sorted Note.time).
  - apply dedup_length.
  - apply dedup_length.
Qed.

(** *** The separation filter, once more *)

Lemma separationLoop_apart (minSep : Q) (rest : list Note.t) :
  forall last, Sorted (apart minSep) (last :: separationLoop minSep last rest).
Proof.
  induction rest as [|n rest IH]; intro last; cbn [separationLoop].
  - repeat constructor.
  - destruct (Qle_bool minSep (Note.time n - Note.time last)) eqn:E; [|apply IH].
    constructor; [apply IH|]. constructor. now apply Qle_bool_iff.
Qed.

Lemma separationLoop_fixed (minSep : Q) (l : list Note.t) :
  forall last, Sorted (apart minSep) (last :: l) -> separationLoop minSep last l = l.
Proof.
  induction l as [|n l IH]; intros last H; [reflexivity|].
  inversion H as [|? ? Hl Hhd]; subst. inversion Hhd as [|? ? Hap]; subst.
  cbn [separationLoop]. apply Qle_bool_iff in Hap. unfold apart in Hap. rewrite Hap.
  f_equal. now apply IH.
Qed.

(** Every note the loop drops comes less than [minSep] after a note that is
    kept. *)
Lemma separationLoop_drops_close (minSep : Q) (rest : list Note.t) :
  forall last x, In x rest ->
    In x (separationLoop minSep last rest) \/
    exists kept, In kept (last :: separationLoop minSep last rest) /\
                 Note.time x - Note.time kept < minSep.
Proof.
  induction rest as [|n rest IH]; intros last x Hx; [destruct Hx|].
  cbn [separationLoop].
  destruct (Qle_bool minSep (Note.time n - Note.time last)) eqn:E.
  - destruct Hx as [<- | Hx]; [left; now left|].
    destruct (IH n x Hx) as [Hin | (kept & Hk & Hc)]; [left; now right|].
    right. exists kept. split; [now right | exact Hc].
  - destruct Hx as [<- | Hx].
    + right. exists last. split; [now left|].
      apply Qnot_le_lt. intro Hle. apply Qle_bool_iff in Hle. congruence.
    + now apply IH.
Qed.

(** X13: the separation filter keeps the first note, returns a list whose
    neighbours are at least [minSep] apart, drops a note only when it comes
    less than [minSep] after a note it keeps, leaves a list that is already
    separated unchanged, and so changes nothing when applied twice. *)
Theorem enforceSeparation_greedy (minSep : Q) (filteredNotes : list Note.t) :
  hd_error (enforceSeparation minSep filteredNotes) = hd_error filteredNotes /\
  Sorted (apart minSep) (enforceSeparation minSep filteredNotes) /\
  (forall x, In x filteredNotes ->
     In x (enforceSeparation minSep filteredNotes) \/
     exists kept, In kept (enforceSeparation minSep filteredNotes) /\
                  Note.time x - Note.time kept < minSep) /\
  (Sorted (apart minSep) filteredNotes ->
   enforceSeparation minSep filteredNotes = filteredNotes) /\
  enforceSeparation minSep (enforceSeparation minSep filteredNotes)
  = enforceSeparation minSep filteredNotes.
Proof.
  assert (Hfix : forall l, Sorted (apart minSep) l -> enforceSeparation minSep l = l).
  { intros [|first rest] H; [reflexivity|]. cbn [enforceSeparation]. f_equal.
    now apply separationLoop_fixed. }
  assert (Hsorted : Sorted (apart minSep) (enforceSeparation minSep filteredNotes)).
  { destruct filteredNotes as [|first rest]; [constructor | apply separationLoop_apart]. }
  split; [now destruct filteredNotes|]. split; [exact Hsorted|]. split; [|split].
  - destruct filteredNotes as [|first rest]; [intros x []|].
    cbn [enforceSeparation]. intros x [<- | Hx]; [left; now left|].
    destruct (separationLoop_drops_close minSep rest first x Hx) as [Hin | Hk];
      [left; now right | now right].
  - apply Hfix.
  - now apply Hfix.
Qed.

(** *** The returned chart *)

Lemma quantize_nonneg (grid : list Q) (beat : Q) (detectedOnsets : list Onset.t)
    (q : Onset.t) :
  In q (quantize grid beat detectedOnsets) -> 0 <= Onset.time q.
Proof.
  unfold quantize. rewrite in_map_iff. intros (c & <- & _).
  cbn [quantizeOnset Onset.time]. unfold Math_max.
  destruct (Qlt_bool 0 _) eqn:E; [|apply Qle_refl].
  apply Qlt_bool_iff in E. lra.
Qed.

Lemma assignKeys_times (quantizedNotes : list Onset.t) (n : Note.t) :
  In n (assignKeys quantizedNotes) ->
  exists q, In q quantizedNotes /\ Note.time n = Onset.time q.
Proof.
  intro H. apply In_nth_error in H as [i Hi].
  assert (Hlt : (i < length quantizedNotes)%nat).
  { unfold assignKeys in Hi. rewrite <- (assignLoop_length (strongRmsThreshold quantizedNotes)
      quantizedNotes "ArrowUp" "ArrowLeft"). apply nth_error_Some. congruence. }
  destruct (nth_error quantizedNotes i) as [q|] eqn:Hq;
    [|apply nth_error_None in Hq; lia].
  destruct (assignLoop_nth (strongRmsThreshold quantizedNotes) quantizedNotes
              "ArrowUp" "ArrowLeft" i q Hq) as (n' & Hn' & Ht & _).
  unfold assignKeys in Hi. rewrite Hi in Hn'. injection Hn' as <-.
  exists q. split; [now apply nth_error_In with i | exact Ht].
Qed.

Lemma enforceSeparation_length (minSep : Q) (filteredNotes : list Note.t) :
  (length (enforceSeparation minSep filteredNotes) <= length filteredNotes)%nat.
Proof.
  destruct filteredNotes as [|first rest]; [reflexivity|].
  cbn [enforceSeparation length]. apply le_n_S.
  generalize first. induction rest as [|n rest IH]; intro last; [reflexivity|].
  cbn [separationLoop]. destruct (Qle_bool _ _); cbn [length].
  - apply le_n_S, IH.
  - apply Nat.le_trans with (length rest); [apply IH | lia].
Qed.

Section Chart.
Context {host : Host}.

Lemma generateLevel_nonempty (fuel : nat) (audioBuffer : AudioBuffer) (d : Difficulty)
    (notes : list Note.t) :
  generateLevel fuel audioBuffer d = Some notes -> notes <> [].
Proof.
  intro Hrun. apply generateLevel_chart in Hrun as (beat & Hbeat & ->).
  set (onsets := detectOnsets d (sampleRate audioBuffer)
                   (rmsEnvelope (channelData0 audioBuffer))) in *.
  set (qs := quantize (quantizationGrid d) beat onsets).
  assert (Hqlen : length (assignKeys qs) = length onsets).
  { unfold assignKeys. rewrite assignLoop_length. unfold qs, quantize. apply length_map. }
  destruct (dedup_length qs (assignKeys qs)) as (_ & Hdne).
  assert (Hne : onsets <> []).
  { intro E. rewrite E in Hbeat.
    rewrite estimateBeatDuration_stuck in Hbeat; [discriminate | apply Qle_refl]. }
  unfold chartNotes. fold qs.
  assert (Hd : dedup qs (assignKeys qs) <> []).
  { apply Hdne. intro E. apply (f_equal (@length _)) in E. rewrite Hqlen in E.
    destruct onsets; [congruence | discriminate]. }
  destruct (dedup qs (assignKeys qs)); [congruence | discriminate].
Qed.

(** X14: a chart that [generateLevel] returns is never empty, has at most
    one note per detected candidate, and holds no negative time. *)
Theorem returned_chart_nonempty_and_nonnegative (fuel : nat) (audioBuffer : AudioBuffer)
    (d : Difficulty) (notes : list Note.t) :
  generateLevel fuel audioBuffer d = Some notes ->
  notes <> [] /\
  (length notes
   <= length (detectOnsets d (sampleRate audioBuffer)
                (rmsEnvelope (channelData0 audioBuffer))))%nat /\
  (forall n, In n notes -> 0 <= Note.time n).
Proof.
  intro Hrun. split; [now apply generateLevel_nonempty with fuel audioBuffer d|].
  apply generateLevel_chart in Hrun as (beat & Hbeat & ->).
  set (onsets := detectOnsets d (sampleRate audioBuffer)
                   (rmsEnvelope (channelData0 audioBuffer))) in *.
  set (qs := quantize (quantizationGrid d) beat onsets).
  assert (Hqlen : length (assignKeys qs) = length onsets).
  { unfold assignKeys. rewrite assignLoop_length. unfold qs, quantize. apply length_map. }
  destruct (dedup_length qs (assignKeys qs)) as (Hdlen & _).
  split.
  - unfold chartNotes. fold qs.
    apply Nat.le_trans with (length (dedup qs (assignKeys qs)));
      [apply enforceSeparation_length | lia].
  - intros n Hn. apply chartNotes_In in Hn. fold qs in Hn.
    apply assignKeys_times in Hn as (q & Hq & ->).
    now apply quantize_nonneg with (quantizationGrid d) beat onsets.
Qed.

End Chart.

(** The easy chart of the sample buffer. *)
Lemma returned_chart_nonempty_sample :
  sampleNotes <> [] /\
  (length sampleNotes
   <= length (@detectOnsets sampleHost easy (sampleRate sampleBuffer)
                (@rmsEnvelope sampleHost (channelData0 sampleBuffer))))%nat /\
  (forall n, In n sampleNotes -> 0 <= Note.time n).
Proof.
  exact (@returned_chart_nonempty_and_nonnegative sampleHost 10 sampleBuffer easy
           sampleNotes sampleNotes_returned).
Defined.

(** ** The play loop *)

Lemma Qabs_scale (c a : Q) : 0 < c -> Qabs (c * a) == c * Qabs a.
Proof.
  intro Hc. rewrite Qabs_Qmult. rewrite (Qabs_pos c); [reflexivity | now apply Qlt_le_weak].
Qed.

(** A freshly spawned note, prepared for a canvas of width [canvasWidth],
    against the hit line of a canvas that is [width'] wide now. *)
Lemma spawned_note_window (canvasWidth width' t time : Q) (key : string) :
  let p := Play.mkNote (time - canvasWidth * 0.9 / Play.speed + 0.1) key false false true in
  let centre := time + 0.1 + (width' - canvasWidth) * 0.9 / Play.speed in
  ((t - Play.spawnTime p) * Play.speed == width' * 0.9 <-> t == centre) /\
  (Play.inWindow t (width' * 0.9) p = true <-> Qabs (t - centre) < 0.2) /\
  (Play.passed t (width' * 0.9) p = true <-> centre + 0.06 < t).
Proof.
  cbv zeta. unfold Play.passed, Play.inWindow, Play.pending.
  cbn [Play.hit Play.missed Play.spawnTime orb negb andb].
  set (centre := time + 0.1 + (width' - canvasWidth) * 0.9 / Play.speed).
  assert (Hx : (t - (time - canvasWidth * 0.9 / Play.speed + 0.1)) * Play.speed
               - width' * 0.9 == 500 * (t - centre))
    by (unfold centre, Play.speed; field).
  split; [|split]; split.
  - intro H. rewrite H in Hx. lra.
  - intro H. lra.
  - intro H. apply Qlt_bool_iff in H. unfold Math_abs in H. rewrite Hx in H.
    rewrite Qabs_scale in H by reflexivity. unfold Play.hitWindow, Play.speed in H. lra.
  - intro H. apply Qlt_bool_iff. unfold Math_abs. rewrite Hx.
    rewrite Qabs_scale by reflexivity. unfold Play.hitWindow, Play.speed. lra.
  - intro H. apply Qlt_bool_iff in H. lra.
  - intro H. apply Qlt_bool_iff. lra.
Qed.

(** X15: a note of the chart, once prepared and spawned, is pending and
    keeps its lane.  While the canvas keeps the width it was prepared for,
    the note is on the hit line exactly 0.1 s after its chart time; a canvas
    resized to [width'] moves that moment by 0.9 * (width' - width) / 500
    seconds.  The note can be pressed exactly while the song time is less
    than 0.2 s away from that moment, and [gameLoop] gives it up from 0.06 s
    after it. *)
Theorem prepared_note_window (canvasWidth width' t : Q) (raw : list Note.t) :
  Forall2 (fun note p =>
             let centre :=
               Note.time note + 0.1 + (width' - canvasWidth) * 0.9 / Play.speed in
             Play.key p = Note.key note /\ Play.pending p = true /\ Play.el p = true /\
             ((t - Play.spawnTime p) * Play.speed == width' * 0.9 <-> t == centre) /\
             (Play.inWindow t (width' * 0.9) p = true <-> Qabs (t - centre) < 0.2) /\
             (Play.passed t (width' * 0.9) p = true <-> centre + 0.06 < t) /\
             (width' == canvasWidth -> centre == Note.time note + 0.1))
          raw (Play.notes (Play.start canvasWidth raw)).
Proof.
  unfold Play.start, Play.spawnAllNotes, Play.prepare. cbn [Play.notes].
  rewrite map_map. induction raw as [|note raw IH]; cbn [map]; constructor; [|exact IH].
  cbn [fst snd Play.key Play.el]. cbv zeta.
  split; [reflexivity|]. split; [reflexivity|]. split; [reflexivity|].
  destruct (spawned_note_window canvasWidth width' t (Note.time note) (Note.key note))
    as (H1 & H2 & H3).
  split; [exact H1|]. split; [exact H2|]. split; [exact H3|].
  intro Hw. rewrite Hw. unfold Play.speed. field.
Qed.

Lemma pending_flags (n : Play.PlayNote) :
  Play.pending n = negb (Play.hit n || Play.missed n).
Proof. reflexivity. Qed.

Lemma resolve_not_pending (k : string) (n : Play.PlayNote) :
  Play.pending (Play.resolve k n) = false.
Proof.
  unfold Play.resolve, Play.pending. destruct (String.eqb k (Play.key n)); cbn.
  - reflexivity.
  - now rewrite orb_true_r.
Qed.

(** The loop of [keyHandler] stops at the first pending note inside the
    window and resolves it; without such a note it changes nothing. *)
Lemma keyLoop_target (k : string) (t xH : Q) (ns : list Play.PlayNote) :
  match Play.target t xH ns with
  | None => Play.keyLoop k t xH ns = (ns, Play.NoNote)
  | Some n =>
      exists pre post,
        ns = pre ++ n :: post /\
        Forall (fun m => Play.pending m && Play.inWindow t xH m = false) pre /\
        Play.pending n = true /\ Play.inWindow t xH n = true /\
        Play.keyLoop k t xH ns
        = (pre ++ Play.resolve k n :: post,
           if String.eqb k (Play.key n) then Play.Hit
           else Play.WrongKey ((t - Play.spawnTime n) * Play.speed))
  end.
Proof.
  unfold Play.target. induction ns as [|n ns IH]; cbn [find Play.keyLoop]; [reflexivity|].
  rewrite (pending_flags n).
  destruct (Play.hit n || Play.missed n) eqn:Ehm; cbn [negb andb].
  - destruct (find _ ns) as [m|].
    + destruct IH as (pre & post & -> & Hpre & Hp & Hw & ->).
      exists (n :: pre), post. repeat split; auto.
      constructor; [|exact Hpre]. now rewrite pending_flags, Ehm.
    + now rewrite IH.
  - destruct (Play.inWindow t xH n) eqn:Ew.
    + exists [], ns. cbn [app]. repeat split; auto.
      * now rewrite pending_flags, Ehm.
      * unfold Play.resolve. now destruct (String.eqb k (Play.key n)).
    + destruct (find _ ns) as [m|].
      * destruct IH as (pre & post & -> & Hpre & Hp & Hw & ->).
        exists (n :: pre), post. repeat split; auto.
        constructor; [|exact Hpre]. now rewrite Ew, andb_false_r.
      * now rewrite IH.
Qed.

(** X16: one key press counts exactly once.  It is a hit exactly when the
    key is an arrow key and is the lane of the first pending note inside the
    hit window; that first note is resolved by the press whatever arrow key
    was pressed (a wrong arrow uses it up), and no other note changes. *)
Theorem keyHandler_one_press (scr : Play.Screen) (k : string) (g : Play.Game) :
  let g' := Play.keyHandler scr k g in
  let t := Play.currentTime scr - Play.startTime scr in
  let xH := Play.width scr * 0.9 in
  (Play.hits g' + Play.misses g' = S (Play.hits g + Play.misses g))%nat /\
  (Play.hits g' = S (Play.hits g)
   <-> Play.includes Play.allowed k = true /\
       exists n, Play.target t xH (Play.notes g) = Some n /\ Play.key n = k) /\
  (Play.includes Play.allowed k = false \/ Play.target t xH (Play.notes g) = None ->
   Play.notes g' = Play.notes g) /\
  (forall n, Play.includes Play.allowed k = true ->
     Play.target t xH (Play.notes g) = Some n ->
     exists pre post,
       Play.notes g = pre ++ n :: post /\
       Forall (fun m => Play.pending m && Play.inWindow t xH m = false) pre /\
       Play.notes g' = pre ++ Play.resolve k n :: post /\
       Play.pending (Play.resolve k n) = false).
Proof.
  cbv zeta. unfold Play.keyHandler.
  destruct (Play.includes Play.allowed k) eqn:Ea; cbn [negb].
  - pose proof (keyLoop_target k (Play.currentTime scr - Play.startTime scr)
                  (Play.width scr * 0.9) (Play.notes g)) as H.
    destruct (Play.target _ _ (Play.notes g)) as [n|].
    + destruct H as (pre & post & Hns & Hpre & Hp & Hw & ->).
      destruct (String.eqb_spec k (Play.key n)) as [Hk | Hk];
        cbn [Play.countHit Play.countMiss Play.withNotes Play.hits Play.misses Play.notes].
      * split; [lia|]. split; [|split].
        -- split; [intros _; split; [reflexivity | now exists n] | reflexivity].
        -- intros [H | H]; discriminate.
        -- intros n' _ [= <-]. exists pre, post. repeat split; auto.
           apply resolve_not_pending.
      * split; [lia|]. split; [|split].
        -- split; [lia|]. intros (_ & n' & [= <-] & Hk'). now symmetry in Hk'.
        -- intros [H | H]; discriminate.
        -- intros n' _ [= <-]. exists pre, post. repeat split; auto.
           apply resolve_not_pending.
    + rewrite H. cbn [Play.countMiss Play.hits Play.misses Play.notes].
      split; [lia|]. split; [|split].
      * split; [lia|]. intros (_ & n' & Hn' & _). discriminate.
      * reflexivity.
      * intros n' _ Hn'. discriminate.
  - cbn [Play.countMiss Play.hits Play.misses Play.notes].
    split; [lia|]. split; [|split].
    + split; [lia|]. intros (H & _). discriminate.
    + reflexivity.
    + intros n' H. discriminate.
Qed.

(** *** Counters and flags *)

Lemma countOf_app (p : Play.PlayNote -> bool) (a b : list Play.PlayNote) :
  Play.countOf p (a ++ b) = (Play.countOf p a + Play.countOf p b)%nat.
Proof. unfold Play.countOf. now rewrite filter_app, length_app. Qed.

Lemma countOf_cons (p : Play.PlayNote -> bool) (n : Play.PlayNote) (l : list Play.PlayNote) :
  Play.countOf p (n :: l) = ((if p n then 1 else 0) + Play.countOf p l)%nat.
Proof. unfold Play.countOf. cbn [filter]. now destruct (p n). Qed.

Lemma countOf_le (p : Play.PlayNote -> bool) (l : list Play.PlayNote) :
  (Play.countOf p l <= length l)%nat.
Proof. apply filter_length_le. Qed.

Lemma consistent_start (canvasWidth : Q) (raw : list Note.t) :
  Play.consistent (Play.start canvasWidth raw).
Proof.
  unfold Play.consistent, Play.start, Play.spawnAllNotes.
  cbn [Play.notes Play.hits Play.misses Play.effects Play.sounds length Nat.add].
  set (l := Play.prepare canvasWidth raw). clearbody l.
  assert (H0 : forall p, (forall n, In n (map (fun n => Play.mkNote (fst n) (snd n) false false true) l) -> p n = false) ->
               Play.countOf p (map (fun n => Play.mkNote (fst n) (snd n) false false true) l) = 0%nat).
  { intros p Hp. unfold Play.countOf. rewrite filter_nothing; [reflexivity | exact Hp]. }
  split; [|split; [|split; [|split]]]; try reflexivity.
  - symmetry. apply H0. intros n Hn. apply in_map_iff in Hn as (x & <- & _). reflexivity.
  - rewrite H0; [lia|]. intros n Hn. apply in_map_iff in Hn as (x & <- & _). reflexivity.
  - apply Forall_forall. intros n Hn. apply in_map_iff in Hn as (x & <- & _). now split.
Qed.

Lemma consistent_countMiss (scr : Play.Screen) (x y : Q) (g : Play.Game) :
  Play.consistent g -> Play.consistent (Play.countMiss scr x y g).
Proof.
  intros (Hh & Hm & Hf & He & Hs). unfold Play.consistent, Play.countMiss.
  cbn [Play.notes Play.hits Play.misses Play.effects Play.sounds].
  rewrite !length_app. cbn [length]. repeat split; auto; lia.
Qed.

Lemma consistent_keyHandler (scr : Play.Screen) (k : string) (g : Play.Game) :
  Play.consistent g -> Play.consistent (Play.keyHandler scr k g).
Proof.
  intro Hg. unfold Play.keyHandler.
  destruct (negb (Play.includes Play.allowed k)); [now apply consistent_countMiss|].
  pose proof (keyLoop_target k (Play.currentTime scr - Play.startTime scr)
                (Play.width scr * 0.9) (Play.notes g)) as H.
  destruct (Play.target _ _ (Play.notes g)) as [n|];
    [|rewrite H; now apply consistent_countMiss].
  destruct H as (pre & post & Hns & _ & Hp & _ & ->).
  destruct Hg as (Hh & Hm & Hf & He & Hs). rewrite Hns in Hh, Hm, Hf.
  rewrite countOf_app, countOf_cons in Hh, Hm.
  apply Forall_app in Hf as (Hpre & Hf). inversion Hf as [|? ? (Hn1 & Hn2) Hpost]; subst.
  rewrite pending_flags in Hp. apply negb_true_iff, orb_false_iff in Hp as (Hhit & Hmiss).
  rewrite Hhit in Hh. rewrite Hmiss in Hm.
  unfold Play.consistent, Play.resolve.
  destruct (String.eqb k (Play.key n));
    cbn [Play.countHit Play.countMiss Play.withNotes Play.notes Play.hits Play.misses
         Play.effects Play.sounds];
    rewrite countOf_app, countOf_cons, countOf_app, countOf_cons, !length_app;
    cbn [Play.setHit Play.setMissed Play.hit Play.missed length]; rewrite ?Hhit, ?Hmiss;
    (split; [lia|]); (split; [lia|]); (split; [|lia]);
    apply Forall_app; (split; [exact Hpre|]); (constructor; [|exact Hpost]);
    unfold Play.pending; cbn [Play.setHit Play.setMissed Play.hit Play.missed Play.el];
    rewrite ?Hhit, ?Hmiss; now split.
Qed.

(** The pass of [gameLoop] over the notes marks the pending notes that are
    past the line and counts one miss for each. *)
Lemma gameLoopWalk_spec (scr : Play.Screen) (t xH : Q) (ns : list Play.PlayNote) :
  forall g,
    let r := Play.gameLoopWalk scr t xH ns g in
    fst r = map (fun n => if Play.passed t xH n then Play.setMissed n else n) ns /\
    Play.notes (snd r) = Play.notes g /\
    Play.hits (snd r) = Play.hits g /\
    Play.misses (snd r) = (Play.misses g + Play.countOf (Play.passed t xH) ns)%nat /\
    length (Play.effects (snd r))
    = (length (Play.effects g) + Play.countOf (Play.passed t xH) ns)%nat /\
    length (Play.sounds (snd r))
    = (length (Play.sounds g) + Play.countOf (Play.passed t xH) ns)%nat.
Proof.
  induction ns as [|n ns IH]; intro g; cbv zeta; cbn [Play.gameLoopWalk map].
  - unfold Play.countOf. cbn. repeat split; lia.
  - rewrite countOf_cons. destruct (Play.passed t xH n).
    + specialize (IH (Play.countMiss scr xH (Play.height scr / 2) g)). cbv zeta in IH.
      destruct (Play.gameLoopWalk scr t xH ns _) as [rest' g'].
      cbn [fst snd] in *. destruct IH as (-> & Hn & Hh & Hm & He & Hs).
      unfold Play.countMiss in Hn, Hh, Hm, He, Hs.
      cbn [Play.notes Play.hits Play.misses Play.effects Play.sounds] in Hn, Hh, Hm, He, Hs.
      rewrite length_app in He, Hs. cbn [length] in He, Hs.
      repeat split; auto; lia.
    + specialize (IH g). cbv zeta in IH.
      destruct (Play.gameLoopWalk scr t xH ns g) as [rest' g'].
      cbn [fst snd] in *. destruct IH as (-> & Hn & Hh & Hm & He & Hs).
      repeat split; auto.
Qed.

Lemma passed_marks (t xH : Q) (ns : list Play.PlayNote) :
  Forall (fun n => Play.hit n && Play.missed n = false /\ Play.el n = Play.pending n) ns ->
  let ns' := map (fun n => if Play.passed t xH n then Play.setMissed n else n) ns in
  Play.countOf Play.hit ns' = Play.countOf Play.hit ns /\
  Play.countOf Play.missed ns'
  = (Play.countOf Play.missed ns + Play.countOf (Play.passed t xH) ns)%nat /\
  Forall (fun n => Play.hit n && Play.missed n = false /\ Play.el n = Play.pending n) ns'.
Proof.
  cbv zeta. induction 1 as [|n ns (Hn1 & Hn2) Hns (IH1 & IH2 & IH3)]; cbn [map].
  - unfold Play.countOf. cbn. repeat split; constructor.
  - rewrite !countOf_cons, IH1, IH2.
    destruct (Play.passed t xH n) eqn:Ep.
    + unfold Play.passed in Ep. apply andb_true_iff in Ep as (Ep & _).
      rewrite pending_flags in Ep. apply negb_true_iff, orb_false_iff in Ep as (Hhit & Hmiss).
      cbn [Play.setMissed Play.hit Play.missed]. rewrite Hhit, Hmiss.
      split; [reflexivity|]. split; [lia|]. constructor; [|exact IH3].
      unfold Play.pending. cbn [Play.setMissed Play.hit Play.missed Play.el].
      rewrite Hhit. now split.
    + split; [reflexivity|]. split; [lia|]. constructor; [now split | exact IH3].
Qed.

Lemma consistent_gameLoop (scr : Play.Screen) (g : Play.Game) :
  Play.consistent g -> Play.consistent (Play.gameLoop scr g).
Proof.
  intros (Hh & Hm & Hf & He & Hs). unfold Play.gameLoop.
  pose proof (gameLoopWalk_spec scr (Play.currentTime scr - Play.startTime scr)
                (Play.width scr * 0.9) (Play.notes g) g) as H. cbv zeta in H.
  destruct (Play.gameLoopWalk scr _ _ (Play.notes g) g) as [ns g'].
  cbn [fst snd] in H. destruct H as (-> & _ & Hh' & Hm' & He' & Hs').
  destruct (passed_marks (Play.currentTime scr - Play.startTime scr)
              (Play.width scr * 0.9) (Play.notes g) Hf) as (P1 & P2 & P3).
  unfold Play.consistent, Play.withNotes.
  cbn [Play.notes Play.hits Play.misses Play.effects Play.sounds].
  rewrite P1, P2. repeat split; auto; lia.
Qed.

Lemma consistent_draw (scr : Play.Screen) (g : Play.Game) :
  Play.consistent g -> Play.consistent (Play.draw scr g).
Proof.
  intros (Hh & Hm & Hf & He & Hs). unfold Play.consistent, Play.draw.
  cbn [Play.notes Play.hits Play.misses Play.effects Play.sounds].
  pose proof (filter_length_le
                (fun e => Qlt_bool (Play.currentTime scr - Play.t0 e) 0.4)
                (Play.effects g)).
  repeat split; auto; lia.
Qed.

Lemma consistent_run (events : list Play.Event) :
  forall g, Play.consistent g -> Play.consistent (Play.run events g).
Proof.
  unfold Play.run. induction events as [|e events IH]; intros g Hg; cbn [fold_left]; [exact Hg|].
  apply IH.
  destruct e; [now apply consistent_keyHandler | now apply consistent_gameLoop
              | now apply consistent_draw].
Qed.

Lemma score_bounds (g : Play.Game) : 0 <= Play.score g <= 1.
Proof.
  unfold Play.score. destruct (Nat.eqb_spec (Play.hits g + Play.misses g) 0) as [E | E].
  - assert (Play.hits g = 0%nat) as -> by lia. cbn. split; discriminate.
  - set (h := Play.hits g) in *. set (m := Play.misses g) in *.
    assert (Hd : 0 < inject_Z (Z.of_nat (h + m))).
    { change 0 with (inject_Z 0). rewrite <- Zlt_Qlt. lia. }
    assert (Hh : 0 <= inject_Z (Z.of_nat h)).
    { change 0 with (inject_Z 0). rewrite <- Zle_Qle. lia. }
    assert (Hle : inject_Z (Z.of_nat h) <= inject_Z (Z.of_nat (h + m))).
    { rewrite <- Zle_Qle. lia. }
    split.
    + apply Qle_shift_div_l; [exact Hd | lra].
    + apply Qle_shift_div_r; [exact Hd | lra].
Qed.


(** *** Nothing is undone *)

Lemma settles_refl (n : Play.PlayNote) : Play.settles n n.
Proof. now repeat split. Qed.

Lemma settles_all_refl (ns : list Play.PlayNote) : Forall2 Play.settles ns ns.
Proof. induction ns; constructor; [apply settles_refl | assumption]. Qed.

Lemma settles_all_trans (a b : list Play.PlayNote) :
  Forall2 Play.settles a b -> forall c, Forall2 Play.settles b c -> Forall2 Play.settles a c.
Proof.
  induction 1 as [|x y a b (H1 & H2 & H3 & H4) Hab IH]; intros c Hc;
    inversion Hc as [|? z ? c' (G1 & G2 & G3 & G4) Hbc]; subst; constructor.
  - split; [congruence|]. split; [congruence|]. split.
    + intro Hp. rewrite <- (H3 Hp). apply G3. now rewrite (H3 Hp).
    + intro Hp. rewrite (G4 Hp). apply H4. now rewrite <- (G4 Hp).
  - now apply IH.
Qed.

Lemma settles_resolve (k : string) (n : Play.PlayNote) :
  Play.pending n = true -> Play.settles n (Play.resolve k n).
Proof.
  intro Hp. unfold Play.settles. rewrite resolve_not_pending, Hp.
  unfold Play.resolve. destruct (String.eqb k (Play.key n)); now repeat split.
Qed.

Lemma settles_setMissed (n : Play.PlayNote) :
  Play.pending n = true -> Play.settles n (Play.setMissed n).
Proof.
  intro Hp. unfold Play.settles. rewrite Hp. repeat split; try discriminate.
  unfold Play.pending. cbn. now rewrite orb_true_r.
Qed.

Lemma keyHandler_settles (scr : Play.Screen) (k : string) (g : Play.Game) :
  Forall2 Play.settles (Play.notes g) (Play.notes (Play.keyHandler scr k g)).
Proof.
  unfold Play.keyHandler.
  destruct (negb (Play.includes Play.allowed k)); [apply settles_all_refl|].
  pose proof (keyLoop_target k (Play.currentTime scr - Play.startTime scr)
                (Play.width scr * 0.9) (Play.notes g)) as H.
  destruct (Play.target _ _ (Play.notes g)) as [n|];
    [|rewrite H; apply settles_all_refl].
  destruct H as (pre & post & -> & _ & Hp & _ & ->).
  assert (Hs : Forall2 Play.settles (pre ++ n :: post) (pre ++ Play.resolve k n :: post)).
  { apply Forall2_app; [apply settles_all_refl|].
    constructor; [now apply settles_resolve | apply settles_all_refl]. }
  now destruct (String.eqb k (Play.key n)).
Qed.

Lemma gameLoop_settles (scr : Play.Screen) (g : Play.Game) :
  Forall2 Play.settles (Play.notes g) (Play.notes (Play.gameLoop scr g)).
Proof.
  unfold Play.gameLoop.
  pose proof (gameLoopWalk_spec scr (Play.currentTime scr - Play.startTime scr)
                (Play.width scr * 0.9) (Play.notes g) g) as H. cbv zeta in H.
  destruct (Play.gameLoopWalk scr _ _ (Play.notes g) g) as [ns g'].
  cbn [fst snd] in H. destruct H as (-> & _). cbn [Play.withNotes Play.notes].
  induction (Play.notes g) as [|n l IH]; cbn [map]; constructor; [|exact IH].
  destruct (Play.passed _ _ n) eqn:Ep; [|apply settles_refl].
  apply settles_setMissed. unfold Play.passed in Ep. now apply andb_true_iff in Ep.
Qed.

Lemma run_settles (events : list Play.Event) :
  forall g, Forall2 Play.settles (Play.notes g) (Play.notes (Play.run events g)).
Proof.
  unfold Play.run. induction events as [|e events IH]; intro g; cbn [fold_left].
  - apply settles_all_refl.
  - apply settles_all_trans with (Play.notes (Play.step g e)); [|apply IH].
    destruct e; [apply keyHandler_settles | apply gameLoop_settles | apply settles_all_refl].
Qed.

Lemma keyHandler_counts (scr : Play.Screen) (k : string) (g : Play.Game) :
  (Play.hits g <= Play.hits (Play.keyHandler scr k g) <= S (Play.hits g))%nat /\
  (Play.hits (Play.keyHandler scr k g) + Play.misses (Play.keyHandler scr k g)
   = S (Play.hits g + Play.misses g))%nat.
Proof.
  unfold Play.keyHandler.
  destruct (negb (Play.includes Play.allowed k)); [cbn; lia|].
  destruct (Play.keyLoop _ _ _ _) as [ns [| x |]]; cbn; lia.
Qed.

Lemma gameLoop_counts (scr : Play.Screen) (g : Play.Game) :
  Play.hits (Play.gameLoop scr g) = Play.hits g /\
  (Play.misses g <= Play.misses (Play.gameLoop scr g))%nat.
Proof.
  unfold Play.gameLoop.
  pose proof (gameLoopWalk_spec scr (Play.currentTime scr - Play.startTime scr)
                (Play.width scr * 0.9) (Play.notes g) g) as H. cbv zeta in H.
  destruct (Play.gameLoopWalk scr _ _ (Play.notes g) g) as [ns g'].
  cbn [fst snd] in H. destruct H as (_ & _ & Hh & Hm & _).
  cbn [Play.withNotes Play.hits Play.misses]. lia.
Qed.

(** X17: in every state a game can reach from its start by key presses,
    passes of [gameLoop] and frames drawn, the hit counter is the number of
    notes flagged hit, every note flagged missed has been counted as a miss,
    no note is both, a note's element is on the page exactly while the note
    is pending, each counted event played one sound and left at most one
    effect, there are as many notes as the chart has, and the score lies
    between 0 and 1. *)
Theorem reachable_game_consistent (canvasWidth : Q) (raw : list Note.t)
    (events : list Play.Event) :
  let g := Play.run events (Play.start canvasWidth raw) in
  Play.hits g = Play.countOf Play.hit (Play.notes g) /\
  (Play.countOf Play.missed (Play.notes g) <= Play.misses g)%nat /\
  Forall (fun n => Play.hit n && Play.missed n = false /\ Play.el n = Play.pending n)
         (Play.notes g) /\
  (length (Play.effects g) <= Play.hits g + Play.misses g)%nat /\
  length (Play.sounds g) = (Play.hits g + Play.misses g)%nat /\
  length (Play.notes g) = length raw /\
  (Play.hits g <= length raw)%nat /\
  0 <= Play.score g <= 1.
Proof.
  cbv zeta.
  destruct (consistent_run events _ (consistent_start canvasWidth raw))
    as (Hh & Hm & Hf & He & Hs).
  assert (Hlen : length (Play.notes (Play.run events (Play.start canvasWidth raw)))
                = length raw).
  { rewrite <- (Forall2_length (run_settles events (Play.start canvasWidth raw))).
    unfold Play.start, Play.spawnAllNotes, Play.prepare. cbn [Play.notes].
    now rewrite !length_map. }
  repeat split; auto; try apply score_bounds.
  rewrite Hh, <- Hlen. apply countOf_le.
Qed.

(** X18: whatever happens later, a note keeps its spawn time and its lane,
    a note that is hit or missed never changes again, and a note still
    pending is untouched; the counters never go down, every key press adds
    exactly one to hits or misses, and when [gameLoop] does not run the two
    counters grow by the number of key presses. *)
Theorem resolved_notes_stay (events : list Play.Event) (g : Play.Game) :
  let g' := Play.run events g in
  let presses := length (filter Play.isKeyDown events) in
  Forall2 Play.settles (Play.notes g) (Play.notes g') /\
  (Play.hits g <= Play.hits g' <= Play.hits g + presses)%nat /\
  (Play.misses g <= Play.misses g')%nat /\
  (Play.hits g + Play.misses g + presses <= Play.hits g' + Play.misses g')%nat /\
  (existsb Play.isFrame events = false ->
   (Play.hits g' + Play.misses g' = Play.hits g + Play.misses g + presses)%nat).
Proof.
  cbv zeta. split; [apply run_settles|].
  unfold Play.run. revert g.
  induction events as [|e events IH]; intro g; cbn [fold_left filter existsb length].
  - repeat split; lia.
  - specialize (IH (Play.step g e)). destruct IH as (H1 & H2 & H3 & H4).
    destruct e as [scr k | scr | scr];
      cbn [Play.step Play.isKeyDown Play.isFrame orb length] in *.
    + pose proof (keyHandler_counts scr k g) as (K1 & K2).
      split; [lia|]. split; [lia|]. split; [lia|]. intro Hall. specialize (H4 Hall). lia.
    + pose proof (gameLoop_counts scr g) as (K1 & K2).
      split; [lia|]. split; [lia|]. split; [lia|]. discriminate.
    + cbn [Play.draw Play.hits Play.misses] in *.
      split; [lia|]. split; [lia|]. split; [lia|]. intro Hall. specialize (H4 Hall). lia.
Qed.

(** X19: the score passed to [onEnd] is the share of hits among the counted
    events: it lies between 0 and 1, is 0 exactly when nothing was hit
    (also when nothing was counted at all), and is 1 exactly when something
    was hit and nothing missed. *)
Theorem score_is_hit_share (g : Play.Game) :
  0 <= Play.score g <= 1 /\
  Play.score g * inject_Z (Z.of_nat (Play.hits g + Play.misses g))
  == inject_Z (Z.of_nat (Play.hits g)) /\
  (Play.score g == 0 <-> Play.hits g = 0%nat) /\
  (Play.score g == 1 <-> (0 < Play.hits g)%nat /\ Play.misses g = 0%nat).
Proof.
  split; [apply score_bounds|]. unfold Play.score.
  generalize (Play.hits g), (Play.misses g). intros h m.
  destruct (Nat.eqb_spec (h + m) 0) as [E | E].
  - assert (h = 0%nat) as -> by lia. assert (m = 0%nat) as -> by lia. cbn.
    split; [reflexivity|]. split; split; auto; try reflexivity; try discriminate.
    intros (H & _). lia.
  - assert (Hd : 0 < inject_Z (Z.of_nat (h + m))).
    { change 0 with (inject_Z 0). rewrite <- Zlt_Qlt. lia. }
    assert (Hsum : inject_Z (Z.of_nat (h + m)) == inject_Z (Z.of_nat h) + inject_Z (Z.of_nat m)).
    { rewrite Nat2Z.inj_add, inject_Z_plus. reflexivity. }
    assert (Hm : 0 <= inject_Z (Z.of_nat m)).
    { change 0 with (inject_Z 0). rewrite <- Zle_Qle. lia. }
    assert (Hnz : ~ inject_Z (Z.of_nat (h + m)) == 0).
    { intro Hz. rewrite Hz in Hd. discriminate. }
    split; [now field|]. split; split.
    + intro H. assert (H0 : inject_Z (Z.of_nat h) == 0).
      { setoid_replace (inject_Z (Z.of_nat h))
          with (inject_Z (Z.of_nat h) / inject_Z (Z.of_nat (h + m)) * inject_Z (Z.of_nat (h + m)))
          by now field. rewrite H. ring. }
      change 0 with (inject_Z 0) in H0. rewrite inject_Z_injective in H0. lia.
    + intros ->. cbn. unfold Qdiv. ring.
    + intro H. assert (H0 : inject_Z (Z.of_nat h) == inject_Z (Z.of_nat (h + m))).
      { setoid_replace (inject_Z (Z.of_nat h))
          with (inject_Z (Z.of_nat h) / inject_Z (Z.of_nat (h + m)) * inject_Z (Z.of_nat (h + m)))
          at 1 by now field. rewrite H. ring. }
      rewrite inject_Z_injective in H0. lia.
    + intros (Hpos & Hm0). rewrite Hm0, Nat.add_0_r in Hnz |- *. now field.
Qed.

(** *** Playing a chart *)

Lemma keyLoop_on_time (k : string) (t xH : Q) (p : Play.PlayNote) (post : list Play.PlayNote) :
  Play.pending p = true -> Play.inWindow t xH p = true -> k = Play.key p ->
  forall done, Forall (fun m => Play.hit m = true /\ Play.missed m = false) done ->
    Play.keyLoop k t xH (done ++ p :: post) = (done ++ Play.setHit p :: post, Play.Hit).
Proof.
  intros Hp Hw ->. induction 1 as [|m done (Hm & _) Hdone IH]; cbn [app Play.keyLoop].
  - rewrite pending_flags in Hp. apply negb_true_iff in Hp. rewrite Hp, Hw.
    now rewrite String.eqb_refl.
  - rewrite Hm. cbn [orb]. now rewrite IH.
Qed.

Lemma perfectPlay_from (scr : Play.Screen) (raw : list Note.t) :
  (forall n, In n raw -> Play.includes Play.allowed (Note.key n) = true) ->
  forall done g,
    Play.notes g = done ++ Play.spawnAllNotes (Play.prepare (Play.width scr) raw) ->
    Forall (fun m => Play.hit m = true /\ Play.missed m = false) done ->
    let g' := Play.run (Play.perfectPlay scr raw) g in
    Play.hits g' = (Play.hits g + length raw)%nat /\
    Play.misses g' = Play.misses g /\
    Forall (fun m => Play.hit m = true /\ Play.missed m = false) (Play.notes g').
Proof.
  unfold Play.run, Play.perfectPlay.
  induction raw as [|n raw IH]; intros Hkeys done g Hnotes Hdone; cbv zeta;
    cbn [map fold_left length].
  - unfold Play.spawnAllNotes, Play.prepare in Hnotes. cbn [map] in Hnotes.
    rewrite app_nil_r in Hnotes. rewrite Hnotes, Nat.add_0_r. now repeat split.
  - unfold Play.spawnAllNotes, Play.prepare in Hnotes. cbn [map fst snd] in Hnotes.
    fold (Play.prepare (Play.width scr) raw) in Hnotes.
    fold (Play.spawnAllNotes (Play.prepare (Play.width scr) raw)) in Hnotes.
    set (p := Play.mkNote (Note.time n - Play.width scr * 0.9 / Play.speed + 0.1)
                (Note.key n) false false true) in Hnotes.
    set (g1 := Play.step g (Play.onTime scr n)).
    assert (Hg1 : g1 = Play.countHit
                         (Play.mkScreen (Play.startTime scr + (Note.time n + 0.1))
                            (Play.startTime scr) (Play.width scr) (Play.height scr))
                         (Play.width scr * 0.9) (Play.height scr / 2)
                         (Play.withNotes
                            (done ++ Play.setHit p
                               :: Play.spawnAllNotes (Play.prepare (Play.width scr) raw)) g)).
    { unfold g1, Play.step, Play.onTime, Play.keyHandler.
      rewrite (Hkeys n) by now left. cbn [negb Play.width Play.height Play.currentTime
                                           Play.startTime].
      rewrite Hnotes. rewrite keyLoop_on_time; auto.
      destruct (spawned_note_window (Play.width scr) (Play.width scr)
                  (Play.startTime scr + (Note.time n + 0.1) - Play.startTime scr)
                  (Note.time n) (Note.key n)) as (_ & Hw & _).
      apply Hw.
      setoid_replace (Play.startTime scr + (Note.time n + 0.1) - Play.startTime scr
                      - (Note.time n + 0.1
                         + (Play.width scr - Play.width scr) * 0.9 / Play.speed))
        with 0 by (unfold Play.speed; field).
      reflexivity. }
    destruct (IH (fun m Hm => Hkeys m (or_intror Hm)) (done ++ [Play.setHit p]) g1)
      as (Hh & Hm & Hall).
    + rewrite Hg1. cbn [Play.countHit Play.withNotes Play.notes].
      now rewrite <- app_assoc.
    + apply Forall_app. split; [exact Hdone|]. now repeat constructor.
    + cbv zeta in Hh, Hm, Hall. rewrite Hh, Hm. rewrite Hg1.
      cbn [Play.countHit Play.withNotes Play.hits Play.misses].
      split; [lia|]. split; [reflexivity|]. rewrite <- Hg1. exact Hall.
Qed.

Lemma score_without_miss (g : Play.Game) :
  (0 < Play.hits g)%nat -> Play.misses g = 0%nat -> Play.score g == 1.
Proof.
  intros Hpos Hm. unfold Play.score. rewrite Hm, Nat.add_0_r.
  destruct (Nat.eqb_spec (Play.hits g) 0) as [E | _]; [lia|].
  assert (Hnz : ~ inject_Z (Z.of_nat (Play.hits g)) == 0).
  { change 0 with (inject_Z 0). rewrite inject_Z_injective. lia. }
  now field.
Qed.

Lemma lanes_allowed (k : string) : In k lanes -> Play.includes Play.allowed k = true.
Proof.
  unfold lanes, strongLanes, weakLanes. cbn [app In].
  intros [<- | [<- | [<- | [<- | []]]]]; reflexivity.
Qed.

(** X20: when the player presses, in the order of the chart, the lane of
    every note at the moment the note is on the hit line, every press is a
    hit: the hit counter ends at the number of notes, nothing is missed,
    every note is flagged hit, and the score of a chart with a note is 1.
    This holds for any chart whose lanes are arrow keys, whatever its order
    and however close its notes are. *)
Theorem perfect_play_hits_every_note (scr : Play.Screen) (raw : list Note.t) :
  (forall n, In n raw -> Play.includes Play.allowed (Note.key n) = true) ->
  let g := Play.run (Play.perfectPlay scr raw) (Play.start (Play.width scr) raw) in
  Play.hits g = length raw /\ Play.misses g = 0%nat /\
  Forall (fun m => Play.hit m = true /\ Play.missed m = false) (Play.notes g) /\
  (raw <> [] -> Play.score g == 1).
Proof.
  intro Hkeys. cbv zeta.
  destruct (perfectPlay_from scr raw Hkeys [] (Play.start (Play.width scr) raw))
    as (Hh & Hm & Hall); [reflexivity | constructor |].
  cbv zeta in Hh, Hm, Hall. cbn [Play.start Play.hits Play.misses Nat.add] in Hh, Hm.
  split; [exact Hh|]. split; [exact Hm|]. split; [exact Hall|].
  intro Hne. apply score_without_miss; [|exact Hm].
  rewrite Hh. destruct raw; [congruence | cbn [length]; lia].
Qed.

(** A chart of two notes a millisecond apart, not in time order. *)
Lemma perfect_play_hits_every_note_sample :
  (forall n, In n Play.sampleChart -> Play.includes Play.allowed (Note.key n) = true) /\
  Play.hits (Play.run (Play.perfectPlay Play.sampleScreen Play.sampleChart)
               (Play.start (Play.width Play.sampleScreen) Play.sampleChart)) = 2%nat /\
  Play.misses (Play.run (Play.perfectPlay Play.sampleScreen Play.sampleChart)
                 (Play.start (Play.width Play.sampleScreen) Play.sampleChart)) = 0%nat.
Proof.
  assert (H : forall n, In n Play.sampleChart ->
                Play.includes Play.allowed (Note.key n) = true).
  { intros n [<- | [<- | []]]; reflexivity. }
  split; [exact H|].
  destruct (perfect_play_hits_every_note Play.sampleScreen Play.sampleChart H)
    as (Hh & Hm & _).
  split; [exact Hh | exact Hm].
Defined.

Section Playable.
Context {host : Host}.

(** X21: every lane of a chart that [generateLevel] returns is a key that
    [keyHandler] accepts, and a player who presses each note of that chart
    on time hits every note, misses nothing and ends with the score 1. *)
Theorem returned_chart_playable (fuel : nat) (audioBuffer : AudioBuffer) (d : Difficulty)
    (notes : list Note.t) (scr : Play.Screen) :
  generateLevel fuel audioBuffer d = Some notes ->
  (forall n, In n notes -> Play.includes Play.allowed (Note.key n) = true) /\
  Play.hits (Play.run (Play.perfectPlay scr notes) (Play.start (Play.width scr) notes))
  = length notes /\
  Play.misses (Play.run (Play.perfectPlay scr notes) (Play.start (Play.width scr) notes))
  = 0%nat /\
  Play.score (Play.run (Play.perfectPlay scr notes) (Play.start (Play.width scr) notes))
  == 1.
Proof.
  intro Hrun.
  assert (Hne : notes <> []) by now apply generateLevel_nonempty with fuel audioBuffer d.
  assert (Hkeys : forall n, In n notes -> Play.includes Play.allowed (Note.key n) = true).
  { apply generateLevel_chart in Hrun as (beat & _ & ->).
    intros n Hn. apply lanes_allowed. apply chartNotes_In in Hn.
    now apply assignKeys_lane in Hn. }
  destruct (perfectPlay_from scr notes Hkeys [] (Play.start (Play.width scr) notes))
    as (Hh & Hm & _); [reflexivity | constructor |].
  cbv zeta in Hh, Hm. cbn [Play.start Play.hits Play.misses Nat.add] in Hh, Hm.
  split; [exact Hkeys|]. split; [exact Hh|]. split; [exact Hm|].
  apply score_without_miss; [|exact Hm].
  rewrite Hh. destruct notes; [congruence | cbn [length]; lia].
Qed.

End Playable.

(** The easy chart of the sample buffer, played on time. *)
Lemma returned_chart_playable_sample :
  (forall n, In n sampleNotes -> Play.includes Play.allowed (Note.key n) = true) /\
  Play.hits (Play.run (Play.perfectPlay Play.sampleScreen sampleNotes)
               (Play.start (Play.width Play.sampleScreen) sampleNotes))
  = length sampleNotes /\
  Play.misses (Play.run (Play.perfectPlay Play.sampleScreen sampleNotes)
                 (Play.start (Play.width Play.sampleScreen) sampleNotes))
  = 0%nat /\
  Play.score (Play.run (Play.perfectPlay Play.sampleScreen sampleNotes)
                (Play.start (Play.width Play.sampleScreen) sampleNotes))
  == 1.
Proof.
  exact (@returned_chart_playable sampleHost 10 sampleBuffer easy sampleNotes
           Play.sampleScreen sampleNotes_returned).
Defined.

(** *** The visualizer *)




(** ** The level list *)

Lemma split_segments (sep : ascii) (s : Levels.JsString) :
  exists h t,
    Levels.split sep s = h :: t /\ ~ In sep h /\
    ((t = [] /\ s = h) \/
     (t <> [] /\ ~ In sep (last t []) /\ exists d, s = d ++ sep :: last t [])).
Proof.
  induction s as [|c rest (h & t & Hs & Hh & IH)]; cbn [Levels.split].
  - exists [], []. split; [reflexivity|]. split; [intros []|]. now left.
  - rewrite Hs. destruct (Ascii.eqb_spec c sep) as [-> | Hne].
    + exists [], (h :: t). split; [reflexivity|]. split; [intros []|]. right.
      split; [discriminate|].
      destruct IH as [(-> & ->) | (Ht & Hl & d & ->)].
      * split; [exact Hh|]. now exists [].
      * assert (E : last (h :: t) [] = last t []) by (destruct t; [congruence | reflexivity]).
        rewrite E. split; [exact Hl|]. now exists (sep :: d).
    + exists (c :: h), t. split; [reflexivity|].
      split; [intros [E | Hin]; [now apply Hne | now apply Hh]|].
      destruct IH as [(-> & ->) | (Ht & Hl & d & ->)]; [now left|].
      right. split; [exact Ht|]. split; [exact Hl|]. now exists (c :: d).
Qed.

(** The last path segment: what follows the last slash. *)
Lemma fileOf_last_segment (href : Levels.JsString) :
  ~ In Levels.slash (Levels.fileOf href) /\
  (href = Levels.fileOf href \/
   exists d, href = d ++ Levels.slash :: Levels.fileOf href).
Proof.
  unfold Levels.fileOf, Levels.pop.
  destruct (split_segments Levels.slash href) as (h & t & -> & Hh & H).
  destruct H as [(-> & ->) | (Ht & Hl & d & ->)].
  - split; [exact Hh | now left].
  - assert (E : last (h :: t) [] = last t []) by (destruct t; [congruence | reflexivity]).
    rewrite E. split; [exact Hl|]. right. now exists d.
Qed.

Lemma startsWith_iff (pat s : Levels.JsString) :
  Levels.startsWith pat s = true <-> exists b, s = pat ++ b.
Proof.
  revert s. induction pat as [|p pat IH]; intro s; cbn [Levels.startsWith app].
  - split; [intros _; now exists s | reflexivity].
  - destruct s as [|c s]; [split; [discriminate | intros (b & Hb); discriminate]|].
    rewrite andb_true_iff, IH. split.
    + intros (E & b & ->). apply Ascii.eqb_eq in E as ->. now exists b.
    + intros (b & [= -> ->]). split; [apply Ascii.eqb_refl | now exists b].
Qed.

Lemma endsWith_iff (s suffix : Levels.JsString) :
  Levels.endsWith s suffix = true <-> exists name, s = name ++ suffix.
Proof.
  unfold Levels.endsWith. split.
  - destruct (Nat.ltb_spec (length s) (length suffix)) as [Hlt | Hge]; [discriminate|].
    destruct (list_eq_dec _ _ _) as [E | _]; [|discriminate].
    intros _. exists (firstn (length s - length suffix) s).
    transitivity (firstn (length s - length suffix) s
                  ++ skipn (length s - length suffix) s);
      [symmetry; apply firstn_skipn | f_equal; exact E].
  - intros (name & ->). rewrite length_app.
    destruct (Nat.ltb_spec (length name + length suffix) (length suffix)) as [Hlt | _]; [lia|].
    replace (length name + length suffix - length suffix)%nat with (length name) by lia.
    rewrite skipn_app, skipn_all, Nat.sub_diag. cbn [skipn app].
    now destruct (list_eq_dec _ _ _).
Qed.

(** [replace] rewrites the leftmost occurrence of the pattern, if there is
    one. *)
Lemma replace_leftmost (pat by_ : Levels.JsString) (s : Levels.JsString) :
  pat <> [] ->
  ((forall a b, s <> a ++ pat ++ b) /\ Levels.replace pat by_ s = s) \/
  (exists a b, s = a ++ pat ++ b /\ Levels.replace pat by_ s = a ++ by_ ++ b /\
               forall a' b', s = a' ++ pat ++ b' -> (length a <= length a')%nat).
Proof.
  intro Hpat. induction s as [|c rest IH]; cbn [Levels.replace].
  - left. destruct pat as [|p pat]; [congruence|]. cbn [Levels.startsWith]. split; [|reflexivity].
    intros a b E. symmetry in E. apply app_eq_nil in E as (_ & E). discriminate.
  - destruct (Levels.startsWith pat (c :: rest)) eqn:Es.
    + right. apply startsWith_iff in Es as (b & Hb). exists [], b. cbn [app length].
      split; [exact Hb|]. split; [|intros; lia].
      rewrite Hb, skipn_app, skipn_all, Nat.sub_diag. reflexivity.
    + assert (Hno : forall b, c :: rest <> pat ++ b).
      { intros b Hb. assert (Levels.startsWith pat (c :: rest) = true)
          by (apply startsWith_iff; now exists b). congruence. }
      destruct IH as [(Hnone & ->) | (a & b & -> & -> & Hmin)].
      * left. split; [|reflexivity]. intros a b E. destruct a as [|x a].
        -- now apply (Hno b).
        -- injection E as -> E. now apply (Hnone a b).
      * right. exists (c :: a), b. split; [reflexivity|]. split; [reflexivity|].
        intros a' b' E. destruct a' as [|x a'].
        -- exfalso. now apply (Hno b').
        -- injection E as -> E. cbn [length]. apply le_n_S. now apply Hmin with b'.
Qed.

(** X23: every file of the level list is the part of a link's address after
    its last slash, holds no slash, and ends in [.mp3].  The name shown for
    it is the file name without the leftmost [.mp3] in it, four code units
    shorter; it is the file name without its extension exactly when [.mp3]
    occurs nowhere before the end of the file name. *)
Theorem level_files_and_names (hrefs : list Levels.JsString) (file : Levels.JsString) :
  In file (Levels.levelFiles hrefs) ->
  (exists href, In href hrefs /\ file = Levels.fileOf href /\
                (href = file \/ exists d, href = d ++ Levels.slash :: file)) /\
  ~ In Levels.slash file /\
  (exists name, file = name ++ Levels.mp3) /\
  (exists a b, file = a ++ Levels.mp3 ++ b /\ Levels.stem file = a ++ b /\
               forall a' b', file = a' ++ Levels.mp3 ++ b' -> (length a <= length a')%nat) /\
  length (Levels.stem file) = (length file - 4)%nat /\
  ((forall a b, file = a ++ Levels.mp3 ++ b -> b = []) ->
   file = Levels.stem file ++ Levels.mp3).
Proof.
  unfold Levels.levelFiles. intro Hin. apply filter_In in Hin as (Hmap & Hend).
  apply in_map_iff in Hmap as (href & <- & Hhref).
  destruct (fileOf_last_segment href) as (Hslash & Hseg).
  apply endsWith_iff in Hend as (name & Hname).
  set (file := Levels.fileOf href) in *.
  assert (Hpat : Levels.mp3 <> []) by discriminate.
  destruct (replace_leftmost Levels.mp3 [] file Hpat)
    as [(Hnone & _) | (a & b & Hab & Hstem & Hmin)].
  { exfalso. apply (Hnone name []). now rewrite app_nil_r. }
  cbn [app] in Hstem. fold (Levels.stem file) in Hstem.
  split; [exists href; now repeat split|]. split; [exact Hslash|].
  split; [now exists name|]. split; [now exists a, b|]. split.
  - rewrite Hstem, Hab, !length_app. cbn [Levels.mp3 list_ascii_of_string length]. lia.
  - intro Hlast. rewrite Hstem, (Hlast a b Hab), app_nil_r.
    rewrite Hab at 1. now rewrite (Hlast a b Hab), app_nil_r.
Qed.

(** The listing of a directory with one song. *)
Lemma level_files_and_names_sample :
  In (list_ascii_of_string "My%20Song.mp3") (Levels.levelFiles Levels.sampleHrefs) /\
  ~ In Levels.slash (list_ascii_of_string "My%20Song.mp3") /\
  length (Levels.stem (list_ascii_of_string "My%20Song.mp3"))
  = (length (list_ascii_of_string "My%20Song.mp3") - 4)%nat.
Proof.
  assert (H : In (list_ascii_of_string "My%20Song.mp3")
                 (Levels.levelFiles Levels.sampleHrefs)) by (vm_compute; now left).
  split; [exact H|].
  destruct (level_files_and_names Levels.sampleHrefs _ H)
    as (_ & Hslash & _ & _ & Hlen & _).
  split; [exact Hslash | exact Hlen].
Defined.

(** *** A pass of [gameLoop] *)

Lemma gameLoopWalk_nothing_passed (scr : Play.Screen) (t xH : Q) (ns : list Play.PlayNote) :
  (forall n, In n ns -> Play.passed t xH n = false) ->
  forall g, Play.gameLoopWalk scr t xH ns g = (ns, g).
Proof.
  induction ns as [|n ns IH]; intros Hno g; cbn [Play.gameLoopWalk]; [reflexivity|].
  rewrite (Hno n) by now left. rewrite IH; [reflexivity|].
  intros m Hm. apply Hno. now right.
Qed.

Lemma setMissed_not_passed (t xH : Q) (n : Play.PlayNote) :
  Play.passed t xH (Play.setMissed n) = false.
Proof. unfold Play.passed, Play.pending. cbn. now rewrite orb_true_r. Qed.

(** X24: a pass of [gameLoop] flags as missed exactly the pending notes that
    are more than 30 pixels past the hit line, counts one miss, one effect
    and one sound for each of them, and leaves the hits and every other note
    alone; after it no note is in that position any more, so a second pass
    at the same moment changes nothing. *)
Theorem gameLoop_gives_up_passed_notes (scr : Play.Screen) (g : Play.Game) :
  let g' := Play.gameLoop scr g in
  let t := Play.currentTime scr - Play.startTime scr in
  let xH := Play.width scr * 0.9 in
  let given_up := Play.countOf (Play.passed t xH) (Play.notes g) in
  Play.notes g' = map (fun n => if Play.passed t xH n then Play.setMissed n else n)
                      (Play.notes g) /\
  Play.hits g' = Play.hits g /\
  Play.misses g' = (Play.misses g + given_up)%nat /\
  length (Play.effects g') = (length (Play.effects g) + given_up)%nat /\
  length (Play.sounds g') = (length (Play.sounds g) + given_up)%nat /\
  (forall n, In n (Play.notes g') -> Play.passed t xH n = false) /\
  Play.gameLoop scr g' = g'.
Proof.
  cbv zeta.
  set (t := Play.currentTime scr - Play.startTime scr).
  set (xH := Play.width scr * 0.9).
  assert (Hg : exists g1,
            Play.gameLoop scr g
            = Play.withNotes
                (map (fun n => if Play.passed t xH n then Play.setMissed n else n)
                   (Play.notes g)) g1 /\
            Play.hits g1 = Play.hits g /\
            Play.misses g1 = (Play.misses g + Play.countOf (Play.passed t xH) (Play.notes g))%nat /\
            length (Play.effects g1)
            = (length (Play.effects g) + Play.countOf (Play.passed t xH) (Play.notes g))%nat /\
            length (Play.sounds g1)
            = (length (Play.sounds g) + Play.countOf (Play.passed t xH) (Play.notes g))%nat).
  { unfold Play.gameLoop. fold t xH.
    pose proof (gameLoopWalk_spec scr t xH (Play.notes g) g) as H. cbv zeta in H.
    destruct (Play.gameLoopWalk scr t xH (Play.notes g) g) as [ns g1].
    cbn [fst snd] in H. destruct H as (-> & _ & Hh & Hm & He & Hs).
    exists g1. now repeat split. }
  destruct Hg as (g1 & -> & Hh & Hm & He & Hs).
  cbn [Play.withNotes Play.notes Play.hits Play.misses Play.effects Play.sounds].
  assert (Hnone : forall n,
            In n (map (fun n => if Play.passed t xH n then Play.setMissed n else n)
                    (Play.notes g)) ->
            Play.passed t xH n = false).
  { intros n Hn. apply in_map_iff in Hn as (m & <- & _).
    destruct (Play.passed t xH m) eqn:E; [apply setMissed_not_passed | exact E]. }
  split; [reflexivity|]. split; [exact Hh|]. split; [exact Hm|]. split; [exact He|].
  split; [exact Hs|]. split; [exact Hnone|].
  unfold Play.gameLoop. fold t xH. cbn [Play.notes].
  rewrite gameLoopWalk_nothing_passed by exact Hnone. reflexivity.
Qed.

(** *** The leading onset *)

Lemma findIndexFrom_first (p : Q -> bool) (l : list Q) :
  forall i k, findIndexFrom p l i = Some k ->
    p (nth (k - i) l 0) = true /\
    forall j, (j < k - i)%nat -> p (nth j l 0) = false.
Proof.
  induction l as [|v l IH]; intros i k H; [discriminate|].
  cbn [findIndexFrom] in H. destruct (p v) eqn:E.
  - injection H as <-. rewrite Nat.sub_diag. split; [exact E | intros j Hj; lia].
  - pose proof (findIndexFrom_bound p l (S i) k H) as Hb.
    destruct (IH (S i) k H) as (Hk & Hmin).
    replace (k - i)%nat with (S (k - S i)) by lia. split; [exact Hk|].
    intros [|j] Hj; [exact E|]. apply Hmin. lia.
Qed.

Lemma findIndexFrom_nowhere (p : Q -> bool) (l : list Q) :
  forall i, findIndexFrom p l i = None -> forall v, In v l -> p v = false.
Proof.
  induction l as [|v l IH]; intros i H w Hw; [destruct Hw|].
  cbn [findIndexFrom] in H. destruct (p v) eqn:E; [discriminate|].
  destruct Hw as [<- | Hw]; [exact E | now apply IH with (S i)].
Qed.

Section Leading.
Context {host : Host}.

Lemma loose_threshold_below (d : Difficulty) (smoothedOdf : list Q) :
  (forall x, 0 <= Math_sqrt x) ->
  meanOdf smoothedOdf + stdOdf smoothedOdf * 0.1 <= dynamicThreshold d smoothedOdf.
Proof.
  intro Hsqrt. pose proof (stdOdf_nonneg smoothedOdf Hsqrt) as Hstd.
  unfold dynamicThreshold. destruct d; unfold odfSensitivity; lra.
Qed.

(** X25: when no smoothed value exceeds the loose threshold
    [meanOdf + stdOdf * 0.1] there is no candidate at all; otherwise there is
    one, and the first candidate lies at most 0.1 s after the first frame
    whose smoothed value exceeds that threshold, and not before it. *)
Theorem first_candidate_near_first_strong_frame (d : Difficulty) (sr : Q) (rms : list Q) :
  (forall x, 0 <= Math_sqrt x) -> 0 < sr ->
  match firstStrongOdfIdx (smoothOdf (onsetCurve rms)) with
  | None => detectOnsets d sr rms = []
  | Some idx =>
      (idx < length (smoothOdf (onsetCurve rms)))%nat /\
      exists first rest,
        detectOnsets d sr rms = first :: rest /\
        frameTime sr idx <= Onset.time first <= frameTime sr idx + 0.1
  end.
Proof.
  intros Hsqrt Hsr. set (s := smoothOdf (onsetCurve rms)).
  pose proof (loose_threshold_below d s Hsqrt) as Hthr.
  assert (Hsorted : detectOnsets d sr rms = rescueLeading sr rms s (pickPeaks d sr rms s)).
  { unfold detectOnsets. fold s. apply sortBy_of_sorted.
    apply StronglySorted_weaken with earlier;
      [intros a b Hab; now apply Qlt_le_weak|].
    apply rescueLeading_ascending. now apply pickPeaks_ascending. }
  rewrite Hsorted. unfold rescueLeading.
  destruct (firstStrongOdfIdx s) as [idx|] eqn:E.
  - unfold firstStrongOdfIdx in E.
    pose proof (findIndexFrom_bound _ _ _ _ E) as Hb.
    destruct (findIndexFrom_first _ _ _ _ E) as (_ & Hmin).
    rewrite Nat.sub_0_r in Hmin.
    split; [lia|].
    assert (Hpeaks : forall o, In o (pickPeaks d sr rms s) -> frameTime sr idx <= Onset.time o).
    { intros o Ho. unfold pickPeaks in Ho. rewrite peakLoop_filter in Ho.
      apply in_map_iff in Ho as (i & <- & Hi). apply filter_In in Hi as (_ & Hi).
      apply isPeak_iff in Hi as (Hi & _). unfold onsetAt. cbn [Onset.time].
      destruct (Nat.lt_ge_cases i idx) as [Hlt | Hge].
      - specialize (Hmin i Hlt). apply Qlt_bool_false in Hmin. lra.
      - destruct (Nat.eq_dec i idx) as [-> | Hne]; [apply Qle_refl|].
        apply Qlt_le_weak, frameTime_increasing; [exact Hsr | lia]. }
    destruct (pickPeaks d sr rms s) as [|first rest] eqn:Ep.
    + eexists _, _. split; [reflexivity|]. unfold onsetAt. cbn [Onset.time]. lra.
    + destruct (Qlt_bool (frameTime sr idx + 0.1) (Onset.time first)) eqn:El.
      * eexists _, _. split; [reflexivity|]. unfold onsetAt. cbn [Onset.time]. lra.
      * apply Qlt_bool_false in El. exists first, rest. split; [reflexivity|].
        split; [apply Hpeaks; now left | exact El].
  - unfold firstStrongOdfIdx in E.
    pose proof (findIndexFrom_nowhere _ _ _ E) as Hnone.
    unfold pickPeaks. rewrite peakLoop_filter, filter_nothing; [reflexivity|].
    intros i Hi. apply in_seq in Hi.
    destruct (isPeak (dynamicThreshold d s) s i) eqn:Ei; [|reflexivity].
    apply isPeak_iff in Ei as (Ei & _).
    assert (Hin : In (nth i s 0) s) by (apply nth_In; lia).
    specialize (Hnone _ Hin). apply Qlt_bool_false in Hnone. lra.
Qed.

End Leading.

(** The envelope with two attacks, at 44.1 kHz. *)
Lemma first_candidate_near_first_strong_frame_sample :
  (forall x, 0 <= @Math_sqrt sampleHost x) /\ 0 < 44100 /\
  match @firstStrongOdfIdx sampleHost (smoothOdf (onsetCurve attackEnvelope)) with
  | None => @detectOnsets sampleHost easy 44100 attackEnvelope = []
  | Some idx =>
      (idx < length (smoothOdf (onsetCurve attackEnvelope)))%nat /\
      exists first rest,
        @detectOnsets sampleHost easy 44100 attackEnvelope = first :: rest /\
        frameTime 44100 idx <= Onset.time first <= frameTime 44100 idx + 0.1
  end.
Proof.
  split; [exact sqrtLower_nonneg|]. split; [reflexivity|].
  exact (@first_candidate_near_first_strong_frame sampleHost easy 44100
           attackEnvelope sqrtLower_nonneg eq_refl).
Defined.
